(** * WOPR peer-to-peer trust core: rate and replay gates, trust store,
      responder pipeline.

    A shallow embedding of [src/rate-limit.ts], [src/trust.ts] and the
    peer-to-peer part of [src/cli.ts] (the module that imports
    [./trust.js] and [./rate-limit.js]).

    Conventions of the embedding.
    - JavaScript numbers that hold millisecond clocks and counters are [Z].
      The code computes with doubles: a sum or a difference of integers is
      the integer the model has as long as the operands and the result
      have a magnitude of at most 2^53 ([safeInt]), and such integers are
      written to the JSON store and read back unchanged.
    - The protocol versions a hello frame offers are JSON numbers that the
      code only compares and hands back; they are rationals, [Qc].
    - [Date.now()] is the parameter [now] of each operation: the value of
      the millisecond clock during that synchronous call.  Where one call
      reads the clock twice ([ReplayProtector.check] and the [cleanup] it
      calls) both readings are parameters.
    - Optional properties ([blockedUntil?], [revoked?], [keyHistory?] ...)
      are [option]; JavaScript truthiness is written out ([truthyZ],
      [truthyS]).
    - Objects the source mutates in place are modelled by explicit state
      passing: every operation returns its result together with the new
      store. *)

From Stdlib Require Import QArith.Qcanon.
From stdpp Require Import base numbers option list strings pretty gmap
  fin_maps.

Local Open Scope Z_scope.

(** The integers a double holds exactly and adds exactly: those of
    magnitude at most 2^53. *)
Definition safeInt (z : Z) : Prop := - 2 ^ 53 ≤ z ≤ 2 ^ 53.

(** Truthiness of an optional number: [undefined] and [0] are falsy. *)
Definition truthyZ (o : option Z) : bool :=
  match o with
  | Some z => bool_decide (z ≠ 0)
  | None => false
  end.

(** Truthiness of an optional string: [undefined] and the empty string
    are falsy. *)
Definition truthyS (o : option string) : bool :=
  match o with
  | Some s => bool_decide (s ≠ EmptyString)
  | None => false
  end.

(** [`"${s}"`]: a string between double quotes. *)
Definition quoted (s : string) : string :=
  let q := String (Ascii.ascii_of_nat 34) EmptyString in q +:+ s +:+ q.

(** [a.includes(x)] on an array of strings. *)
Definition includes (x : string) (l : list string) : bool :=
  bool_decide (x ∈ l).

(* ===================================================================== *)
(** * rate-limit.ts: [RateLimiter]                                        *)
(* ===================================================================== *)

Module RateLimit.

Inductive LimitType := connections | claims | injects | invalidMessages.

#[global] Instance LimitType_eq_dec : EqDecision LimitType.
Proof. solve_decision. Defined.

(** The property name of a limit class: the key of the inner [Map]. *)
Definition limitName (c : LimitType) : string :=
  match c with
  | connections => "connections"
  | claims => "claims"
  | injects => "injects"
  | invalidMessages => "invalidMessages"
  end.

(** Modelled from the spec: the interfaces [RateLimitConfig], [RateLimits]
    and [RateLimitState] of [types.ts], which is not among the sources;
    the fields are those [rate-limit.ts] reads and writes. *)
Record RateLimitConfig := mkConfig {
  windowMs : Z;
  maxRequests : Z;
  blockDurationMs : Z
}.

Record RateLimits := mkLimits {
  l_connections : RateLimitConfig;
  l_claims : RateLimitConfig;
  l_injects : RateLimitConfig;
  l_invalidMessages : RateLimitConfig
}.

(** [this.limits[limitType]] *)
Definition limitOf (l : RateLimits) (c : LimitType) : RateLimitConfig :=
  match c with
  | connections => l_connections l
  | claims => l_claims l
  | injects => l_injects l
  | invalidMessages => l_invalidMessages l
  end.

Definition DEFAULT_LIMITS : RateLimits :=
  {| l_connections := mkConfig 60000 10 300000;
     l_claims := mkConfig 60000 5 300000;
     l_injects := mkConfig 1000 10 60000;
     l_invalidMessages := mkConfig 60000 3 600000 |}.

Record RateLimitState := mkState {
  requests : list Z;
  blockedUntil : option Z
}.

(** [{ requests: [] }] *)
Definition freshState : RateLimitState := mkState [] None.

(** [Map<string, Map<string, RateLimitState>>] *)
Abbreviation Limiter := (gmap string (gmap string RateLimitState)).

(** [getState]: creates the two map entries when they are missing and
    returns the (shared) state object.  The store with the entries
    created is returned next to the state. *)
Definition getState (peerKey limitType : string) (m : Limiter)
  : Limiter * RateLimitState :=
  let m1 := match m !! peerKey with
            | Some _ => m
            | None => <[peerKey := ∅]> m
            end in
  let peerState := default ∅ (m1 !! peerKey) in
  let peerState1 := match peerState !! limitType with
                    | Some _ => peerState
                    | None => <[limitType := freshState]> peerState
                    end in
  (<[peerKey := peerState1]> m1, default freshState (peerState1 !! limitType)).

(** A write through the reference [getState] returned. *)
Definition setState (peerKey limitType : string) (s : RateLimitState)
    (m : Limiter) : Limiter :=
  <[peerKey := <[limitType := s]> (default ∅ (m !! peerKey))]> m.

(** [state.blockedUntil && now < state.blockedUntil] *)
Definition blockedNow (now : Z) (s : RateLimitState) : bool :=
  truthyZ (blockedUntil s) && bool_decide (now < default 0 (blockedUntil s)).

(** [state.blockedUntil && now >= state.blockedUntil] *)
Definition blockExpired (now : Z) (s : RateLimitState) : bool :=
  truthyZ (blockedUntil s) && bool_decide (default 0 (blockedUntil s) ≤ now).

(** [RateLimiter.check] *)
Definition check (limits : RateLimits) (now : Z) (peerKey : string)
    (limitType : LimitType) (m : Limiter) : bool * Limiter :=
  let config := limitOf limits limitType in
  let '(m1, state) := getState peerKey (limitName limitType) m in
  (* Check if blocked *)
  if blockedNow now state then (false, m1)
  else
    (* Clear block if expired *)
    let state1 := if blockExpired now state then mkState [] None else state in
    (* Clean old requests outside window *)
    let state2 :=
      mkState (filter (λ ts, now - ts < windowMs config) (requests state1))
              (blockedUntil state1) in
    (* Check if over limit *)
    if bool_decide (maxRequests config ≤ Z.of_nat (length (requests state2)))
    then
      (false,
       setState peerKey (limitName limitType)
         (mkState (requests state2) (Some (now + blockDurationMs config))) m1)
    else
      (* Record this request *)
      (true,
       setState peerKey (limitName limitType)
         (mkState (requests state2 ++ [now]) (blockedUntil state2)) m1).

(** [RateLimiter.block].  The sum is the code's [Date.now() + duration],
    exact for safe integers. *)
Definition block (limits : RateLimits) (now : Z) (peerKey : string)
    (limitType : LimitType) (durationMs : option Z) (m : Limiter) : Limiter :=
  let config := limitOf limits limitType in
  let '(m1, state) := getState peerKey (limitName limitType) m in
  setState peerKey (limitName limitType)
    (mkState (requests state)
             (Some (now + default (blockDurationMs config) durationMs))) m1.

(** The state object of [(peerKey, limitType)] as [getState] would
    return it: a fresh one when the entry does not exist yet. *)
Definition stateOf (peerKey : string) (limitType : LimitType) (m : Limiter)
  : RateLimitState :=
  default freshState (m !! peerKey ≫= (.!! limitName limitType)).

(** The specification's wording of [check] on the state of one
    [(peer, class)] pair, for comparison with the code: blocked and
    [now < blockedUntil]: false and nothing changes; else drop the
    timestamps older than the window; at the limit: set [blockedUntil] and
    answer false; else append [now] and answer true. *)
Definition check_spec (config : RateLimitConfig) (now : Z)
    (s : RateLimitState) : bool * RateLimitState :=
  if blockedNow now s then (false, s)
  else
    let kept := filter (λ ts, now - ts < windowMs config) (requests s) in
    if bool_decide (maxRequests config ≤ Z.of_nat (length kept))
    then (false, mkState kept (Some (now + blockDurationMs config)))
    else (true, mkState (kept ++ [now]) (blockedUntil s)).

(** What the code does on the state of one [(peer, class)] pair: as
    [check_spec], but an expired block is first cleared together with
    every recorded timestamp. *)
Definition check_step (config : RateLimitConfig) (now : Z)
    (s : RateLimitState) : bool * RateLimitState :=
  if blockedNow now s then (false, s)
  else
    let s1 := if blockExpired now s then mkState [] None else s in
    let kept := filter (λ ts, now - ts < windowMs config) (requests s1) in
    if bool_decide (maxRequests config ≤ Z.of_nat (length kept))
    then (false, mkState kept (Some (now + blockDurationMs config)))
    else (true, mkState (kept ++ [now]) (blockedUntil s1)).

(** A sequence of [check] calls [(now, peer, class)], oldest first, with
    the answers in the same order. *)
Fixpoint run (limits : RateLimits) (calls : list (Z * string * LimitType))
    (m : Limiter) : list bool * Limiter :=
  match calls with
  | [] => ([], m)
  | (now, p, c) :: rest =>
      let '(r, m1) := check limits now p c m in
      let '(rs, m2) := run limits rest m1 in
      (r :: rs, m2)
  end.

(** [RateLimiter.isBlocked]: the answer, and the store with the entries
    [getState] created. *)
Definition isBlocked (now : Z) (peerKey : string) (limitType : LimitType)
    (m : Limiter) : bool * Limiter :=
  let '(m1, state) := getState peerKey (limitName limitType) m in
  (blockedNow now state, m1).

(** [RateLimiter.getBlockedFor] *)
Definition getBlockedFor (now : Z) (peerKey : string)
    (limitType : LimitType) (m : Limiter) : Z * Limiter :=
  let '(m1, state) := getState peerKey (limitName limitType) m in
  (if blockedNow now state then default 0 (blockedUntil state) - now else 0,
   m1).

(** [RateLimiter.unblock] *)
Definition unblock (peerKey : string) (limitType : LimitType) (m : Limiter)
  : Limiter :=
  let '(m1, state) := getState peerKey (limitName limitType) m in
  setState peerKey (limitName limitType) (mkState [] None) m1.

(** [RateLimiter.getRequestCount] *)
Definition getRequestCount (limits : RateLimits) (now : Z)
    (peerKey : string) (limitType : LimitType) (m : Limiter) : Z * Limiter :=
  let config := limitOf limits limitType in
  let '(m1, state) := getState peerKey (limitName limitType) m in
  (Z.of_nat
     (length (filter (λ ts, now - ts < windowMs config) (requests state))),
   m1).

(** [RateLimiter.clear] *)
Definition clear (m : Limiter) : Limiter := ∅.

(** [RateLimiter.clearPeer] *)
Definition clearPeer (peerKey : string) (m : Limiter) : Limiter :=
  delete peerKey m.

(** A call of one of the methods of a [RateLimiter]. *)
Inductive Call :=
  | CallCheck (now : Z) (peerKey : string) (limitType : LimitType)
  | CallIsBlocked (now : Z) (peerKey : string) (limitType : LimitType)
  | CallGetBlockedFor (now : Z) (peerKey : string) (limitType : LimitType)
  | CallBlock (now : Z) (peerKey : string) (limitType : LimitType)
              (durationMs : option Z)
  | CallUnblock (peerKey : string) (limitType : LimitType)
  | CallGetRequestCount (now : Z) (peerKey : string) (limitType : LimitType)
  | CallClear
  | CallClearPeer (peerKey : string).

(** The store after a call. *)
Definition exec (limits : RateLimits) (call : Call) (m : Limiter) : Limiter :=
  match call with
  | CallCheck now p c => (check limits now p c m).2
  | CallIsBlocked now p c => (isBlocked now p c m).2
  | CallGetBlockedFor now p c => (getBlockedFor now p c m).2
  | CallBlock now p c d => block limits now p c d m
  | CallUnblock p c => unblock p c m
  | CallGetRequestCount now p c => (getRequestCount limits now p c m).2
  | CallClear => clear m
  | CallClearPeer p => clearPeer p m
  end.

(** The store after a sequence of calls, oldest first, on a new limiter. *)
Definition execAll (limits : RateLimits) (calls : list Call) : Limiter :=
  foldl (λ m call, exec limits call m) ∅ calls.

(** The counter of every pair holds at most [maxRequests] timestamps
    (none when [maxRequests] is negative). *)
Definition bounded (limits : RateLimits) (m : Limiter) : Prop :=
  ∀ p c, Z.of_nat (length (requests (stateOf p c m)))
         ≤ Z.max 0 (maxRequests (limitOf limits c)).

End RateLimit.

(* ===================================================================== *)
(** * rate-limit.ts: [ReplayProtector]                                    *)
(* ===================================================================== *)

Module Replay.

Record ReplayProtector := mkRP {
  seenNonces : gmap string Z;
  maxAgeMs : Z;
  maxClockSkewMs : Z
}.

(** [new ReplayProtector(maxAgeMs = 300000, maxClockSkewMs = 30000)] *)
Definition create (maxAge maxSkew : option Z) : ReplayProtector :=
  mkRP ∅ (default 300000 maxAge) (default 30000 maxSkew).

(** [cleanup]: delete every nonce recorded with [ts < now - maxAgeMs]. *)
Definition cleanup (now : Z) (rp : ReplayProtector) : ReplayProtector :=
  let cutoff := now - maxAgeMs rp in
  mkRP (filter (λ kv : string * Z, ¬ (kv.2 < cutoff)) (seenNonces rp))
       (maxAgeMs rp) (maxClockSkewMs rp).

(** [ReplayProtector.check].  The clock is read twice: [check] reads it
    on entry ([now]), and [cleanup], when it runs, reads it again
    ([later]). *)
Definition check (now later : Z) (nonce : string) (timestamp : Z)
    (rp : ReplayProtector) : bool * ReplayProtector :=
  if bool_decide (timestamp < now - maxAgeMs rp) then (false, rp)
  else if bool_decide (now + maxClockSkewMs rp < timestamp) then (false, rp)
  else if bool_decide (is_Some (seenNonces rp !! nonce)) then (false, rp)
  else
    let rp1 := mkRP (<[nonce := timestamp]> (seenNonces rp))
                    (maxAgeMs rp) (maxClockSkewMs rp) in
    let rp2 := if bool_decide (10000 < Z.of_nat (size (seenNonces rp1)))
               then cleanup later rp1 else rp1 in
    (true, rp2).

(** A sequence of [check] calls [(now, later, nonce, timestamp)], oldest
    first, with the answers in the same order. *)
Fixpoint run (calls : list (Z * Z * string * Z)) (rp : ReplayProtector)
  : list bool * ReplayProtector :=
  match calls with
  | [] => ([], rp)
  | (now, later, n, ts) :: rest =>
      let '(r, rp1) := check now later n ts rp in
      let '(rs, rp2) := run rest rp1 in
      (r :: rs, rp2)
  end.

(** The clock does not run backwards along a sequence of calls that
    starts at time [t]. *)
Fixpoint clockFrom (t : Z) (calls : list (Z * Z * string * Z)) : Prop :=
  match calls with
  | [] => True
  | (now, later, _, _) :: rest => t ≤ now ∧ now ≤ later ∧ clockFrom later rest
  end.

(** The calls that present every nonce of [l] once, at time 0 and with
    the timestamp 0. *)
Definition presentAll (l : list string) : list (Z * Z * string * Z) :=
  (λ n, (0, 0, n, 0)) <$> l.

(** The nonces of [l] recorded with the timestamp 0. *)
Definition recordAll (l : list string) (m : gmap string Z) : gmap string Z :=
  foldl (λ m n, <[n := 0]> m) m l.

(** What one later call preserves about an accepted pair [(n, ts)]:
    either the nonce is still recorded, with the timestamp it was
    accepted with, or that timestamp is by now too old to be accepted. *)
Definition guarded (n : string) (ts t : Z) (rp : ReplayProtector) : Prop :=
  seenNonces rp !! n = Some ts ∨ ts < t - maxAgeMs rp.

(** The calls that present every nonce of [l] once, each at time [t] and
    with the timestamp [t]. *)
Definition presentAt (t : Z) (l : list string) : list (Z * Z * string * Z) :=
  (λ n, (t, t, n, t)) <$> l.

End Replay.

(* ===================================================================== *)
(** * trust.ts: the trust store                                           *)
(* ===================================================================== *)

Module Trust.

(** Modelled from the spec: the interfaces [KeyHistory], [AccessGrant],
    [Peer] and [KeyRotation] of [types.ts], which is not among the
    sources; the fields are those of the data model that [trust.ts] reads
    and writes, optional where the code creates a record without them or
    tests their presence. *)
Record KeyHistory := mkHistory {
  publicKey : string;
  encryptPub : string;
  validFrom : Z;
  validUntil : Z;
  rotationReason : string
}.

Record AccessGrant := mkGrant {
  g_id : string;
  peerKey : string;
  peerEncryptPub : option string;
  sessions : list string;
  caps : list string;
  created : Z;
  revoked : option bool;
  peerName : option string;
  keyHistory : option (list KeyHistory)
}.

Record Peer := mkPeer {
  p_id : string;
  p_name : option string;
  p_publicKey : string;
  p_encryptPub : option string;
  p_sessions : list string;
  p_caps : list string;
  p_added : Z;
  p_keyHistory : option (list KeyHistory)
}.

Record KeyRotation := mkRotation {
  oldSignPub : string;
  newSignPub : string;
  newEncryptPub : string;
  reason : string;
  effectiveAt : Z;
  gracePeriodMs : Z;
  rot_sig : string
}.

(** The two JSON files [access.json] and [peers.json]. *)
Record Store := mkStore {
  grants : list AccessGrant;
  peers : list Peer
}.

(** [g.revoked] as a condition: [undefined] and [false] are falsy. *)
Definition isRevoked (g : AccessGrant) : bool :=
  match revoked g with
  | Some true => true
  | _ => false
  end.

(** [g.sessions.includes("*") || g.sessions.includes(session)] *)
Definition sessionAllowed (session : string) (l : list string) : bool :=
  includes "*" l || includes session l.

(** [Array.from(new Set(l))]: the elements of [l] in the order of their
    first occurrence. *)
Fixpoint uniq (l : list string) : list string :=
  match l with
  | [] => []
  | x :: rest => x :: filter (λ y, y ≠ x) (uniq rest)
  end.

(** The inner loop of [isAuthorized] over [g.keyHistory]. *)
Fixpoint historyInGrace (now : Z) (senderKey : string)
    (hs : list KeyHistory) : bool :=
  match hs with
  | [] => false
  | history :: rest =>
      if bool_decide (publicKey history = senderKey)
         && (bool_decide (validUntil history ≠ 0)
             && bool_decide (now < validUntil history))
      then true
      else historyInGrace now senderKey rest
  end.

(** [!g.keyHistory]: the property is missing. *)
Definition noHistory {A} (o : option (list A)) : bool :=
  match o with
  | Some _ => false
  | None => true
  end.

(** The outer loop of [isAuthorized] over the grants. *)
Fixpoint historyAuthorized (now : Z) (senderKey session : string)
    (gs : list AccessGrant) : bool :=
  match gs with
  | [] => false
  | g :: rest =>
      if isRevoked g || noHistory (keyHistory g)
      then historyAuthorized now senderKey session rest
      else if negb (includes "*" (sessions g))
              && negb (includes session (sessions g))
      then historyAuthorized now senderKey session rest
      else if negb (includes "inject" (caps g))
      then historyAuthorized now senderKey session rest
      else if historyInGrace now senderKey (default [] (keyHistory g))
      then true
      else historyAuthorized now senderKey session rest
  end.

(** [isAuthorized] *)
Definition isAuthorized (now : Z) (senderKey session : string)
    (gs : list AccessGrant) : bool :=
  (* Check current key *)
  let grant :=
    list_find (λ g, isRevoked g = false
                    ∧ peerKey g = senderKey
                    ∧ sessionAllowed session (sessions g) = true
                    ∧ includes "inject" (caps g) = true) gs in
  match grant with
  | Some _ => true
  | None =>
      (* Check key history (for rotated keys in grace period) *)
      historyAuthorized now senderKey session gs
  end.

(** The loop of [getGrantForPeer] over the grants and their history. *)
Fixpoint historyGrant (key : string) (gs : list AccessGrant)
  : option AccessGrant :=
  match gs with
  | [] => None
  | g :: rest =>
      if isRevoked g || noHistory (keyHistory g) then historyGrant key rest
      else if bool_decide (Exists (λ history, publicKey history = key)
                             (default [] (keyHistory g)))
      then Some g
      else historyGrant key rest
  end.

(** [getGrantForPeer] *)
Definition getGrantForPeer (key : string) (gs : list AccessGrant)
  : option AccessGrant :=
  match list_find (λ g, isRevoked g = false ∧ peerKey g = key) gs with
  | Some (_, grant) => Some grant
  | None => historyGrant key gs
  end.

(** [grantAccess]; the grant it returns and the new list of grants. *)
Definition grantAccess (now : Z) (key : string) (ses cap : list string)
    (encPub : option string) (gs : list AccessGrant)
  : AccessGrant * list AccessGrant :=
  (* Check if already granted *)
  match list_find (λ g, peerKey g = key ∧ isRevoked g = false) gs with
  | Some (i, existing) =>
      let updated :=
        mkGrant (g_id existing) (peerKey existing)
          (if truthyS encPub then encPub else peerEncryptPub existing)
          (uniq (sessions existing ++ ses))
          (uniq (caps existing ++ cap))
          (created existing) (revoked existing) (peerName existing)
          (keyHistory existing) in
      (updated, <[i := updated]> gs)
  | None =>
      let grant :=
        mkGrant ("grant-" +:+ pretty now) key encPub ses cap now
                None None None in
      (grant, gs ++ [grant])
  end.

(** ** Vocabulary of the statements about the trust store *)

(** The grants that authorise [k] for [s] through their key history. *)
Definition graceGrant (now : Z) (k s : string) (g : AccessGrant) : Prop :=
  revoked g ≠ Some true
  ∧ "inject" ∈ caps g
  ∧ ("*" ∈ sessions g ∨ s ∈ sessions g)
  ∧ ∃ hs h, keyHistory g = Some hs ∧ h ∈ hs ∧ publicKey h = k
            ∧ validUntil h ≠ 0 ∧ now < validUntil h.

(** What the specification asks of a grant that authorises key [k] for
    session [s] at time [now]. *)
Definition authorises (now : Z) (k s : string) (g : AccessGrant) : Prop :=
  revoked g ≠ Some true
  ∧ "inject" ∈ caps g
  ∧ ("*" ∈ sessions g ∨ s ∈ sessions g)
  ∧ (peerKey g = k
     ∨ ∃ hs h, keyHistory g = Some hs ∧ h ∈ hs ∧ publicKey h = k
               ∧ now < validUntil h).

(** The keys a grant stands for in [getGrantForPeer]: the current key and
    every key of its history, whatever the [validUntil] of the entry. *)
Definition knownKey (k : string) (g : AccessGrant) : Prop :=
  peerKey g = k
  ∨ ∃ hs h, keyHistory g = Some hs ∧ h ∈ hs ∧ publicKey h = k.

(** The grant [revokePeer] leaves in place of [g]. *)
Definition revokedGrant (g : AccessGrant) : AccessGrant :=
  mkGrant (g_id g) (peerKey g) (peerEncryptPub g) (sessions g) (caps g)
          (created g) (Some true) (peerName g) (keyHistory g).

(** The grant and the peer a rotation [r] applies to. *)
Definition grantOf (r : KeyRotation) (g : AccessGrant) : Prop :=
  peerKey g = oldSignPub r ∧ isRevoked g = false.

Definition peerOf (r : KeyRotation) (p : Peer) : Prop :=
  p_publicKey p = oldSignPub r.

#[global] Instance grantOf_dec r g : Decision (grantOf r g).
Proof. unfold grantOf. apply _. Defined.

#[global] Instance peerOf_dec r p : Decision (peerOf r p).
Proof. unfold peerOf. apply _. Defined.

Section WithIdentity.

(** From [identity.ts], which is not among the sources: the short id of a
    key, the verification of a rotation record, and the string method
    [toLowerCase]. *)
Variable shortKey : string → string.
Variable verifyKeyRotation : KeyRotation → bool.
Variable toLowerCase : string → string.

(** [x?.toLowerCase() === idOrName.toLowerCase()] *)
Definition sameName (name : option string) (idOrName : string) : bool :=
  match name with
  | Some n => bool_decide (toLowerCase n = toLowerCase idOrName)
  | None => false
  end.

(** The predicate of [revokePeer]'s [findIndex]. *)
Definition activeMatch (idOrName : string) (g : AccessGrant) : bool :=
  negb (isRevoked g)
  && (bool_decide (shortKey (peerKey g) = idOrName)
      || sameName (peerName g) idOrName
      || bool_decide (g_id g = idOrName)
      || bool_decide (peerKey g = idOrName)).

(** [revokePeer]: the new list of grants, or the message of the error it
    throws. *)
Definition revokePeer (idOrName : string) (gs : list AccessGrant)
  : string + list AccessGrant :=
  match list_find (λ g, activeMatch idOrName g = true) gs with
  | None => inl ("No active grant found for " +:+ quoted idOrName)
  | Some (idx, g) =>
      inr (<[idx := mkGrant (g_id g) (peerKey g) (peerEncryptPub g)
                      (sessions g) (caps g) (created g) (Some true)
                      (peerName g) (keyHistory g)]> gs)
  end.

(** The loop of [findPeer] over the peers and their history. *)
Fixpoint historyPeer (idOrName : string) (ps : list Peer) : option Peer :=
  match ps with
  | [] => None
  | p :: rest =>
      if noHistory (p_keyHistory p) then historyPeer idOrName rest
      else if bool_decide (Exists (λ history, publicKey history = idOrName)
                             (default [] (p_keyHistory p)))
      then Some p
      else historyPeer idOrName rest
  end.

(** [findPeer] *)
Definition findPeer (idOrName : string) (ps : list Peer) : option Peer :=
  match list_find (λ p, p_id p = idOrName
                        ∨ sameName (p_name p) idOrName = true
                        ∨ p_publicKey p = idOrName) ps with
  | Some (_, peer) => Some peer
  | None => historyPeer idOrName ps
  end.

(** The history entry [processPeerKeyRotation] appends.  [validUntil]
    is the code's [effectiveAt + gracePeriodMs], exact for safe
    integers. *)
Definition historyEntry (key : string) (enc : option string) (from : Z)
    (rotation : KeyRotation) : KeyHistory :=
  mkHistory key (if truthyS enc then default EmptyString enc else EmptyString)
            from (effectiveAt rotation + gracePeriodMs rotation)
            (reason rotation).

Definition rotateGrant (rotation : KeyRotation) (grant : AccessGrant)
  : AccessGrant :=
  mkGrant (g_id grant) (newSignPub rotation) (Some (newEncryptPub rotation))
    (sessions grant) (caps grant) (created grant) (revoked grant)
    (peerName grant)
    (Some (default [] (keyHistory grant)
           ++ [historyEntry (peerKey grant) (peerEncryptPub grant)
                 (created grant) rotation])).

Definition rotatePeer (rotation : KeyRotation) (peer : Peer) : Peer :=
  mkPeer (shortKey (newSignPub rotation)) (p_name peer)
    (newSignPub rotation) (Some (newEncryptPub rotation))
    (p_sessions peer) (p_caps peer) (p_added peer)
    (Some (default [] (p_keyHistory peer)
           ++ [historyEntry (p_publicKey peer) (p_encryptPub peer)
                 (p_added peer) rotation])).

(** [processPeerKeyRotation] *)
Definition processPeerKeyRotation (rotation : KeyRotation) (st : Store)
  : bool * Store :=
  (* Verify the rotation is valid *)
  if negb (verifyKeyRotation rotation) then (false, st)
  else
    (* Find grant by old key *)
    let grantIdx :=
      list_find (λ g, peerKey g = oldSignPub rotation ∧ isRevoked g = false)
                (grants st) in
    let grants1 :=
      match grantIdx with
      | Some (i, grant) => <[i := rotateGrant rotation grant]> (grants st)
      | None => grants st
      end in
    (* Find peer by old key *)
    let peerIdx :=
      list_find (λ p, p_publicKey p = oldSignPub rotation) (peers st) in
    let peers1 :=
      match peerIdx with
      | Some (i, peer) => <[i := rotatePeer rotation peer]> (peers st)
      | None => peers st
      end in
    (bool_decide (is_Some grantIdx) || bool_decide (is_Some peerIdx),
     mkStore grants1 peers1).

(** The store [processPeerKeyRotation] leaves. *)
Definition rotated (r : KeyRotation) (st : Store) : Store :=
  mkStore
    match list_find (grantOf r) (grants st) with
    | Some (i, grant) => <[i := rotateGrant r grant]> (grants st)
    | None => grants st
    end
    match list_find (peerOf r) (peers st) with
    | Some (i, peer) => <[i := rotatePeer r peer]> (peers st)
    | None => peers st
    end.

End WithIdentity.

End Trust.

(* ===================================================================== *)
(** * cli.ts (peer-to-peer part): [sendP2PInject], [handleConnection]     *)
(* ===================================================================== *)

Module P2P.
Import Trust.

(** Modelled from the spec: the protocol constants of [types.ts], which is
    not among the sources ("Supported versions: PROTOCOL_VERSION = 2;
    MIN_PROTOCOL_VERSION = 1"). *)
Definition PROTOCOL_VERSION : Z := 2.
Definition MIN_PROTOCOL_VERSION : Z := 1.

(** Modelled from the spec: the result codes of [types.ts] (the table of
    exit codes; the coding conventions of the repository list the same
    values). *)
Definition EXIT_OK : Z := 0.
Definition EXIT_OFFLINE : Z := 1.
Definition EXIT_REJECTED : Z := 2.
Definition EXIT_INVALID : Z := 3.
Definition EXIT_RATE_LIMITED : Z := 4.
Definition EXIT_VERSION_MISMATCH : Z := 5.

Record SendResult := mkResult {
  code : Z;
  message : option string
}.

(** Modelled from the spec: the interfaces [Identity], [InviteToken] and
    [P2PMessage] of [types.ts], which is not among the sources, with the
    fields the protocol engine reads. *)
Record Identity := mkIdentity {
  id_publicKey : string;
  id_encryptPub : string
}.

(** The invite token [parseInviteToken] returns. *)
Record InviteToken := mkToken {
  iss : string;
  sub : string;
  ses : list string;
  cap : list string;
  iat : Z;
  exp : Z;
  tok_nonce : string;
  tok_sig : string
}.

(** A received frame: the wide record [P2PMessage] with its optional
    fields.  [type] is the string the peer sent. *)
Record P2PMessage := mkMsg {
  v : Z;
  type : string;
  from : string;
  nonce : string;
  ts : Z;
  sig : string;
  versions : option (list Qc);
  version : option Qc;
  ephemeralPub : option string;
  token : option string;
  msgEncryptPub : option string;
  session : option string;
  payload : option string;
  keyRotation : option KeyRotation;
  msgReason : option string
}.

(** A frame the responder writes: [signMessage({ v: PROTOCOL_VERSION, type,
    from: myPublicKey, ..., ts: Date.now() })] followed by a newline.  The
    random nonce and the signature are left out. *)
Record Frame := mkFrame {
  f_v : Z;
  f_type : string;
  f_from : string;
  f_version : option Qc;
  f_ephemeralPub : option string;
  f_encryptPub : option string;
  f_session : option string;
  f_reason : option string;
  f_ts : Z
}.

(** What the engine takes from [identity.ts], from the JavaScript runtime
    and from its caller, none of which is among the sources. *)
Record Externals := mkExternals {
  (** [JSON.parse(line)]; [None] when it throws. *)
  parseJSON : string → option P2PMessage;
  (** [verifySignature(msg, msg.from)] *)
  verifySignature : P2PMessage → string → bool;
  (** [parseInviteToken(str)] at time [now]: the token, or the text of
      the error it throws (malformed, bad signature, expired). *)
  parseInviteToken : Z → string → string + InviteToken;
  (** [verifyKeyRotation(rotation)] *)
  verifyKeyRotation : KeyRotation → bool;
  (** [shortKey(key)] *)
  shortKey : string → string;
  (** [getTopic(key)] *)
  getTopic : string → string;
  (** [s.toLowerCase()] *)
  toLowerCase : string → string;
  (** [decryptWithEphemeral(payload, privateKey, ephemeralPub)]; [None]
      when it throws. *)
  decryptWithEphemeral : string → string → string → option string;
  (** [decryptMessage(payload, peerEncryptPub)]; [None] when it throws. *)
  decryptMessage : string → string → option string;
  (** [await onInject(session, plaintext, from)]: [true] when the handler
      of the caller resolves, [false] when it rejects. *)
  onInject : string → string → string → bool
}.

Section Engine.

Variable E : Externals.

(** ** The initiator: [sendP2PInject] up to [new Hyperswarm()] *)

(** How the synchronous prefix of [sendP2PInject] ends: it returns a
    result, no swarm having been created; or it goes on to create the
    swarm and join the peer's topic as a client. *)
Inductive Prefix :=
  | Return (r : SendResult)
  | OpenSwarm (identity : Identity) (peer : Peer) (topic : string).

Definition sendP2PInject (identity : option Identity) (ps : list Peer)
    (peerIdOrName session0 message0 : string) : Prefix :=
  match identity with
  | None => Return (mkResult EXIT_INVALID (Some "No identity"))
  | Some identity =>
      match findPeer (toLowerCase E) peerIdOrName ps with
      | None =>
          Return (mkResult EXIT_INVALID
                    (Some ("Peer not found: " +:+ peerIdOrName)))
      | Some peer =>
          if negb (includes "*" (p_sessions peer))
             && negb (includes session0 (p_sessions peer))
          then Return (mkResult EXIT_REJECTED
                         (Some ("No access to session "
                                +:+ quoted session0)))
          else if negb (truthyS (p_encryptPub peer))
          then Return (mkResult EXIT_INVALID
                         (Some "Peer has no encryption key (claim token first)"))
          else OpenSwarm identity peer (getTopic E (p_publicKey peer))
      end
  end.

(** ** The responder: one "data" event of [handleConnection] *)

(** The singletons of [rate-limit.ts] and the two files of the trust
    store. *)
Record World := mkWorld {
  limiter : gmap string (gmap string RateLimit.RateLimitState);
  replay : Replay.ReplayProtector;
  store : Store
}.

(** The variables of one connection: [buffer], [handshakeComplete],
    [sessionState]. *)
Record Conn := mkConn {
  buffer : string;
  handshakeComplete : bool;
  ephemeralPublic : string;
  ephemeralPrivate : string;
  peerEphemeralPub : option string;
  negotiatedVersion : option Qc
}.

Definition newline : Ascii.ascii := Ascii.ascii_of_nat 10.

(** [buffer.includes("\n")], and then [line = buffer.split("\n")[0]] with
    [buffer.slice(line.length + 1)]. *)
Fixpoint splitLine (s : string) : option (string * string) :=
  match s with
  | EmptyString => None
  | String c rest =>
      if Ascii.eqb c newline then Some (EmptyString, rest)
      else match splitLine rest with
           | Some (line, rest') => Some (String c line, rest')
           | None => None
           end
  end.

(** [Math.max(a, b)] on two numbers. *)
Definition maxNum (a b : Qc) : Qc := if decide (a ≤ b)%Qc then b else a.

(** [Math.max(...l)] of a non-empty list. *)
Definition maxOf (l : list Qc) : Qc :=
  match l with
  | [] => Qc_of_Z 0
  | x :: rest => foldl maxNum x rest
  end.

Definition rejectFrame (me : string) (now : Z) (sess : option string)
    (why : string) : Frame :=
  mkFrame PROTOCOL_VERSION "reject" me None None None sess (Some why) now.

Definition ackFrame (me : string) (now : Z) (sess enc : option string)
  : Frame :=
  mkFrame PROTOCOL_VERSION "ack" me None None enc sess None now.

(** [rateLimiter.check(peerKey, limitType)] on the singleton, which is
    created with the default limits. *)
Definition rateCheck (now : Z) (peerKey : string) (c : RateLimit.LimitType)
    (w : World) : bool * World :=
  let '(ok, l) := RateLimit.check RateLimit.DEFAULT_LIMITS now peerKey c
                    (limiter w) in
  (ok, mkWorld l (replay w) (store w)).

(** The branch [msg.type === "claim" && msg.token]. *)
Definition handleClaim (me : Identity) (now : Z) (msg : P2PMessage)
    (w : World) : World * list Frame :=
  let myPublicKey := id_publicKey me in
  (* Rate limit claims *)
  let '(ok, w1) := rateCheck now (from msg) RateLimit.claims w in
  if negb ok then (w1, [rejectFrame myPublicKey now None "rate limited"])
  else
    match parseInviteToken E now (default EmptyString (token msg)) with
    | inl err =>
        (w1, [rejectFrame myPublicKey now None ("invalid token: " +:+ err)])
    | inr tok =>
        if bool_decide (iss tok ≠ myPublicKey)
        then (w1, [rejectFrame myPublicKey now None
                     "token not issued by this peer"])
        else if bool_decide (sub tok ≠ from msg)
        then (w1, [rejectFrame myPublicKey now None
                     "token not issued for you"])
        else
          let gs := (grantAccess now (from msg) (ses tok) (cap tok)
                       (msgEncryptPub msg) (grants (store w1))).2 in
          (mkWorld (limiter w1) (replay w1) (mkStore gs (peers (store w1))),
           [ackFrame myPublicKey now None (Some (id_encryptPub me))])
    end.

(** The branch [msg.type === "inject" && msg.payload && msg.session]. *)
Definition handleInject (me : Identity) (now : Z) (c : Conn)
    (msg : P2PMessage) (w : World) : World * list Frame :=
  let myPublicKey := id_publicKey me in
  let sess := default EmptyString (session msg) in
  let body := default EmptyString (payload msg) in
  (* Rate limit injects *)
  let '(ok, w1) := rateCheck now (from msg) RateLimit.injects w in
  if negb ok
  then (w1, [rejectFrame myPublicKey now (session msg) "rate limited"])
  else if negb (isAuthorized now (from msg) sess (grants (store w1)))
  then (w1, [rejectFrame myPublicKey now (session msg) "unauthorized"])
  else
    let decrypted :=
      if bool_decide (2 ≤ v msg) && truthyS (ephemeralPub msg)
      then decryptWithEphemeral E body (ephemeralPrivate c)
             (default EmptyString (ephemeralPub msg))
      else
        match getGrantForPeer (from msg) (grants (store w1)) with
        | Some grant =>
            if truthyS (peerEncryptPub grant)
            then decryptMessage E body
                   (default EmptyString (peerEncryptPub grant))
            else None
        | None => None
        end in
    match decrypted with
    | Some plain =>
        if onInject E sess plain (from msg)
        then (w1, [ackFrame myPublicKey now (session msg) None])
        else (w1, [rejectFrame myPublicKey now (session msg) "inject failed"])
    | None =>
        (w1, [rejectFrame myPublicKey now (session msg) "inject failed"])
    end.

(** The dispatch on the type of a frame that passed the gates. *)
Definition dispatch (me : Identity) (now : Z) (c : Conn) (msg : P2PMessage)
    (w : World) : World * list Frame :=
  if bool_decide (type msg = "claim") && truthyS (token msg)
  then handleClaim me now msg w
  else if bool_decide (type msg = "inject") && truthyS (payload msg)
          && truthyS (session msg)
  then handleInject me now c msg w
  else (w, []).

(** The signature gate and the replay gate of a frame that is neither a
    handshake frame nor a key rotation, then the dispatch.  The clock
    value [now] of the event stands for every reading of the clock during
    it, also for the one of the replay protector's [cleanup]. *)
Definition gated (me : Identity) (now : Z) (c1 : Conn) (msg : P2PMessage)
    (w : World) : Conn * World * list Frame :=
  if negb (verifySignature E msg (from msg))
  then (c1, (rateCheck now (from msg) RateLimit.invalidMessages w).2, [])
  else
    (* Replay protection *)
    let '(fresh, rp) :=
      Replay.check now now (nonce msg) (ts msg) (replay w) in
    let w1 := mkWorld (limiter w) rp (store w) in
    if negb fresh
    then (c1, (rateCheck now (from msg) RateLimit.invalidMessages w1).2, [])
    else let '(w2, out) := dispatch me now c1 msg w1 in (c1, w2, out).

(** The "data" listener of [handleConnection], from [buffer += ...] on:
    [data] is the text of the chunk, that is [data.toString()].  The
    result is the connection variables and the world after the event, and
    the frames written to the socket.  Calls of [onLog] are not part of
    the model. *)
Definition handleConnection (me : Identity) (now : Z) (data : string)
    (c : Conn) (w : World) : Conn * World * list Frame :=
  let myPublicKey := id_publicKey me in
  let buffer1 := buffer c +:+ data in
  match splitLine buffer1 with
  | None =>
      (mkConn buffer1 (handshakeComplete c) (ephemeralPublic c)
         (ephemeralPrivate c) (peerEphemeralPub c) (negotiatedVersion c),
       w, [])
  | Some (line, rest) =>
      let c1 := mkConn rest (handshakeComplete c) (ephemeralPublic c)
                  (ephemeralPrivate c) (peerEphemeralPub c)
                  (negotiatedVersion c) in
      match parseJSON E line with
      | None => (c1, w, [])
      | Some msg =>
          (* Handle hello (handshake initiation) *)
          if bool_decide (type msg = "hello") && negb (handshakeComplete c)
          then
            let commonVersions :=
              filter (λ x, (Qc_of_Z MIN_PROTOCOL_VERSION ≤ x
                            ∧ x ≤ Qc_of_Z PROTOCOL_VERSION)%Qc)
                     (default [Qc_of_Z 1] (versions msg)) in
            if bool_decide (length commonVersions = 0%nat)
            then (c1, w, [rejectFrame myPublicKey now None
                            "no common protocol version"])
            else
              let negotiated := maxOf commonVersions in
              (mkConn rest true (ephemeralPublic c) (ephemeralPrivate c)
                 (ephemeralPub msg) (Some negotiated),
               w,
               [mkFrame PROTOCOL_VERSION "hello-ack" myPublicKey
                  (Some negotiated) (Some (ephemeralPublic c)) None None
                  None now])
          else
            (* For non-hello messages, verify signature first *)
            if bool_decide (type msg ≠ "hello")
               && bool_decide (type msg ≠ "hello-ack")
            then
              match keyRotation msg with
              | Some rotation =>
                  if bool_decide (type msg = "key-rotation")
                  then
                    let '(ok, st) :=
                      processPeerKeyRotation (shortKey E)
                        (verifyKeyRotation E) rotation (store w) in
                    (c1, mkWorld (limiter w) (replay w) st,
                     [if ok then ackFrame myPublicKey now None None
                      else rejectFrame myPublicKey now None
                             "invalid key rotation"])
                  else gated me now c1 msg w
              | None => gated me now c1 msg w
              end
            else
              let '(w1, out) := dispatch me now c1 msg w in (c1, w1, out)
      end
  end.

(** The "data" listener as the socket calls it.  The chunk is a
    [Buffer]; [buffer += data.toString()] decodes each chunk on its own,
    as UTF-8, and appends the text.  [toString] is that decoder, which is
    part of the JavaScript runtime. *)
Definition onData (toString : list Byte.byte → string) (me : Identity)
    (now : Z) (chunk : list Byte.byte) (c : Conn) (w : World)
  : Conn * World * list Frame :=
  handleConnection me now (toString chunk) c w.

(** ** Vocabulary of the statements about the responder *)

(** The connection variables after a complete line was taken from the
    buffer. *)
Definition consumed (c : Conn) (rest : string) : Conn :=
  mkConn rest (handshakeComplete c) (ephemeralPublic c) (ephemeralPrivate c)
         (peerEphemeralPub c) (negotiatedVersion c).

(** The world after [rateLimiter.check(who, "invalidMessages")]. *)
Definition charged (now : Z) (who : string) (w : World) : World :=
  mkWorld
    (RateLimit.check RateLimit.DEFAULT_LIMITS now who
       RateLimit.invalidMessages (limiter w)).2
    (replay w) (store w).


(** [plain] is the plaintext of the payload of an inject frame as the
    responder has to obtain it: with the ephemeral private key of the
    connection and the ephemeral key of the frame when the frame has
    version 2 or more and carries one, and with the encryption key of the
    sender's grant otherwise. *)
Definition decryptsTo (c : Conn) (msg : P2PMessage) (gs : list AccessGrant)
    (plain : string) : Prop :=
  let body := default EmptyString (payload msg) in
  (2 ≤ v msg ∧ truthyS (ephemeralPub msg) = true
   ∧ decryptWithEphemeral E body (ephemeralPrivate c)
       (default EmptyString (ephemeralPub msg)) = Some plain)
  ∨ (¬ (2 ≤ v msg ∧ truthyS (ephemeralPub msg) = true)
     ∧ ∃ grant, getGrantForPeer (from msg) gs = Some grant
                ∧ truthyS (peerEncryptPub grant) = true
                ∧ decryptMessage E body
                    (default EmptyString (peerEncryptPub grant))
                  = Some plain).


End Engine.

End P2P.

(* ===================================================================== *)
(** * trust.ts: the other operations of the trust store                   *)
(* ===================================================================== *)

Module TrustOps.
Import Trust P2P.

(** Modelled from the spec: the interface [InviteRecord] of [types.ts],
    which is not among the sources, with the fields [recordInvite] and
    [markInviteClaimed] write. *)
Record InviteRecord := mkInvite {
  inv_token : string;
  inv_peerKey : string;
  inv_sessions : list string;
  inv_created : Z;
  inv_expires : Z;
  claimedAt : option Z;
  claimedBy : option string
}.

Definition withName (name : option string) (p : Peer) : Peer :=
  mkPeer (p_id p) name (p_publicKey p) (p_encryptPub p) (p_sessions p)
         (p_caps p) (p_added p) (p_keyHistory p).

(** [namePeer]: the new list of peers, or the message of the error it
    throws. *)
Definition namePeer (idOrKey name : string) (ps : list Peer)
  : string + list Peer :=
  match list_find (λ p, p_id p = idOrKey ∨ p_publicKey p = idOrKey) ps with
  | None => inl ("Peer not found: " +:+ idOrKey)
  | Some (i, peer) => inr (<[i := withName (Some name) peer]> ps)
  end.

(** [addPeer]; the peer it returns and the new list of peers. *)
Definition addPeer (shortKey : string → string) (now : Z) (key : string)
    (ses cap : list string) (encPub : option string) (ps : list Peer)
  : Peer * list Peer :=
  match list_find (λ p, p_publicKey p = key) ps with
  | Some (i, existing) =>
      let updated :=
        mkPeer (p_id existing) (p_name existing) (p_publicKey existing)
          (if truthyS encPub then encPub else p_encryptPub existing)
          (uniq (p_sessions existing ++ ses))
          (uniq (p_caps existing ++ cap))
          (p_added existing) (p_keyHistory existing) in
      (updated, <[i := updated]> ps)
  | None =>
      let peer := mkPeer (shortKey key) None key encPub ses cap now None in
      (peer, ps ++ [peer])
  end.

(** [recordInvite]'s and [removeInvite]'s test on the token string. *)
Definition sameToken (tokenStr : string) (i : InviteRecord) : Prop :=
  inv_token i = tokenStr.

#[global] Instance sameToken_dec tokenStr i : Decision (sameToken tokenStr i).
Proof. unfold sameToken. apply _. Defined.

#[global] Typeclasses Opaque sameToken.

(** [markInviteClaimed] *)
Definition markInviteClaimed (now : Z) (tokenStr by_ : string)
    (invites : list InviteRecord) : list InviteRecord :=
  match list_find (sameToken tokenStr) invites with
  | None => invites
  | Some (i, invite) =>
      if negb (truthyZ (claimedAt invite))
      then <[i := mkInvite (inv_token invite) (inv_peerKey invite)
                     (inv_sessions invite) (inv_created invite)
                     (inv_expires invite) (Some now) (Some by_)]> invites
      else invites
  end.

(** [removeInvite]: the new list of invites, or the message of the error
    it throws. *)
Definition removeInvite (tokenStr : string) (invites : list InviteRecord)
  : string + list InviteRecord :=
  let remaining := filter (λ i, ¬ sameToken tokenStr i) invites in
  if bool_decide (length remaining = length invites)
  then inl "Invite not found"
  else inr remaining.

(** The test of [cleanupExpiredKeyHistory] on a history entry:
    [!h.validUntil || h.validUntil > now]. *)
Definition unexpired (now : Z) (h : KeyHistory) : Prop :=
  validUntil h = 0 ∨ now < validUntil h.

#[global] Instance unexpired_dec now h : Decision (unexpired now h).
Proof. unfold unexpired. apply _. Defined.

#[global] Typeclasses Opaque unexpired.

Definition cleanGrant (now : Z) (g : AccessGrant) : AccessGrant :=
  match keyHistory g with
  | None => g
  | Some hs =>
      mkGrant (g_id g) (peerKey g) (peerEncryptPub g) (sessions g) (caps g)
              (created g) (revoked g) (peerName g)
              (Some (filter (unexpired now) hs))
  end.

Definition cleanPeer (now : Z) (p : Peer) : Peer :=
  match p_keyHistory p with
  | None => p
  | Some hs =>
      mkPeer (p_id p) (p_name p) (p_publicKey p) (p_encryptPub p)
             (p_sessions p) (p_caps p) (p_added p)
             (Some (filter (unexpired now) hs))
  end.

(** [grant.keyHistory.length !== before] *)
Definition shrinks (now : Z) (o : option (list KeyHistory)) : bool :=
  match o with
  | None => false
  | Some hs => negb (bool_decide (length (filter (unexpired now) hs)
                                  = length hs))
  end.

(** [cleanupExpiredKeyHistory]: the two files are written only when
    some history lost an entry. *)
Definition cleanupExpiredKeyHistory (now : Z) (st : Store) : Store :=
  let modified :=
    existsb (λ g, shrinks now (keyHistory g)) (grants st)
    || existsb (λ p, shrinks now (p_keyHistory p)) (peers st) in
  if modified
  then mkStore (cleanGrant now <$> grants st) (cleanPeer now <$> peers st)
  else st.

(** The inner loop of [getAllPeerKeys]: push the keys of a history that
    are not listed yet. *)
Definition pushKeys (keys : list string) (hs : list KeyHistory)
  : list string :=
  foldl (λ keys h, if includes (publicKey h) keys then keys
                   else keys ++ [publicKey h]) keys hs.

(** [getAllPeerKeys] *)
Definition getAllPeerKeys (key : string) (st : Store) : list string :=
  let keys1 :=
    foldl (λ keys g,
             if bool_decide (peerKey g = key)
                && negb (noHistory (keyHistory g))
             then pushKeys keys (default [] (keyHistory g)) else keys)
          [key] (grants st) in
  foldl (λ keys p,
           if bool_decide (p_publicKey p = key)
              && negb (noHistory (p_keyHistory p))
           then pushKeys keys (default [] (p_keyHistory p)) else keys)
        keys1 (peers st).

Section WithIdentity.

(** From [identity.ts], which is not among the sources. *)
Variable shortKey : string → string.
Variable toLowerCase : string → string.
(** [parseInviteToken(str)] at time [now]: the token, or the text of the
    error it throws. *)
Variable parseInviteToken : Z → string → string + InviteToken.
(** The identity [initIdentity()] generates and stores. *)
Variable initIdentity : Identity.

(** The test of [forgetPeer] and [updatePeerAccess] on a peer. *)
Definition peerMatch (idOrName : string) (p : Peer) : bool :=
  bool_decide (p_id p = idOrName)
  || bool_decide (p_publicKey p = idOrName)
  || sameName toLowerCase (p_name p) idOrName.

(** [forgetPeer]: the new list of peers, or the message of the error it
    throws. *)
Definition forgetPeer (idOrName : string) (ps : list Peer)
  : string + list Peer :=
  let remaining := filter (λ p, peerMatch idOrName p = false) ps in
  if bool_decide (length remaining = length ps)
  then inl ("Peer not found: " +:+ idOrName)
  else inr remaining.

(** [updatePeerAccess]: the peer it returns and the new list of peers, or
    the message of the error it throws. *)
Definition updatePeerAccess (idOrName : string) (ses : list string)
    (cap : option (list string)) (ps : list Peer)
  : string + Peer * list Peer :=
  match list_find (λ p, peerMatch idOrName p = true) ps with
  | None => inl ("Peer not found: " +:+ idOrName)
  | Some (i, peer) =>
      let updated :=
        mkPeer (p_id peer) (p_name peer) (p_publicKey peer)
               (p_encryptPub peer) ses (default (p_caps peer) cap)
               (p_added peer) (p_keyHistory peer) in
      inr (updated, <[i := updated]> ps)
  end.

(** [updateAccessGrant]: the grant it returns and the new list of grants,
    or the message of the error it throws. *)
Definition updateAccessGrant (idOrName : string) (ses : list string)
    (cap : option (list string)) (gs : list AccessGrant)
  : string + AccessGrant * list AccessGrant :=
  match list_find (λ g, activeMatch shortKey toLowerCase idOrName g = true)
                  gs with
  | None => inl ("No active grant found for " +:+ quoted idOrName)
  | Some (i, grant) =>
      let updated :=
        mkGrant (g_id grant) (peerKey grant) (peerEncryptPub grant) ses
                (default (caps grant) cap) (created grant) (revoked grant)
                (peerName grant) (keyHistory grant) in
      inr (updated, <[i := updated]> gs)
  end.

(** [useInvite]: the peer it returns, the new list of peers and the
    identity store, or the text of the error [parseInviteToken] throws. *)
Definition useInvite (now : Z) (tokenStr : string)
    (identity : option Identity) (ps : list Peer)
  : string + Peer * list Peer * option Identity :=
  match parseInviteToken now tokenStr with
  | inl err => inl err
  | inr tok =>
      (* Ensure we have identity *)
      let identity1 :=
        match identity with
        | Some i => Some i
        | None => Some initIdentity
        end in
      match list_find (λ p, p_publicKey p = iss tok) ps with
      | Some (i, existing) =>
          let updated :=
            mkPeer (p_id existing) (p_name existing) (p_publicKey existing)
              (p_encryptPub existing)
              (uniq (p_sessions existing ++ ses tok))
              (uniq (p_caps existing ++ cap tok))
              (p_added existing) (p_keyHistory existing) in
          inr (updated, <[i := updated]> ps, identity1)
      | None =>
          let peer := mkPeer (shortKey (iss tok)) None (iss tok) None
                        (ses tok) (cap tok) now None in
          inr (peer, ps ++ [peer], identity1)
      end
  end.

(** [recordInvite]: the record it returns and the new list of invites,
    or the text of the error [parseInviteToken] throws. *)
Definition recordInvite (now : Z) (tokenStr : string)
    (invites : list InviteRecord)
  : string + InviteRecord * list InviteRecord :=
  match parseInviteToken now tokenStr with
  | inl err => inl err
  | inr tok =>
      match list_find (sameToken tokenStr) invites with
      | Some (_, existing) => inr (existing, invites)
      | None =>
          let record := mkInvite tokenStr (sub tok) (ses tok) now (exp tok)
                          None None in
          inr (record, invites ++ [record])
      end
  end.

End WithIdentity.

(** ** Vocabulary of the statements about these operations *)

(** A grant that authorises [k] for [s] through its current key. *)
Definition currentGrant (k s : string) (g : AccessGrant) : Prop :=
  revoked g ≠ Some true
  ∧ "inject" ∈ caps g
  ∧ ("*" ∈ sessions g ∨ s ∈ sessions g)
  ∧ peerKey g = k.

(** A non-revoked grant whose current key is [k]. *)
Definition activeFor (k : string) (g : AccessGrant) : Prop :=
  peerKey g = k ∧ isRevoked g = false.

#[global] Instance activeFor_dec k g : Decision (activeFor k g).
Proof. unfold activeFor. apply _. Defined.

#[global] Typeclasses Opaque activeFor.

(** At most one non-revoked grant per peer key. *)
Definition activeUnique (gs : list AccessGrant) : Prop :=
  ∀ k, (length (filter (activeFor k) gs) ≤ 1)%nat.

(** No grant lists [k] in its key history. *)
Definition noHistoryOf (k : string) (gs : list AccessGrant) : Prop :=
  ∀ g hs h, g ∈ gs → keyHistory g = Some hs → h ∈ hs → publicKey h ≠ k.

(** No peer lists [k] in its key history. *)
Definition noPeerHistoryOf (k : string) (ps : list Peer) : Prop :=
  ∀ p hs h, p ∈ ps → p_keyHistory p = Some hs → h ∈ hs → publicKey h ≠ k.

End TrustOps.

(* ===================================================================== *)
(** * Concrete stores, frames and externals for the examples              *)
(* ===================================================================== *)

Module Examples.
Import Trust P2P.

(** The limits of the counterexample: a window longer than the block. *)
Definition shortBlock : RateLimit.RateLimits :=
  let c := RateLimit.mkConfig 100 1 10 in RateLimit.mkLimits c c c c.

(** The limiter after [check] at time 0 (allowed) and at time 1 (refused:
    blocked until 11). *)
Definition afterTwo : RateLimit.Limiter :=
  (RateLimit.check shortBlock 1 "p" RateLimit.injects
     (RateLimit.check shortBlock 0 "p" RateLimit.injects ∅).2).2.

(** The nonces "n0", "n1", ... *)
Definition names (k : nat) : list string :=
  (λ i : nat, "n" +:+ pretty i) <$> seq 0%nat k.

(** A protector with the default bounds that holds ten thousand nonces,
    each recorded with the timestamp 0. *)
Definition full : Replay.ReplayProtector :=
  Replay.mkRP (Replay.recordAll (names (Z.to_nat 10000)) ∅) 300000 30000.

(** ASCII lower-casing: [toLowerCase] on the names used below. *)
Fixpoint asciiLower (s : string) : string :=
  match s with
  | EmptyString => EmptyString
  | String c rest =>
      let n := Ascii.nat_of_ascii c in
      String (if bool_decide (65 ≤ n ≤ 90)%nat
              then Ascii.ascii_of_nat (n + 32) else c) (asciiLower rest)
  end.

(** The claim frame [who] sends for the token string [tok]. *)
Definition claimBy (who tok : string) : P2PMessage :=
  mkMsg 2 "claim" who ("nonce-of-" +:+ tok) 1000 ("sig-" +:+ who) None None
        None (Some tok) (Some ("enc-" +:+ who)) None None None None.

(** A token of issuer [issuer] made out to [subject], for the session
    "dev" and the capability "inject", that expires at 5000. *)
Definition tokenOf (issuer subject : string) : InviteToken :=
  mkToken issuer subject ["dev"] ["inject"] 0 5000 "token-nonce"
          ("sig-" +:+ issuer).

(** The token strings of the examples and the tokens they encode. *)
Definition demoTokens : list (string * InviteToken) :=
  [("token-X-A", tokenOf "X" "A");
   ("token-R-A", tokenOf "R" "A");
   ("token-R-B", tokenOf "R" "B")].

(** The lines of the examples and the frames they are the JSON text of. *)
Definition demoFrames : list (string * P2PMessage) :=
  [("B claims token-X-A", claimBy "B" "token-X-A");
   ("B claims token-R-A", claimBy "B" "token-R-A");
   ("B claims token-R-B", claimBy "B" "token-R-B")].

Definition assoc {A} (k : string) (l : list (string * A)) : option A :=
  (λ r, r.2.2) <$> list_find (λ kv, kv.1 = k) l.

(** Externals in which every line but those of [demoFrames] fails to
    parse, every signature verifies, and a token parses when it is one of
    [demoTokens] and has not expired. *)
Definition demo : Externals :=
  {| parseJSON := λ ln, assoc ln demoFrames;
     verifySignature := λ _ _, true;
     parseInviteToken := λ now str,
       match assoc str demoTokens with
       | Some t => if bool_decide (now < exp t) then inr t
                   else inl "Error: Token expired"
       | None => inl "Error: Invalid token"
       end;
     verifyKeyRotation := λ _, true;
     shortKey := λ k, k;
     getTopic := λ k, k;
     toLowerCase := asciiLower;
     decryptWithEphemeral := λ body _ _, Some body;
     decryptMessage := λ body _, Some body;
     onInject := λ _ _ _, true |}.

Definition responder : Identity := mkIdentity "R" "enc-R".

Definition world0 : World :=
  mkWorld ∅ (Replay.create None None) (mkStore [] []).

Definition conn0 : Conn :=
  mkConn "" true "eph-pub" "eph-priv" None (Some (Qc_of_Z 2)).

Definition line (s : string) : string := s +:+ String newline EmptyString.

(** The grants of the C10 example: the grant of "B", revoked. *)
Definition grantOfB : AccessGrant :=
  mkGrant "grant-7" "B" (Some "enc-B") ["dev"] ["inject"] 7 None None None.


End Examples.

(** Further stores, frames and externals for the examples. *)
Module MoreExamples.
Import Trust P2P TrustOps Examples.





(** The rotation of the key "K" to "K2", effective at 1000 with a grace
    period of 500. *)
Definition rotationK : KeyRotation :=
  mkRotation "K" "K2" "E2" "scheduled" 1000 500 "sig".

Definition grantOfK : AccessGrant :=
  mkGrant "grant-1" "K" (Some "E1") ["dev"] ["inject"] 1 None None None.

(** A grant whose key was rotated from "OLD" to "NEW", the old key being
    valid until 100. *)
Definition grantRotated : AccessGrant :=
  mkGrant "grant-1" "NEW" (Some "enc-new") ["dev"] ["inject"] 1 None None
          (Some [mkHistory "OLD" "enc-old" 1 100 "scheduled"]).

Definition peerBob : Peer :=
  mkPeer "B" (Some "Bob") "B" (Some "enc-B") ["dev"] ["inject"] 1 None.

Definition inviteT : InviteRecord :=
  mkInvite "t" "A" ["dev"] 1 5000 None None.





End MoreExamples.

(* ===================================================================== *)
(** * Properties of the rate limiter                                      *)
(* ===================================================================== *)

Module RateLimitFacts.
Import RateLimit.

Lemma limitName_inj c1 c2 : limitName c1 = limitName c2 → c1 = c2.
Proof. by destruct c1, c2. Qed.

Lemma stateOf_getState p c m :
  (getState p (limitName c) m).2 = stateOf p c m.
Proof.
  unfold getState, stateOf. simpl.
  destruct (m !! p) as [ps|] eqn:Hp; simpl.
  - rewrite Hp. simpl. destruct (ps !! limitName c) eqn:Hc; simpl.
    + by rewrite Hc.
    + by rewrite lookup_insert_eq.
  - rewrite lookup_insert_eq. simpl. rewrite lookup_empty.
    by rewrite lookup_insert_eq.
Qed.

Lemma stateOf_getState_store p c q d m :
  stateOf q d (getState p (limitName c) m).1 = stateOf q d m.
Proof.
  unfold getState, stateOf. simpl.
  destruct (decide (p = q)) as [->|Hpq].
  - rewrite lookup_insert_eq. simpl.
    destruct (m !! q) as [ps|] eqn:Hp; simpl.
    + rewrite Hp. simpl. destruct (ps !! limitName c) eqn:Hc; [done|].
      destruct (decide (limitName c = limitName d)) as [He|Hne].
      * rewrite <- He. rewrite lookup_insert_eq. by rewrite Hc.
      * by rewrite lookup_insert_ne.
    + rewrite lookup_insert_eq. simpl. rewrite lookup_empty.
      destruct (decide (limitName c = limitName d)) as [He|Hne].
      * rewrite <- He. by rewrite lookup_insert_eq.
      * by rewrite lookup_insert_ne.
  - rewrite lookup_insert_ne by done.
    destruct (m !! p); [done|]. by rewrite lookup_insert_ne.
Qed.

Lemma stateOf_setState_eq p c s m :
  stateOf p c (setState p (limitName c) s m) = s.
Proof.
  unfold setState, stateOf. rewrite lookup_insert_eq. simpl.
  by rewrite lookup_insert_eq.
Qed.

Lemma stateOf_setState_ne p c q d s m :
  (p, c) ≠ (q, d) →
  stateOf q d (setState p (limitName c) s m) = stateOf q d m.
Proof.
  intros Hne. unfold setState, stateOf.
  destruct (decide (p = q)) as [->|Hpq].
  - rewrite lookup_insert_eq. simpl.
    rewrite lookup_insert_ne.
    + by destruct (m !! q).
    + intros He. apply limitName_inj in He. congruence.
  - by rewrite lookup_insert_ne.
Qed.

(** [check] acts on the state of its own pair as [check_step]. *)
Lemma check_as_step limits now p c m :
  (check limits now p c m).1
    = (check_step (limitOf limits c) now (stateOf p c m)).1
  ∧ stateOf p c (check limits now p c m).2
    = (check_step (limitOf limits c) now (stateOf p c m)).2.
Proof.
  unfold check, check_step.
  pose proof (stateOf_getState p c m) as Hs.
  pose proof (stateOf_getState_store p c p c m) as Hm.
  destruct (getState p (limitName c) m) as [m1 st]. simpl in Hs, Hm.
  subst st.
  destruct (blockedNow now (stateOf p c m)); simpl; [done|].
  case_bool_decide; simpl; by rewrite stateOf_setState_eq.
Qed.

(** [check] leaves the state of every other pair as it was. *)
Lemma check_frame limits now p c q d m :
  (p, c) ≠ (q, d) →
  stateOf q d (check limits now p c m).2 = stateOf q d m.
Proof.
  intros Hne. unfold check.
  pose proof (stateOf_getState_store p c q d m) as Hm.
  destruct (getState p (limitName c) m) as [m1 st]. simpl in Hm.
  destruct (blockedNow now st); simpl; [done|].
  case_bool_decide; simpl; by rewrite stateOf_setState_ne.
Qed.

End RateLimitFacts.

Module RateLimitTheorems.
Import RateLimit RateLimitFacts Examples.

Lemma blockedNow_true now s :
  blockedNow now s = true ↔ ∃ B, blockedUntil s = Some B ∧ B ≠ 0 ∧ now < B.
Proof.
  unfold blockedNow, truthyZ. destruct (blockedUntil s) as [b|]; simpl.
  - rewrite andb_true_iff, !bool_decide_eq_true. split.
    + intros [? ?]. by exists b.
    + intros (B & [= <-] & ? & ?). done.
  - split; [done|]. by intros (B & ? & _).
Qed.

Lemma blockExpired_true now s :
  blockExpired now s = true ↔ ∃ B, blockedUntil s = Some B ∧ B ≠ 0 ∧ B ≤ now.
Proof.
  unfold blockExpired, truthyZ. destruct (blockedUntil s) as [b|]; simpl.
  - rewrite andb_true_iff, !bool_decide_eq_true. split.
    + intros [? ?]. by exists b.
    + intros (B & [= <-] & ? & ?). done.
  - split; [done|]. by intros (B & ? & _).
Qed.

(** Without an expired block the code and the specification's wording
    agree. *)
Lemma check_step_spec_agree config now s :
  blockExpired now s = false →
  check_step config now s = check_spec config now s.
Proof. intros He. unfold check_step, check_spec. by rewrite He. Qed.



(** A block that is in force stays as it is over any sequence of calls
    in which the calls for [(p, c)] come before it expires. *)
Lemma run_blocked limits p c B calls :
  ∀ (m1 : Limiter) rs m2,
  blockedUntil (stateOf p c m1) = Some B →
  (∀ t, (t, p, c) ∈ calls → 0 ≤ t < B) →
  run limits calls m1 = (rs, m2) →
  (∀ (i : nat) t, calls !! i = Some (t, p, c) → rs !! i = Some false)
  ∧ blockedUntil (stateOf p c m2) = Some B.
Proof.
  induction calls as [|[[t q] d] rest IH]; intros m1 rs m2 HB Ht Hrun.
  - simpl in Hrun. injection Hrun as <- <-. split; [|done].
    intros i t Hi. by rewrite lookup_nil in Hi.
  - simpl in Hrun.
    destruct (check limits t q d m1) as [r m'] eqn:Hc.
    destruct (run limits rest m') as [rs' m''] eqn:Hr.
    injection Hrun as <- <-.
    assert (blockedUntil (stateOf p c m') = Some B
            ∧ ((q, d) = (p, c) → r = false)) as [HB' Hres].
    { destruct (decide ((q, d) = (p, c))) as [[= -> ->]|Hne].
      - assert (0 ≤ t < B) as Hlt by (apply Ht; left).
        destruct (check_as_step limits t p c m1) as [H1 H2].
        rewrite Hc in H1, H2. simpl in H1, H2. unfold check_step in H1, H2.
        assert (blockedNow t (stateOf p c m1) = true) as Hb.
        { apply blockedNow_true. exists B. repeat split; [done|lia..]. }
        rewrite Hb in H1, H2. simpl in H1, H2. by rewrite H1, H2.
      - split; [|done].
        pose proof (check_frame limits t q d p c m1 Hne) as Hf.
        rewrite Hc in Hf. simpl in Hf. by rewrite Hf. }
    destruct (IH m' rs' m'' HB') as [IH1 IH2]; [|done|].
    { intros t' Hin. apply Ht. by right. }
    split; [|done].
    intros [|i] t' Hi; simpl in *.
    + injection Hi as -> -> ->. by rewrite Hres.
    + by eapply IH1.
Qed.

(** C5.  Once [check(p, c)] has answered false with [blockedUntil = B],
    every later [check(p, c)] made at a time before [B] answers false,
    whatever calls for other peers or classes come in between, and
    [blockedUntil] is still [B] afterwards. *)
Theorem block_not_reset limits t0 p c (m m1 m2 : Limiter) B calls rs :
  check limits t0 p c m = (false, m1) →
  blockedUntil (stateOf p c m1) = Some B →
  (∀ t, (t, p, c) ∈ calls → 0 ≤ t < B) →
  run limits calls m1 = (rs, m2) →
  (∀ (i : nat) t, calls !! i = Some (t, p, c) → rs !! i = Some false)
  ∧ blockedUntil (stateOf p c m2) = Some B.
Proof. intros _. apply run_blocked. Qed.

(** C5 at work: blocked at time 1 until 11, "p" is refused at 2 and at
    10, a call for "q" in between is served, and the block still ends at
    11. *)
Lemma block_not_reset_witness :
  let calls := [(2, "p", injects); (5, "q", injects); (10, "p", injects)] in
  (run shortBlock calls afterTwo).1 = [false; true; false]
  ∧ (∀ (i : nat) t, calls !! i = Some (t, "p", injects) →
       (run shortBlock calls afterTwo).1 !! i = Some false)
  ∧ blockedUntil (stateOf "p" injects (run shortBlock calls afterTwo).2)
    = Some 11.
Proof.
  split; [by vm_compute|].
  apply (block_not_reset shortBlock 1 "p" injects
           (check shortBlock 0 "p" injects ∅).2 afterTwo).
  - by vm_compute.
  - by vm_compute.
  - intros t Hin. rewrite !elem_of_cons, elem_of_nil in Hin.
    destruct Hin as [[= ->]|[[=]|[[= ->]|[]]]]; lia.
  - apply surjective_pairing.
Defined.

End RateLimitTheorems.

(* ===================================================================== *)
(** * Properties of the replay protector                                  *)
(* ===================================================================== *)

Module ReplayFacts.
Import Replay.

Lemma check_config now later n ts rp :
  maxAgeMs (check now later n ts rp).2 = maxAgeMs rp
  ∧ maxClockSkewMs (check now later n ts rp).2 = maxClockSkewMs rp.
Proof.
  unfold check. repeat case_bool_decide; done.
Qed.

(** What [check] answers and leaves for a nonce it accepts. *)
Lemma check_accept now later n ts rp :
  ¬ ts < now - maxAgeMs rp →
  ¬ now + maxClockSkewMs rp < ts →
  seenNonces rp !! n = None →
  check now later n ts rp
  = (true,
     let rp1 := mkRP (<[n := ts]> (seenNonces rp)) (maxAgeMs rp)
                     (maxClockSkewMs rp) in
     if bool_decide (10000 < Z.of_nat (size (seenNonces rp1)))
     then cleanup later rp1 else rp1).
Proof.
  intros Hold Hnew Hfresh. unfold check.
  rewrite (bool_decide_eq_false_2 (ts < _)) by done.
  rewrite (bool_decide_eq_false_2 (_ < ts)) by done.
  rewrite (bool_decide_eq_false_2 (is_Some _))
    by (rewrite Hfresh; by intros [? ?]).
  done.
Qed.

(** The store after [check] accepted a nonce: the store with the nonce
    recorded, less, when it then holds more than 10000 nonces, those
    recorded with a timestamp older than [later - maxAge]. *)
Lemma check_accept_store now later n ts rp k x :
  ¬ ts < now - maxAgeMs rp →
  ¬ now + maxClockSkewMs rp < ts →
  seenNonces rp !! n = None →
  seenNonces (check now later n ts rp).2 !! k = Some x
  ↔ <[n := ts]> (seenNonces rp) !! k = Some x
    ∧ (10000 < Z.of_nat (size (<[n := ts]> (seenNonces rp))) →
       ¬ x < later - maxAgeMs rp).
Proof.
  intros Hold Hnew Hfresh. rewrite check_accept by done. simpl.
  case_bool_decide as Hsize; simpl.
  - rewrite map_lookup_filter_Some. simpl. split.
    + intros [? ?]. done.
    + intros [? Hx]. split; [done|]. by apply Hx.
  - split; [|by intros [? _]]. intros ?. done.
Qed.

(** A nonce that is in the store is refused, at any time and with any
    timestamp. *)
Lemma check_seen now later n ts rp :
  is_Some (seenNonces rp !! n) → check now later n ts rp = (false, rp).
Proof.
  intros Hs. unfold check. repeat case_bool_decide; done.
Qed.

Lemma check_guarded n ts t t' l' n' ts' rp :
  guarded n ts t rp → t ≤ t' → t' ≤ l' →
  guarded n ts l' (check t' l' n' ts' rp).2.
Proof.
  intros [Hin|Hold] Hle Hle'; unfold guarded.
  - unfold check. repeat case_bool_decide; simpl; try by left.
    + assert (n' ≠ n) as Hne.
      { intros ->. rewrite Hin in *. naive_solver. }
      destruct (decide (ts < l' - maxAgeMs rp)) as [Hlt|Hge]; [by right|].
      left. apply map_lookup_filter_Some.
      split; [by rewrite lookup_insert_ne|done].
    + assert (n' ≠ n) as Hne.
      { intros ->. rewrite Hin in *. naive_solver. }
      left. by rewrite lookup_insert_ne.
  - right. destruct (check_config t' l' n' ts' rp) as [-> _]. lia.
Qed.

(** An accepted nonce is guarded from the time the call returns: it is
    recorded, or the cleanup of the same call evicted it because its
    timestamp was by then too old. *)
Lemma check_accept_guarded now later n ts rp :
  ¬ ts < now - maxAgeMs rp →
  ¬ now + maxClockSkewMs rp < ts →
  seenNonces rp !! n = None →
  guarded n ts later (check now later n ts rp).2.
Proof.
  intros Hold Hnew Hfresh. unfold guarded.
  destruct (check_config now later n ts rp) as [-> _].
  destruct (decide (ts < later - maxAgeMs rp)) as [Hlt|Hge]; [by right|].
  left. apply check_accept_store; [done..|].
  split; [by rewrite lookup_insert_eq|done].
Qed.

Lemma guarded_refused n ts t t' l' rp :
  guarded n ts t rp → t ≤ t' → (check t' l' n ts rp).1 = false.
Proof.
  intros [Hin|Hold] Hle.
  - by rewrite check_seen.
  - unfold check. rewrite bool_decide_eq_true_2; [done|lia].
Qed.

Lemma run_guarded n ts calls :
  ∀ t rp rs rp2,
  guarded n ts t rp → clockFrom t calls → run calls rp = (rs, rp2) →
  ∀ (i : nat) t' l', calls !! i = Some (t', l', n, ts) → rs !! i = Some false.
Proof.
  induction calls as [|[[[t1 l1] n1] ts1] rest IH];
    intros t rp rs rp2 Hg Hclk Hrun.
  - intros i t' l' Hi. by rewrite lookup_nil in Hi.
  - simpl in Hrun, Hclk. destruct Hclk as (Hle & Hle' & Hclk).
    destruct (check t1 l1 n1 ts1 rp) as [r rp1] eqn:Hc.
    destruct (run rest rp1) as [rs' rp'] eqn:Hr.
    injection Hrun as <- <-.
    intros [|i] t' l' Hi; simpl in *.
    + injection Hi as -> -> -> ->.
      pose proof (guarded_refused n ts t t' l' rp Hg Hle) as Hg'.
      rewrite Hc in Hg'. simpl in Hg'. by rewrite Hg'.
    + eapply IH; [|exact Hclk|exact Hr|exact Hi].
      pose proof (check_guarded n ts t t1 l1 n1 ts1 rp Hg Hle Hle') as Hg'.
      by rewrite Hc in Hg'.
Qed.

(** Presenting fresh nonces with the timestamp 0 at time 0 records all of
    them: whether or not the cleanup runs, no recorded timestamp is older
    than [0 - maxAge]. *)
Lemma run_presentAll l :
  ∀ rp,
  NoDup l →
  (∀ n, n ∈ l → seenNonces rp !! n = None) →
  (∀ k x, seenNonces rp !! k = Some x → ¬ x < 0 - maxAgeMs rp) →
  0 ≤ maxAgeMs rp → 0 ≤ maxClockSkewMs rp →
  run (presentAll l) rp
  = (replicate (length l) true,
     mkRP (recordAll l (seenNonces rp)) (maxAgeMs rp) (maxClockSkewMs rp)).
Proof.
  induction l as [|n l IH]; intros rp Hnd Hfresh Hold Hage Hskew.
  - by destruct rp.
  - apply NoDup_cons in Hnd as [Hn Hnd].
    assert (check 0 0 n 0 rp
            = (true, mkRP (<[n := 0]> (seenNonces rp)) (maxAgeMs rp)
                          (maxClockSkewMs rp))) as Hc.
    { rewrite check_accept; [|lia|lia|apply Hfresh; left].
      simpl. case_bool_decide; [|done]. unfold cleanup. simpl.
      rewrite map_filter_id; [done|]. intros k x Hk. simpl.
      apply lookup_insert_Some in Hk as [[_ <-]|[_ Hk]]; [lia|by eapply Hold]. }
    change (presentAll (n :: l)) with ((0, 0, n, 0) :: presentAll l).
    cbn [run]. rewrite Hc. rewrite IH; [done|done| | |done..]; simpl.
    + intros n' Hn'. rewrite lookup_insert_ne by (by intros ->).
      apply Hfresh. by right.
    + intros k x Hk.
      apply lookup_insert_Some in Hk as [[_ <-]|[_ Hk]]; [lia|by eapply Hold].
Qed.

End ReplayFacts.

Module ReplayTheorems.
Import Replay ReplayFacts Examples.

Lemma names_NoDup k : NoDup (names k).
Proof.
  unfold names. apply NoDup_fmap_2_strong; [|apply NoDup_seq].
  intros i j _ _ Hij.
  assert (pretty i = pretty j) as Hp by (by injection Hij).
  by apply pretty_nat_inj.
Qed.

(** [full] is the protector after ten thousand frames with distinct
    nonces were accepted at time 0. *)
Lemma full_reached :
  run (presentAll (names (Z.to_nat 10000))) (create None None)
  = (replicate (length (names (Z.to_nat 10000))) true, full).
Proof.
  rewrite run_presentAll; [done|apply names_NoDup|done|done|done|done].
Qed.

(** C3, counterexample.  The protector holds the ten thousand nonces of
    [full].  At [t0 = 300000] the frame with nonce "f" and
    timestamp 0 is accepted.  One millisecond later a frame with nonce
    "g" is accepted; more than 10000 nonces are held, so the cleanup
    runs and evicts every nonce recorded with a timestamp below 1,
    among them "f".  The nonce "f" is then presented again with the
    timestamp 1, inside [t0 - maxAge, t0 + maxSkew] = [0, 330000], and is
    accepted. *)
Lemma resend_accepted_after_cleanup :
  let step1 := check 300000 300000 "f" 0 full in
  let step2 := check 300001 300001 "g" 300001 step1.2 in
  let step3 := check 300001 300001 "f" 1 step2.2 in
  (run (presentAll (names (Z.to_nat 10000))) (create None None)).2 = full
  ∧ step1.1 = true ∧ step2.1 = true ∧ step3.1 = true.
Proof. split; [by rewrite full_reached|]. vm_compute. done. Qed.

(** C3, a second counterexample.  The clock ticks between the two
    readings of one call: at 300000 the frame with nonce "f" and
    timestamp 0 passes the age test; the cleanup of the same call runs
    at 300001 and evicts every nonce recorded with a timestamp below 1,
    "f" among them.  The call answers true and "f" is not recorded: the
    same nonce with the timestamp 1 is accepted next. *)
Lemma accepted_nonce_evicted_by_own_call :
  let step1 := check 300000 300001 "f" 0 full in
  let step2 := check 300001 300001 "f" 1 step1.2 in
  step1.1 = true
  ∧ seenNonces step1.2 !! "f" = None
  ∧ step2.1 = true.
Proof. vm_compute. done. Qed.

(** C3, as amended.  With the default bounds [maxAge] = 5 minutes and
    [maxSkew] = 30 seconds: [check(n, ts)] answers false, changing
    nothing, if [ts < now - maxAge], if [ts > now + maxSkew], or if [n] is
    recorded.  Otherwise it answers true and records [n] with [ts]; when
    at most 10000 nonces are then held, the store is exactly the old one
    with [n] added; when more are held, [cleanup] reads the clock again
    ([later]) and the store keeps exactly the nonces, [n] included, whose
    timestamp is not older than [later - maxAge].  So [n] is recorded
    unless just evicted, and as long as it is recorded it is refused
    whatever the time and timestamp; and, the clock not running
    backwards, the same nonce with the same timestamp is refused on every
    later presentation, whatever calls come in between. *)
Theorem check_replay now later n ts rp :
  let r := check now later n ts rp in
  let recorded := <[n := ts]> (seenNonces rp) in
  maxAgeMs (create None None) = 300000
  ∧ maxClockSkewMs (create None None) = 30000
  ∧ (ts < now - maxAgeMs rp → r = (false, rp))
  ∧ (now + maxClockSkewMs rp < ts → r = (false, rp))
  ∧ (is_Some (seenNonces rp !! n) → r = (false, rp))
  ∧ (¬ ts < now - maxAgeMs rp → ¬ now + maxClockSkewMs rp < ts →
     seenNonces rp !! n = None →
     r.1 = true
     ∧ maxAgeMs r.2 = maxAgeMs rp
     ∧ maxClockSkewMs r.2 = maxClockSkewMs rp
     ∧ (Z.of_nat (size recorded) ≤ 10000 → seenNonces r.2 = recorded)
     ∧ (10000 < Z.of_nat (size recorded) →
        ∀ k x, seenNonces r.2 !! k = Some x
               ↔ recorded !! k = Some x ∧ ¬ x < later - maxAgeMs rp)
     ∧ (¬ ts < later - maxAgeMs rp → seenNonces r.2 !! n = Some ts)
     ∧ (is_Some (seenNonces r.2 !! n) →
        ∀ t' l' ts', check t' l' n ts' r.2 = (false, r.2))
     ∧ (now ≤ later →
        ∀ calls rs rp2,
          clockFrom later calls → run calls r.2 = (rs, rp2) →
          ∀ (i : nat) t' l', calls !! i = Some (t', l', n, ts) →
                             rs !! i = Some false)).
Proof.
  intros r recorded. split; [done|]. split; [done|].
  split; [|split; [|split; [|intros Hold Hnew Hfresh]]].
  - intros H. unfold r, check. by rewrite bool_decide_eq_true_2.
  - intros H. unfold r, check. case_bool_decide; [done|].
    by rewrite bool_decide_eq_true_2.
  - by apply check_seen.
  - split; [unfold r; by rewrite check_accept|].
    split; [apply check_config|]. split; [apply check_config|].
    split; [|split; [|split; [|split]]].
    + intros Hsize. unfold r. rewrite check_accept by done. simpl.
      rewrite bool_decide_eq_false_2; [done|]. fold recorded. lia.
    + intros Hsize k x. unfold r. rewrite check_accept_store by done.
      fold recorded. split; [intros [? Hx]; split; [done|by apply Hx]|].
      intros [? ?]. done.
    + intros Hkept. unfold r. apply check_accept_store; [done..|].
      split; [by rewrite lookup_insert_eq|done].
    + intros Hin t' l' ts'. by apply check_seen.
    + intros Hle calls rs rp2 Hclk Hrun i t' l' Hi.
      eapply (run_guarded n ts calls later); [|done..].
      by apply check_accept_guarded.
Qed.

End ReplayTheorems.

(* ===================================================================== *)
(** * Properties of the trust store                                       *)
(* ===================================================================== *)

Module ListFacts.

(** When at most one element satisfies [P] and the one [list_find]
    returns is replaced by an element that does not, nothing satisfies
    [P] any more. *)
Lemma list_find_after_update {A} (P : A → Prop) `{∀ x, Decision (P x)}
    (f : A → A) (l : list A) i x :
  (∀ y, P y → ¬ P (f y)) →
  (length (filter P l) ≤ 1)%nat →
  list_find P l = Some (i, x) →
  list_find P (<[i := f x]> l) = None.
Proof.
  intros Hf. revert i x.
  induction l as [|a l IH]; intros i x Hlen Hfind; [done|].
  cbn in Hfind. destruct (decide (P a)) as [Ha|Ha].
  - injection Hfind as <- <-.
    change (<[0%nat := f a]> (a :: l)) with (f a :: l).
    rewrite filter_cons_True in Hlen by done. simpl in Hlen.
    assert (filter P l = []) as Hnil.
    { destruct (filter P l); [done|simpl in Hlen; lia]. }
    apply list_find_None. constructor; [by apply Hf|].
    apply Forall_forall. intros y Hy Hp.
    assert (y ∈ filter P l) as Hin by by apply list_elem_of_filter.
    rewrite Hnil in Hin. by apply elem_of_nil in Hin.
  - rewrite filter_cons_False in Hlen by done.
    destruct (list_find P l) as [[j y]|] eqn:Hl; [|done].
    injection Hfind as <- <-.
    change (<[S j := f y]> (a :: l)) with (a :: <[j := f y]> l).
    apply list_find_None. constructor; [done|].
    apply (proj1 (list_find_None P _)). by apply IH.
Qed.

(** When at most one element satisfies [P], [list_find] returns it. *)
Lemma list_find_unique {A} (P : A → Prop) `{∀ x, Decision (P x)}
    (l : list A) (i : nat) x :
  (length (filter P l) ≤ 1)%nat →
  l !! i = Some x → P x →
  list_find P l = Some (i, x).
Proof.
  revert i. induction l as [|a l IH]; intros i Hlen Hi Hx; [done|].
  cbn. destruct (decide (P a)) as [Ha|Ha].
  - rewrite filter_cons_True in Hlen by done. simpl in Hlen.
    destruct i as [|i]; simpl in Hi; [by injection Hi as ->|].
    exfalso. assert (x ∈ filter P l) as Hin.
    { apply list_elem_of_filter. split; [done|].
      by eapply list_elem_of_lookup_2. }
    destruct (filter P l); [by apply elem_of_nil in Hin|simpl in Hlen; lia].
  - rewrite filter_cons_False in Hlen by done.
    destruct i as [|i]; simpl in Hi; [by injection Hi as ->|].
    by rewrite (IH i Hlen Hi Hx).
Qed.

End ListFacts.

Module TrustFacts.
Import Trust.

Lemma includes_true x l : includes x l = true ↔ x ∈ l.
Proof. unfold includes. apply bool_decide_eq_true. Qed.

Lemma sessionAllowed_true s l : sessionAllowed s l = true ↔ "*" ∈ l ∨ s ∈ l.
Proof.
  unfold sessionAllowed. by rewrite orb_true_iff, !includes_true.
Qed.

Lemma isRevoked_false g : isRevoked g = false ↔ revoked g ≠ Some true.
Proof.
  unfold isRevoked. destruct (revoked g) as [[|]|]; naive_solver.
Qed.

Lemma historyInGrace_true now k hs :
  historyInGrace now k hs = true
  ↔ ∃ h, h ∈ hs ∧ publicKey h = k ∧ validUntil h ≠ 0 ∧ now < validUntil h.
Proof.
  induction hs as [|h hs IH]; simpl.
  - split; [done|]. intros (h & Hin & _). by apply elem_of_nil in Hin.
  - destruct (bool_decide (publicKey h = k)
              && (bool_decide (validUntil h ≠ 0)
                  && bool_decide (now < validUntil h))) eqn:Hb.
    + split; [|done]. intros _.
      apply andb_true_iff in Hb as [Hk Hb].
      apply andb_true_iff in Hb as [Hv Hn].
      apply bool_decide_eq_true in Hk, Hv, Hn.
      exists h. split; [left|done].
    + rewrite IH. split.
      * intros (h' & Hin & Hrest). exists h'. split; [by right|done].
      * intros (h' & Hin & Hk & Hv & Hn).
        apply elem_of_cons in Hin as [->|Hin]; [|by exists h'].
        rewrite !bool_decide_eq_true_2 in Hb by done. done.
Qed.

Lemma historyAuthorized_true now k s gs :
  historyAuthorized now k s gs = true ↔ ∃ g, g ∈ gs ∧ graceGrant now k s g.
Proof.
  induction gs as [|g gs IH]; simpl.
  - split; [done|]. intros (g & Hin & _). by apply elem_of_nil in Hin.
  - assert (graceGrant now k s g
            ↔ isRevoked g || noHistory (keyHistory g) = false
              ∧ negb (includes "*" (sessions g))
                && negb (includes s (sessions g)) = false
              ∧ negb (includes "inject" (caps g)) = false
              ∧ historyInGrace now k (default [] (keyHistory g)) = true)
      as Hg.
    { unfold graceGrant.
      rewrite orb_false_iff, isRevoked_false, negb_false_iff, includes_true.
      rewrite historyInGrace_true.
      assert (negb (includes "*" (sessions g))
              && negb (includes s (sessions g)) = false
              ↔ "*" ∈ sessions g ∨ s ∈ sessions g) as ->.
      { rewrite <- negb_orb, negb_false_iff. apply sessionAllowed_true. }
      destruct (keyHistory g) as [hs|]; simpl.
      - split.
        + intros (Hr & Hc & Hs & hs' & h & [= <-] & Hh).
          repeat split; try done. by exists h.
        + intros ([Hr _] & Hs & Hc & h & Hh).
          repeat split; try done. by exists hs, h.
      - split.
        + intros (? & ? & ? & hs' & h & [=] & ?).
        + intros ([_ [=]] & _). }
    destruct (isRevoked g || noHistory (keyHistory g)) eqn:H1.
    { rewrite IH. split.
      - intros (g' & Hin & ?). exists g'. split; [by right|done].
      - intros (g' & Hin & Hgg). apply elem_of_cons in Hin as [->|Hin].
        + apply Hg in Hgg as [[=] _].
        + by exists g'. }
    destruct (negb (includes "*" (sessions g))
              && negb (includes s (sessions g))) eqn:H2.
    { rewrite IH. split.
      - intros (g' & Hin & ?). exists g'. split; [by right|done].
      - intros (g' & Hin & Hgg). apply elem_of_cons in Hin as [->|Hin].
        + apply Hg in Hgg as (_ & [=] & _).
        + by exists g'. }
    destruct (negb (includes "inject" (caps g))) eqn:H3.
    { rewrite IH. split.
      - intros (g' & Hin & ?). exists g'. split; [by right|done].
      - intros (g' & Hin & Hgg). apply elem_of_cons in Hin as [->|Hin].
        + apply Hg in Hgg as (_ & _ & [=] & _).
        + by exists g'. }
    destruct (historyInGrace now k (default [] (keyHistory g))) eqn:H4.
    { split; [|done]. intros _. exists g. split; [left|]. by apply Hg. }
    rewrite IH. split.
    + intros (g' & Hin & ?). exists g'. split; [by right|done].
    + intros (g' & Hin & Hgg). apply elem_of_cons in Hin as [->|Hin].
      * apply Hg in Hgg as (_ & _ & _ & [=]).
      * by exists g'.
Qed.

End TrustFacts.

Module TrustTheorems.
Import Trust TrustFacts.

Lemma isAuthorized_sound now k s gs :
  isAuthorized now k s gs = true → ∃ g, g ∈ gs ∧ authorises now k s g.
Proof.
  unfold isAuthorized.
  destruct (list_find _ gs) as [[i g]|] eqn:Hf.
  - intros _. apply list_find_Some in Hf as (Hi & (Hr & Hk & Hs & Hc) & _).
    exists g. split; [by eapply list_elem_of_lookup_2|].
    repeat split.
    + by apply isRevoked_false.
    + by apply includes_true.
    + by apply sessionAllowed_true.
    + by left.
  - intros Hh. apply historyAuthorized_true in Hh as (g & Hin & Hg).
    exists g. split; [done|].
    destruct Hg as (Hr & Hc & Hs & hs & h & Hhs & Hh & Hk & _ & Hn).
    repeat split; try done. right. by exists hs, h.
Qed.

Lemma isAuthorized_complete now k s gs g :
  0 ≤ now → g ∈ gs → authorises now k s g → isAuthorized now k s gs = true.
Proof.
  intros Hnow Hin (Hr & Hc & Hs & Hkey). unfold isAuthorized.
  destruct (list_find _ gs) as [[i g']|] eqn:Hf; [done|].
  destruct Hkey as [Hk|(hs & h & Hhs & Hh & Hk & Hn)].
  - exfalso. apply list_find_None in Hf.
    rewrite Forall_forall in Hf. apply (Hf g Hin).
    repeat split; try done.
    + by apply isRevoked_false.
    + by apply sessionAllowed_true.
    + by apply includes_true.
  - apply historyAuthorized_true. exists g. split; [done|].
    repeat split; try done. exists hs, h. repeat split; try done. lia.
Qed.

(** C2.  [isAuthorized(k, s)] is true exactly when some non-revoked grant
    with the "inject" capability and the session [s] (or "*") has [k] as
    its current key, or has a history entry for [k] with
    [now < validUntil]; revoked grants never make it true.  The clock
    [now] is a number of milliseconds since the epoch, so [0 ≤ now]. *)
Theorem isAuthorized_iff now k s gs :
  0 ≤ now →
  (isAuthorized now k s gs = true ↔ ∃ g, g ∈ gs ∧ authorises now k s g)
  ∧ ((∀ g, g ∈ gs → revoked g = Some true) →
     isAuthorized now k s gs = false).
Proof.
  intros Hnow. split.
  - split.
    + apply isAuthorized_sound.
    + intros (g & Hin & Hg). by eapply isAuthorized_complete.
  - intros Hall. apply not_true_is_false. intros Ha.
    apply isAuthorized_sound in Ha as (g & Hin & Hr & _).
    by apply Hr, Hall.
Qed.

Lemma historyGrant_Some k gs g :
  historyGrant k gs = Some g →
  g ∈ gs ∧ revoked g ≠ Some true
  ∧ ∃ hs h, keyHistory g = Some hs ∧ h ∈ hs ∧ publicKey h = k.
Proof.
  induction gs as [|g' gs IH]; simpl; [done|].
  destruct (isRevoked g' || noHistory (keyHistory g')) eqn:H1.
  { intros H. destruct (IH H) as (? & ?). split; [by right|done]. }
  case_bool_decide as He.
  - intros [= ->]. apply orb_false_iff in H1 as [Hr Hh].
    split; [left|]. split; [by apply isRevoked_false|].
    destruct (keyHistory g) as [hs|]; [|done]. simpl in He.
    apply Exists_exists in He as (h & Hin & Hk). by exists hs, h.
  - intros H. destruct (IH H) as (? & ?). split; [by right|done].
Qed.

Lemma historyGrant_None k gs :
  historyGrant k gs = None →
  ∀ g hs h, g ∈ gs → revoked g ≠ Some true → keyHistory g = Some hs →
            h ∈ hs → publicKey h ≠ k.
Proof.
  induction gs as [|g' gs IH]; simpl.
  - intros _ g hs h Hin. by apply elem_of_nil in Hin.
  - destruct (isRevoked g' || noHistory (keyHistory g')) eqn:H1.
    + intros Hn g hs h Hin Hr Hhs Hh.
      apply elem_of_cons in Hin as [->|Hin]; [|by eapply IH].
      apply isRevoked_false in Hr. rewrite Hr, Hhs in H1. done.
    + case_bool_decide as He; [done|].
      intros Hn g hs h Hin Hr Hhs Hh.
      apply elem_of_cons in Hin as [->|Hin]; [|by eapply IH].
      rewrite Hhs in He. simpl in He. intros Hk. apply He.
      apply Exists_exists. by exists h.
Qed.

(** C8, counterexample.  A grant whose peer rotated from "OLD" to "NEW"
    with a grace period that ended at 100.  At time 200 the old key is
    no longer authorised, yet [getGrantForPeer] still returns the grant
    for it. *)
Lemma expired_key_still_finds_grant :
  let g := mkGrant "grant-1" "NEW" (Some "enc-new") ["dev"] ["inject"] 1
             None None (Some [mkHistory "OLD" "enc-old" 1 100 "scheduled"]) in
  isAuthorized 200 "OLD" "dev" [g] = false
  ∧ getGrantForPeer "OLD" [g] = Some g.
Proof. by vm_compute. Qed.

(** C8, as amended.  [getGrantForPeer(k)] searches the non-revoked
    grants for one whose current key is [k] or whose history has an entry
    for [k], whatever the entry's [validUntil]; it returns such a grant,
    and nothing exactly when there is none.  It never reads the clock, so
    a historical key past its grace period still yields its grant; and
    every key [isAuthorized] accepts yields a grant. *)
Theorem getGrantForPeer_search k gs :
  (∀ g, getGrantForPeer k gs = Some g →
        g ∈ gs ∧ revoked g ≠ Some true ∧ knownKey k g)
  ∧ (getGrantForPeer k gs = None
     ↔ ∀ g, g ∈ gs → revoked g ≠ Some true → ¬ knownKey k g)
  ∧ (∀ now s, isAuthorized now k s gs = true →
              is_Some (getGrantForPeer k gs)).
Proof.
  assert (∀ g, getGrantForPeer k gs = Some g →
               g ∈ gs ∧ revoked g ≠ Some true ∧ knownKey k g) as Hsome.
  { intros g. unfold getGrantForPeer.
    destruct (list_find _ gs) as [[i g']|] eqn:Hf.
    - intros [= ->]. apply list_find_Some in Hf as (Hi & (Hr & Hk) & _).
      split; [by eapply list_elem_of_lookup_2|].
      split; [by apply isRevoked_false|by left].
    - intros Hh. apply historyGrant_Some in Hh as (? & ? & ?).
      split; [done|]. split; [done|by right]. }
  assert (getGrantForPeer k gs = None
          ↔ ∀ g, g ∈ gs → revoked g ≠ Some true → ¬ knownKey k g) as Hnone.
  { split.
    - unfold getGrantForPeer.
      destruct (list_find _ gs) as [[i g']|] eqn:Hf; [done|].
      intros Hh g Hin Hr [Hk|(hs & h & Hhs & Hhin & Hk)].
      + apply list_find_None in Hf. rewrite Forall_forall in Hf.
        apply (Hf g Hin). split; [by apply isRevoked_false|done].
      + by eapply (historyGrant_None k gs Hh g hs h).
    - intros Hall. destruct (getGrantForPeer k gs) as [g|] eqn:Hg; [|done].
      destruct (Hsome g eq_refl) as (Hin & Hr & Hk).
      by destruct (Hall g Hin Hr). }
  split; [done|]. split; [done|].
  intros now s Ha. apply isAuthorized_sound in Ha as (g & Hin & Hr & _ & _ & Hk).
  destruct (getGrantForPeer k gs) as [g'|] eqn:Hg; [by eexists|].
  exfalso. apply (proj1 Hnone eq_refl g Hin Hr).
  destruct Hk as [?|(hs & h & ? & ? & ? & _)]; [by left|right; by exists hs, h].
Qed.

(** C2 at work: inside the grace period the rotated key "OLD" is
    authorised through the history of the grant. *)
Lemma isAuthorized_iff_witness :
  let g := mkGrant "grant-1" "NEW" (Some "enc-new") ["dev"] ["inject"] 1
             None None (Some [mkHistory "OLD" "enc-old" 1 100 "scheduled"]) in
  0 ≤ 50
  ∧ isAuthorized 50 "OLD" "dev" [g] = true
  ∧ (isAuthorized 50 "OLD" "dev" [g] = true
     ↔ ∃ g', g' ∈ [g] ∧ authorises 50 "OLD" "dev" g')
  ∧ ((∀ g', g' ∈ [g] → revoked g' = Some true) →
     isAuthorized 50 "OLD" "dev" [g] = false).
Proof.
  split; [lia|]. split; [by vm_compute|].
  apply (isAuthorized_iff 50 "OLD" "dev"). lia.
Defined.

End TrustTheorems.

Module RotationTheorems.
Import Trust TrustFacts ListFacts.

Section WithIdentity.

Variable shortKey : string → string.
Variable verifyKeyRotation : KeyRotation → bool.

Lemma process_store r st :
  (processPeerKeyRotation shortKey verifyKeyRotation r st).2
  = if verifyKeyRotation r then rotated shortKey r st else st.
Proof.
  unfold processPeerKeyRotation. by destruct (verifyKeyRotation r).
Qed.

(** After one processing no grant and no peer is left for the rotation
    to apply to. *)
Lemma rotated_no_grant r st :
  oldSignPub r ≠ newSignPub r →
  (length (filter (grantOf r) (grants st)) ≤ 1)%nat →
  list_find (grantOf r) (grants (rotated shortKey r st)) = None.
Proof.
  intros Hne Hlen. unfold rotated. simpl.
  destruct (list_find (grantOf r) (grants st)) as [[i g]|] eqn:Hf; [|done].
  apply (list_find_after_update (grantOf r) (rotateGrant r)); [|done..].
  intros y _ [Hk _]. simpl in Hk. congruence.
Qed.

Lemma rotated_no_peer r st :
  oldSignPub r ≠ newSignPub r →
  (length (filter (peerOf r) (peers st)) ≤ 1)%nat →
  list_find (peerOf r) (peers (rotated shortKey r st)) = None.
Proof.
  intros Hne Hlen. unfold rotated. simpl.
  destruct (list_find (peerOf r) (peers st)) as [[i p]|] eqn:Hf; [|done].
  apply (list_find_after_update (peerOf r) (rotatePeer shortKey r));
    [|done..].
  intros y _ Hk. unfold peerOf in Hk. simpl in Hk. congruence.
Qed.

(** C6, as amended.  When the rotation changes the key
    ([newSignPub ≠ oldSignPub]) and at most one non-revoked grant and at
    most one peer have [oldSignPub] as their current key, processing the
    rotation a second time leaves the grants and the peers exactly as the
    first time left them. *)
Theorem rotation_idempotent (r : KeyRotation) (st : Store) :
  oldSignPub r ≠ newSignPub r →
  (length (filter (grantOf r) (grants st)) ≤ 1)%nat →
  (length (filter (peerOf r) (peers st)) ≤ 1)%nat →
  (processPeerKeyRotation shortKey verifyKeyRotation r
     (processPeerKeyRotation shortKey verifyKeyRotation r st).2).2
  = (processPeerKeyRotation shortKey verifyKeyRotation r st).2.
Proof.
  intros Hne Hg Hp. rewrite !process_store.
  destruct (verifyKeyRotation r); [|done].
  unfold rotated at 1.
  rewrite rotated_no_grant, rotated_no_peer by done.
  by destruct (rotated shortKey r st).
Qed.

End WithIdentity.

(** C6, counterexample.  A rotation record whose new signing key is the
    old one, accepted by the verification of its signature.  The first
    processing appends one history entry to the grant of "K"; the grant
    still has "K" as its current key, so the second processing appends
    another: two entries after two calls, one after one call. *)
Lemma rotation_twice_differs :
  let r := mkRotation "K" "K" "E2" "scheduled" 1000 500 "sig" in
  let g := mkGrant "grant-1" "K" (Some "E1") ["dev"] ["inject"] 1
             None None None in
  let st := mkStore [g] [] in
  let process := processPeerKeyRotation (λ k, k) (λ _, true) in
  (length <$> (grants (process r st).2 !! 0%nat ≫= keyHistory)) = Some 1%nat
  ∧ (length <$> (grants (process r (process r st).2).2 !! 0%nat
                 ≫= keyHistory)) = Some 2%nat
  ∧ (process r (process r st).2).2 ≠ (process r st).2.
Proof. vm_compute. repeat split; congruence. Qed.

(** The same with a rotation to a different key, on a store the code
    itself builds: "A" and "B" claim access, "A" rotates to the key "B",
    so two grants carry "B"; the rotation of "B" to "C" then changes one
    grant per call. *)
Lemma two_grants_rotated_one_per_call :
  let process := processPeerKeyRotation (λ k, k) (λ _, true) in
  let gs1 := (grantAccess 1 "A" ["dev"] ["inject"] (Some "Ea") []).2 in
  let gs2 := (grantAccess 2 "B" ["ops"] ["inject"] (Some "Eb") gs1).2 in
  let st := (process (mkRotation "A" "B" "Eb" "scheduled" 3 10 "sig")
               (mkStore gs2 [])).2 in
  let r := mkRotation "B" "C" "Ec" "scheduled" 4 10 "sig" in
  peerKey <$> grants st = ["B"; "B"]
  ∧ peerKey <$> grants (process r st).2 = ["C"; "B"]
  ∧ peerKey <$> grants (process r (process r st).2).2 = ["C"; "C"].
Proof. by vm_compute. Qed.

(** C6 at work: "K" rotates to "K2"; the grant and the peer of "K" are
    rotated once, and a second processing changes nothing. *)
Lemma rotation_idempotent_witness :
  let r := mkRotation "K" "K2" "E2" "scheduled" 1000 500 "sig" in
  let g := mkGrant "grant-1" "K" (Some "E1") ["dev"] ["inject"] 1
             None None None in
  let p := mkPeer "K" (Some "kay") "K" (Some "E1") ["ops"] ["inject"] 2
             None in
  let st := mkStore [g] [p] in
  let process := processPeerKeyRotation (λ k, k) (λ _, true) in
  peerKey <$> grants (process r st).2 = ["K2"]
  ∧ (process r (process r st).2).2 = (process r st).2.
Proof.
  split; [by vm_compute|].
  apply (rotation_idempotent (λ k, k) (λ _, true)).
  - done.
  - vm_compute. lia.
  - vm_compute. lia.
Defined.

End RotationTheorems.

(* ===================================================================== *)
(** * Properties of the protocol engine                                   *)
(* ===================================================================== *)

Module P2PTheorems.
Import Trust TrustFacts ListFacts P2P Examples.

(** ** The initiator *)

(** C9, counterexample.  The peer "alice" was added from an invite and
    has no encryption key yet, and the session "prod" is not among its
    sessions.  The claim asks for Invalid (the peer has no [encryptPub]);
    the code tests the session first and returns Rejected. *)
Lemma no_key_and_no_session_is_rejected :
  let alice := mkPeer "ab12cd34" (Some "Alice") "PK-alice" None ["dev"]
                 ["inject"] 1 None in
  truthyS (p_encryptPub alice) = false
  ∧ sendP2PInject demo (Some responder) [alice] "alice" "prod" "hi"
    = Return (mkResult EXIT_REJECTED
                (Some ("No access to session " +:+ quoted "prod")))
  ∧ EXIT_REJECTED ≠ EXIT_INVALID.
Proof. by vm_compute. Qed.

(** C9, as amended.  [sendP2PInject] returns, before a swarm is created:
    Invalid when there is no identity or no peer record matches;
    otherwise Rejected when the session is not among [peer.sessions] and
    "*" is not either, whether or not the peer has an encryption key;
    otherwise Invalid when the peer has no [encryptPub].  Only when all
    of these tests pass does it go on to open the transport. *)
Theorem sendP2PInject_guards E identity ps who sess text :
  let r := sendP2PInject E identity ps who sess text in
  (identity = None → ∃ m, r = Return (mkResult EXIT_INVALID m))
  ∧ (∀ me, identity = Some me →
     (findPeer (toLowerCase E) who ps = None →
        ∃ m, r = Return (mkResult EXIT_INVALID m))
     ∧ (∀ peer, findPeer (toLowerCase E) who ps = Some peer →
        ("*" ∉ p_sessions peer → sess ∉ p_sessions peer →
           ∃ m, r = Return (mkResult EXIT_REJECTED m))
        ∧ ("*" ∈ p_sessions peer ∨ sess ∈ p_sessions peer →
           truthyS (p_encryptPub peer) = false →
           ∃ m, r = Return (mkResult EXIT_INVALID m))
        ∧ ("*" ∈ p_sessions peer ∨ sess ∈ p_sessions peer →
           truthyS (p_encryptPub peer) = true →
           r = OpenSwarm me peer (getTopic E (p_publicKey peer)))))
  ∧ EXIT_INVALID = 3 ∧ EXIT_REJECTED = 2.
Proof.
  intros r. split; [|split; [|done]].
  - intros ->. by eexists.
  - intros me ->. unfold r, sendP2PInject. split.
    + intros ->. by eexists.
    + intros peer ->.
      assert (negb (includes "*" (p_sessions peer))
              && negb (includes sess (p_sessions peer)) = false
              ↔ "*" ∈ p_sessions peer ∨ sess ∈ p_sessions peer) as Hs.
      { rewrite <- negb_orb, negb_false_iff, orb_true_iff.
        by rewrite !includes_true. }
      repeat split.
      * intros H1 H2.
        assert (negb (includes "*" (p_sessions peer))
                && negb (includes sess (p_sessions peer)) = true) as ->.
        { apply not_false_iff_true. rewrite Hs. by intros [?|?]. }
        by eexists.
      * intros Hok Henc. apply Hs in Hok. rewrite Hok, Henc. by eexists.
      * intros Hok Henc. apply Hs in Hok. by rewrite Hok, Henc.
Qed.

(** ** The responder *)

Section Responder.

Variable E : Externals.
Variable me : Identity.

Lemma rateCheck_spec now who cls w :
  rateCheck now who cls w
  = ((RateLimit.check RateLimit.DEFAULT_LIMITS now who cls (limiter w)).1,
     mkWorld
       (RateLimit.check RateLimit.DEFAULT_LIMITS now who cls (limiter w)).2
       (replay w) (store w)).
Proof.
  unfold rateCheck.
  by destruct (RateLimit.check RateLimit.DEFAULT_LIMITS now who cls
                 (limiter w)).
Qed.

(** A refused nonce or timestamp leaves the replay protector as it is. *)
Lemma replay_refused now later n t rp :
  (Replay.check now later n t rp).1 = false →
  (Replay.check now later n t rp).2 = rp.
Proof. unfold Replay.check. repeat case_bool_decide; done. Qed.

(** A frame that is neither a handshake frame nor a key rotation goes
    through the gates. *)
Lemma handleConnection_gated now data c w ln rest msg :
  splitLine (buffer c +:+ data) = Some (ln, rest) →
  parseJSON E ln = Some msg →
  type msg ≠ "hello" → type msg ≠ "hello-ack" →
  (type msg = "key-rotation" → keyRotation msg = None) →
  handleConnection E me now data c w = gated E me now (consumed c rest) msg w.
Proof.
  intros Hs Hp H1 H2 H3. unfold handleConnection. rewrite Hs, Hp.
  rewrite (bool_decide_eq_false_2 (type msg = "hello")) by done. simpl.
  rewrite !bool_decide_eq_true_2 by done. simpl.
  destruct (keyRotation msg) as [r|] eqn:Hr; [|done].
  case_bool_decide as Hk; [|done]. by specialize (H3 Hk).
Qed.

(** C7, as amended.  A line that [JSON.parse] refuses is dropped: nothing
    is written and no rate-limit class is charged, the world is as
    before.  A frame (other than a handshake frame or a key rotation)
    whose signature does not verify, or that the replay protector
    refuses, is dropped too: nothing is written, and the sender's
    [invalidMessages] class is charged. *)
Theorem invalid_frames_dropped now data c w ln rest :
  splitLine (buffer c +:+ data) = Some (ln, rest) →
  let r := handleConnection E me now data c w in
  (parseJSON E ln = None → r = (consumed c rest, w, []))
  ∧ (∀ msg, parseJSON E ln = Some msg →
       type msg ≠ "hello" → type msg ≠ "hello-ack" →
       (type msg = "key-rotation" → keyRotation msg = None) →
       (verifySignature E msg (from msg) = false →
          r = (consumed c rest, charged now (from msg) w, []))
       ∧ (verifySignature E msg (from msg) = true →
          (Replay.check now now (nonce msg) (ts msg) (replay w)).1 = false →
          r = (consumed c rest, charged now (from msg) w, []))).
Proof.
  intros Hs r. split.
  - intros Hp. unfold r, handleConnection. by rewrite Hs, Hp.
  - intros msg Hp H1 H2 H3. unfold r.
    rewrite (handleConnection_gated now data c w ln rest msg) by done.
    unfold gated. split.
    + intros ->. simpl. by rewrite rateCheck_spec.
    + intros -> Hr. simpl.
      pose proof (replay_refused _ _ _ _ _ Hr) as Hrp.
      destruct (Replay.check now now (nonce msg) (ts msg) (replay w))
        as [fresh rp]. simpl in Hr, Hrp. subst fresh rp. simpl.
      rewrite rateCheck_spec. by destruct w.
Qed.




End Responder.

(** C7, counterexample.  A line that is not JSON arrives: nothing is
    written, and the limiter is as empty as before, so no
    [invalidMessages] class was charged for anybody. *)
Lemma unparseable_frame_not_charged :
  parseJSON demo "not json" = None
  ∧ handleConnection demo responder 1000 (line "not json") conn0 world0
    = (conn0, world0, [])
  ∧ limiter world0 = ∅.
Proof. by vm_compute. Qed.



(** C7 at work on the line that does not parse. *)
Lemma invalid_frames_dropped_witness :
  let r := handleConnection demo responder 1000 (line "not json") conn0
             world0 in
  (parseJSON demo "not json" = None → r = (consumed conn0 "", world0, []))
  ∧ (∀ msg, parseJSON demo "not json" = Some msg →
       type msg ≠ "hello" → type msg ≠ "hello-ack" →
       (type msg = "key-rotation" → keyRotation msg = None) →
       (verifySignature demo msg (from msg) = false →
          r = (consumed conn0 "", charged 1000 (from msg) world0, []))
       ∧ (verifySignature demo msg (from msg) = true →
          (Replay.check 1000 1000 (nonce msg) (ts msg) (replay world0)).1 = false →
          r = (consumed conn0 "", charged 1000 (from msg) world0, []))).
Proof.
  apply (invalid_frames_dropped demo responder 1000 (line "not json") conn0
           world0 "not json" EmptyString).
  by vm_compute.
Defined.



End P2PTheorems.

(* ===================================================================== *)
(** * Further properties of the rate limiter                              *)
(* ===================================================================== *)

Module MoreListFacts.

Lemma filter_all {A} (P : A → Prop) `{∀ x, Decision (P x)} (l : list A) :
  Forall P l → filter P l = l.
Proof.
  induction 1 as [|x l Hx Hl IH]; [done|].
  rewrite filter_cons_True by done. by f_equal.
Qed.

End MoreListFacts.

Module RateLimitMore.
Import RateLimit RateLimitFacts MoreListFacts.

Lemma stateOf_empty p c : stateOf p c (∅ : Limiter) = freshState.
Proof. unfold stateOf. by rewrite lookup_empty. Qed.

Lemma stateOf_clearPeer_eq p c (m : Limiter) :
  stateOf p c (clearPeer p m) = freshState.
Proof. unfold stateOf, clearPeer. by rewrite lookup_delete_eq. Qed.

Lemma stateOf_clearPeer_ne p q c (m : Limiter) :
  p ≠ q → stateOf q c (clearPeer p m) = stateOf q c m.
Proof. intros Hne. unfold stateOf, clearPeer. by rewrite lookup_delete_ne. Qed.

Lemma blockedNow_spec now s :
  blockedNow now s = true ↔ ∃ B, blockedUntil s = Some B ∧ B ≠ 0 ∧ now < B.
Proof.
  unfold blockedNow, truthyZ. destruct (blockedUntil s) as [b|]; simpl.
  - rewrite andb_true_iff, !bool_decide_eq_true. split.
    + intros [? ?]. by exists b.
    + intros (B & [= <-] & ? & ?). done.
  - split; [done|]. by intros (B & ? & _).
Qed.

(** The methods that only read: the answer is computed on the state of
    the pair, and the state of every pair stays as it was. *)
Lemma isBlocked_spec now p c (m : Limiter) :
  (isBlocked now p c m).1 = blockedNow now (stateOf p c m)
  ∧ ∀ q d, stateOf q d (isBlocked now p c m).2 = stateOf q d m.
Proof.
  unfold isBlocked.
  pose proof (stateOf_getState p c m) as Hs.
  pose proof (λ q d, stateOf_getState_store p c q d m) as Hm.
  destruct (getState p (limitName c) m) as [m1 st]. simpl in Hs, Hm.
  subst st. split; [done|]. intros q d. apply Hm.
Qed.

Lemma getBlockedFor_spec now p c (m : Limiter) :
  (getBlockedFor now p c m).1
  = (if blockedNow now (stateOf p c m)
     then default 0 (blockedUntil (stateOf p c m)) - now else 0)
  ∧ ∀ q d, stateOf q d (getBlockedFor now p c m).2 = stateOf q d m.
Proof.
  unfold getBlockedFor.
  pose proof (stateOf_getState p c m) as Hs.
  pose proof (λ q d, stateOf_getState_store p c q d m) as Hm.
  destruct (getState p (limitName c) m) as [m1 st]. simpl in Hs, Hm.
  subst st. split; [done|]. intros q d. apply Hm.
Qed.

Lemma getRequestCount_spec limits now p c (m : Limiter) :
  (getRequestCount limits now p c m).1
  = Z.of_nat (length (filter (λ ts, now - ts < windowMs (limitOf limits c))
                        (requests (stateOf p c m))))
  ∧ ∀ q d, stateOf q d (getRequestCount limits now p c m).2 = stateOf q d m.
Proof.
  unfold getRequestCount.
  pose proof (stateOf_getState p c m) as Hs.
  pose proof (λ q d, stateOf_getState_store p c q d m) as Hm.
  destruct (getState p (limitName c) m) as [m1 st]. simpl in Hs, Hm.
  subst st. split; [done|]. intros q d. apply Hm.
Qed.

Lemma block_spec limits now p c d (m : Limiter) :
  stateOf p c (block limits now p c d m)
  = mkState (requests (stateOf p c m))
            (Some (now + default (blockDurationMs (limitOf limits c)) d))
  ∧ ∀ q e, (p, c) ≠ (q, e) →
           stateOf q e (block limits now p c d m) = stateOf q e m.
Proof.
  unfold block.
  pose proof (stateOf_getState p c m) as Hs.
  pose proof (λ q d, stateOf_getState_store p c q d m) as Hm.
  destruct (getState p (limitName c) m) as [m1 st]. simpl in Hs, Hm.
  subst st. split.
  - by rewrite stateOf_setState_eq.
  - intros q e Hne. by rewrite stateOf_setState_ne.
Qed.

Lemma unblock_spec p c (m : Limiter) :
  stateOf p c (unblock p c m) = mkState [] None
  ∧ ∀ q e, (p, c) ≠ (q, e) → stateOf q e (unblock p c m) = stateOf q e m.
Proof.
  unfold unblock.
  pose proof (λ q d, stateOf_getState_store p c q d m) as Hm.
  destruct (getState p (limitName c) m) as [m1 st]. simpl in Hm.
  split.
  - by rewrite stateOf_setState_eq.
  - intros q e Hne. by rewrite stateOf_setState_ne.
Qed.

Lemma check_step_bounded config now s :
  Z.of_nat (length (requests s)) ≤ Z.max 0 (maxRequests config) →
  Z.of_nat (length (requests (check_step config now s).2))
  ≤ Z.max 0 (maxRequests config).
Proof.
  intros Hb. unfold check_step.
  destruct (blockedNow now s); [done|].
  set (s1 := if blockExpired now s then mkState [] None else s).
  assert (Z.of_nat (length (filter (λ ts, now - ts < windowMs config)
                              (requests s1)))
          ≤ Z.of_nat (length (requests s))) as Hk.
  { pose proof (length_filter (λ ts, now - ts < windowMs config)
                  (requests s1)) as Hf.
    subst s1. destruct (blockExpired now s); simpl in *; lia. }
  case_bool_decide; simpl.
  - lia.
  - rewrite length_app. simpl. lia.
Qed.

Lemma exec_bounded limits call (m : Limiter) :
  bounded limits m → bounded limits (exec limits call m).
Proof.
  intros Hb q e. destruct call as [now p c|now p c|now p c|now p c d|p c
                                   |now p c| |p]; simpl.
  - destruct (decide ((p, c) = (q, e))) as [[= -> ->]|Hne].
    + destruct (check_as_step limits now q e m) as [_ ->].
      apply check_step_bounded, Hb.
    + rewrite check_frame by done. apply Hb.
  - destruct (isBlocked_spec now p c m) as [_ ->]. apply Hb.
  - destruct (getBlockedFor_spec now p c m) as [_ ->]. apply Hb.
  - destruct (block_spec limits now p c d m) as [Heq Hne].
    destruct (decide ((p, c) = (q, e))) as [[= -> ->]|Hd].
    + rewrite Heq. simpl. apply Hb.
    + rewrite Hne by done. apply Hb.
  - destruct (unblock_spec p c m) as [Heq Hne].
    destruct (decide ((p, c) = (q, e))) as [[= -> ->]|Hd].
    + rewrite Heq. simpl. lia.
    + rewrite Hne by done. apply Hb.
  - destruct (getRequestCount_spec limits now p c m) as [_ ->]. apply Hb.
  - unfold clear. rewrite stateOf_empty. simpl. lia.
  - destruct (decide (p = q)) as [->|Hd].
    + rewrite stateOf_clearPeer_eq. simpl. lia.
    + rewrite stateOf_clearPeer_ne by done. apply Hb.
Qed.

(** X1.  Whatever methods are called on a new limiter, in whatever
    order and at whatever times, no counter ever holds more than
    [maxRequests] timestamps: the memory a pair takes is bounded by its
    limit. *)
Theorem counters_stay_bounded limits calls p c :
  Z.of_nat (length (requests (stateOf p c (execAll limits calls))))
  ≤ Z.max 0 (maxRequests (limitOf limits c)).
Proof.
  assert (bounded limits (execAll limits calls)) as Hb; [|apply Hb].
  unfold execAll.
  assert (∀ m : Limiter, bounded limits m →
            bounded limits (foldl (λ m call, exec limits call m) m calls))
    as Hfold.
  { induction calls as [|call calls IH]; intros m Hm; [done|].
    simpl. apply IH. by apply exec_bounded. }
  apply Hfold. intros q e. rewrite stateOf_empty. simpl. lia.
Qed.



(** X3.  [isBlocked] and [getBlockedFor] are peeks: they leave every
    counter and block as it was.  [isBlocked] answers true exactly when
    [getBlockedFor] is positive, which is then the time left until
    [blockedUntil]; and when it answers true, [check] at the same time
    refuses. *)
Theorem peeks_agree_with_check limits now p c (m : Limiter) :
  (∀ q d, stateOf q d (isBlocked now p c m).2 = stateOf q d m)
  ∧ (∀ q d, stateOf q d (getBlockedFor now p c m).2 = stateOf q d m)
  ∧ ((isBlocked now p c m).1 = true ↔ 0 < (getBlockedFor now p c m).1)
  ∧ ((isBlocked now p c m).1 = false → (getBlockedFor now p c m).1 = 0)
  ∧ ((isBlocked now p c m).1 = true →
     blockedUntil (stateOf p c m)
     = Some (now + (getBlockedFor now p c m).1)
     ∧ (check limits now p c m).1 = false).
Proof.
  destruct (isBlocked_spec now p c m) as [Hi Hif].
  destruct (getBlockedFor_spec now p c m) as [Hg Hgf].
  destruct (check_as_step limits now p c m) as [Hc _].
  rewrite Hi, Hg, Hc. unfold check_step.
  split; [done|]. split; [done|].
  destruct (blockedNow now (stateOf p c m)) eqn:Hb.
  - apply blockedNow_spec in Hb as (B & HB & Hne & Hlt). rewrite HB. simpl.
    repeat split; try done; try lia. f_equal. lia.
  - repeat split; try done; lia.
Qed.

(** X4.  A manual block holds: after [block(p, c, d)] at a clock
    [0 ≤ now] with a positive duration (the class's [blockDurationMs] when
    [d] is left out) such that [now + duration] is a safe integer, at
    most 2^53, so that the code's sum is exact, [isBlocked] is true and
    [check] refuses at every time before [now + duration]; the recorded
    timestamps are kept. *)
Theorem block_holds limits now p c d (m : Limiter) t :
  0 ≤ now →
  0 < default (blockDurationMs (limitOf limits c)) d →
  safeInt (now + default (blockDurationMs (limitOf limits c)) d) →
  t < now + default (blockDurationMs (limitOf limits c)) d →
  let m1 := block limits now p c d m in
  (isBlocked t p c m1).1 = true
  ∧ (check limits t p c m1).1 = false
  ∧ requests (stateOf p c m1) = requests (stateOf p c m).
Proof.
  intros Hnow Hd _ Ht m1.
  destruct (block_spec limits now p c d m) as [Hs _]. fold m1 in Hs.
  destruct (isBlocked_spec t p c m1) as [-> _].
  destruct (check_as_step limits t p c m1) as [-> _].
  unfold check_step. rewrite Hs. simpl.
  assert (blockedNow t
            (mkState (requests (stateOf p c m))
               (Some (now + default (blockDurationMs (limitOf limits c)) d)))
          = true) as ->; [|done].
  apply blockedNow_spec. eexists. split; [done|]. lia.
Qed.

(** X5.  [unblock] restores service: afterwards the pair is not blocked
    at any time, its counter is empty, and with [maxRequests ≥ 1] the
    next [check] is served and is the only request counted. *)
Theorem unblock_restores limits p c (m : Limiter) t :
  1 ≤ maxRequests (limitOf limits c) →
  let m1 := unblock p c m in
  (isBlocked t p c m1).1 = false
  ∧ (check limits t p c m1).1 = true
  ∧ stateOf p c (check limits t p c m1).2 = mkState [t] None.
Proof.
  intros Hmax m1.
  destruct (unblock_spec p c m) as [Hs _]. fold m1 in Hs.
  destruct (isBlocked_spec t p c m1) as [-> _].
  destruct (check_as_step limits t p c m1) as [-> ->].
  unfold check_step. rewrite Hs. simpl.
  rewrite filter_nil. simpl.
  rewrite bool_decide_eq_false_2 by lia. done.
Qed.

(** X6.  [getRequestCount] predicts [check]: on a pair that carries no
    block, [check] serves the request exactly when the count is below
    [maxRequests]; and when it does, with a positive window, the count
    read at the same time has grown by one.  Reading the count changes no
    state. *)
Theorem count_predicts_check limits now p c (m : Limiter) :
  truthyZ (blockedUntil (stateOf p c m)) = false →
  0 < windowMs (limitOf limits c) →
  ((check limits now p c m).1 = true
   ↔ (getRequestCount limits now p c m).1 < maxRequests (limitOf limits c))
  ∧ ((check limits now p c m).1 = true →
     (getRequestCount limits now p c (check limits now p c m).2).1
     = (getRequestCount limits now p c m).1 + 1)
  ∧ (∀ q d, stateOf q d (getRequestCount limits now p c m).2
            = stateOf q d m).
Proof.
  intros Hfree Hw.
  destruct (getRequestCount_spec limits now p c m) as [Hg Hgf].
  destruct (getRequestCount_spec limits now p c (check limits now p c m).2)
    as [Hg' _].
  destruct (check_as_step limits now p c m) as [Hc Hs].
  rewrite Hg, Hg', Hc, Hs.
  unfold check_step, blockedNow, blockExpired. rewrite Hfree. simpl.
  split; [|split; [|done]].
  - case_bool_decide; simpl; split; try done; lia.
  - case_bool_decide; simpl; [done|]. intros _.
    rewrite filter_app, length_app.
    rewrite list_filter_filter.
    rewrite (list_filter_iff _ (λ ts, now - ts < windowMs (limitOf limits c)));
      [|intros y; tauto].
    rewrite filter_cons_True by lia. simpl. lia.
Qed.

(** [clearPeer] forgets one peer and only that peer: every class of
    the peer is back to an empty counter without block, so the peer is
    not blocked at any time, and the state of every other peer is as it
    was. *)
Lemma clearPeer_forgets_one_peer p (m : Limiter) :
  (∀ c, stateOf p c (clearPeer p m) = freshState)
  ∧ (∀ c t, (isBlocked t p c (clearPeer p m)).1 = false)
  ∧ (∀ q c, p ≠ q → stateOf q c (clearPeer p m) = stateOf q c m).
Proof.
  split; [|split].
  - intros c. apply stateOf_clearPeer_eq.
  - intros c t. destruct (isBlocked_spec t p c (clearPeer p m)) as [-> _].
    by rewrite stateOf_clearPeer_eq.
  - intros q c Hne. by apply stateOf_clearPeer_ne.
Qed.


(** X4 at work: a block of 500 at 1000 holds at 1499. *)
Lemma block_holds_witness :
  let m1 := block DEFAULT_LIMITS 1000 "p" injects (Some 500) ∅ in
  (isBlocked 1499 "p" injects m1).1 = true
  ∧ (check DEFAULT_LIMITS 1499 "p" injects m1).1 = false
  ∧ requests (stateOf "p" injects m1) = requests (stateOf "p" injects ∅).
Proof.
  apply (block_holds DEFAULT_LIMITS 1000 "p" injects (Some 500) ∅ 1499);
    by vm_compute.
Defined.

(** X5 at work: "p" is blocked until 11; after [unblock] the request at
    5 is allowed. *)
Lemma unblock_restores_witness :
  let m1 := unblock "p" injects Examples.afterTwo in
  (isBlocked 5 "p" injects Examples.afterTwo).1 = true
  ∧ (isBlocked 5 "p" injects m1).1 = false
  ∧ (check Examples.shortBlock 5 "p" injects m1).1 = true
  ∧ stateOf "p" injects (check Examples.shortBlock 5 "p" injects m1).2
    = mkState [5] None.
Proof.
  split; [by vm_compute|].
  apply (unblock_restores Examples.shortBlock "p" injects Examples.afterTwo 5).
  by vm_compute.
Defined.

(** X6 at work: one request of one is used; [getRequestCount] says so and
    [check] refuses. *)
Lemma count_predicts_check_witness :
  let m := (check Examples.shortBlock 0 "p" injects ∅).2 in
  (getRequestCount Examples.shortBlock 50 "p" injects m).1 = 1
  ∧ ((check Examples.shortBlock 50 "p" injects m).1 = true
     ↔ (getRequestCount Examples.shortBlock 50 "p" injects m).1
       < maxRequests (limitOf Examples.shortBlock injects))
  ∧ ((check Examples.shortBlock 50 "p" injects m).1 = true →
     (getRequestCount Examples.shortBlock 50 "p" injects
        (check Examples.shortBlock 50 "p" injects m).2).1
     = (getRequestCount Examples.shortBlock 50 "p" injects m).1 + 1)
  ∧ (∀ q d, stateOf q d
              (getRequestCount Examples.shortBlock 50 "p" injects m).2
            = stateOf q d m).
Proof.
  split; [by vm_compute|].
  apply (count_predicts_check Examples.shortBlock 50 "p" injects
           (check Examples.shortBlock 0 "p" injects ∅).2);
    by vm_compute.
Defined.

End RateLimitMore.

(* ===================================================================== *)
(** * Further properties of the replay protector                          *)
(* ===================================================================== *)

Module ReplayMore.
Import Replay.

Lemma cleanup_lookup now rp n ts :
  seenNonces (cleanup now rp) !! n = Some ts
  ↔ seenNonces rp !! n = Some ts ∧ ¬ ts < now - maxAgeMs rp.
Proof. unfold cleanup. simpl. by rewrite map_lookup_filter_Some. Qed.

Lemma cleanup_id now rp :
  (∀ k x, seenNonces rp !! k = Some x → ¬ x < now - maxAgeMs rp) →
  cleanup now rp = rp.
Proof.
  intros Hall. unfold cleanup. rewrite map_filter_id; [by destruct rp|].
  intros k x Hk. simpl. by eapply Hall.
Qed.

(** Fresh nonces stamped with the current time are all accepted and all
    kept. *)
Lemma run_presentAt t l :
  ∀ rp,
  NoDup l →
  (∀ n, n ∈ l → seenNonces rp !! n = None) →
  (∀ k x, seenNonces rp !! k = Some x → ¬ x < t - maxAgeMs rp) →
  0 ≤ maxAgeMs rp → 0 ≤ maxClockSkewMs rp →
  (run (presentAt t l) rp).1 = replicate (length l) true
  ∧ maxAgeMs (run (presentAt t l) rp).2 = maxAgeMs rp
  ∧ (∀ n, n ∈ l → seenNonces (run (presentAt t l) rp).2 !! n = Some t)
  ∧ (∀ n x, seenNonces rp !! n = Some x →
            seenNonces (run (presentAt t l) rp).2 !! n = Some x)
  ∧ size (seenNonces (run (presentAt t l) rp).2)
    = (size (seenNonces rp) + length l)%nat.
Proof.
  induction l as [|n l IH]; intros rp Hnd Hfresh Hold Hage Hskew.
  - simpl. repeat split; try done; try lia.
    intros n Hn. by apply elem_of_nil in Hn.
  - apply NoDup_cons in Hnd as [Hn Hnd].
    assert (check t t n t rp
            = (true, mkRP (<[n := t]> (seenNonces rp)) (maxAgeMs rp)
                          (maxClockSkewMs rp))) as Hc.
    { unfold check.
      rewrite (bool_decide_eq_false_2 (t < t - _)) by lia.
      rewrite (bool_decide_eq_false_2 (t + _ < t)) by lia.
      rewrite (bool_decide_eq_false_2 (is_Some _)).
      2:{ rewrite Hfresh by left. by intros [? ?]. }
      case_bool_decide; [|done]. rewrite cleanup_id; [done|].
      intros k x Hk. simpl in *.
      apply lookup_insert_Some in Hk as [[_ <-]|[_ Hk]]; [lia|by eapply Hold]. }
    change (presentAt t (n :: l)) with ((t, t, n, t) :: presentAt t l).
    cbn [run]. rewrite Hc.
    set (rp1 := mkRP (<[n := t]> (seenNonces rp)) (maxAgeMs rp)
                     (maxClockSkewMs rp)).
    destruct (IH rp1) as (IH1 & IH2 & IH3 & IH4 & IH5); try done.
    + intros n' Hn'. simpl. rewrite lookup_insert_ne by (by intros ->).
      apply Hfresh. by right.
    + intros k x Hk. simpl in *.
      apply lookup_insert_Some in Hk as [[_ <-]|[_ Hk]]; [lia|by eapply Hold].
    + destruct (run (presentAt t l) rp1) as [rs rp2]. simpl in *.
      rewrite IH1. repeat split; try done.
      * intros n' Hn'. apply elem_of_cons in Hn' as [->|Hn'].
        -- apply IH4. by rewrite lookup_insert_eq.
        -- by apply IH3.
      * intros n' x Hx. apply IH4.
        rewrite lookup_insert_ne; [done|].
        intros <-. rewrite Hfresh in Hx by left. done.
      * rewrite IH5. rewrite map_size_insert_None by (apply Hfresh; left).
        lia.
Qed.

(** X7.  The nonce store has no hard bound: the cleanup that runs above
    10000 entries only evicts timestamps older than [now - maxAge], so a
    burst of frames with distinct nonces, stamped with the current time,
    is accepted in full and every nonce is kept, however many they are
    (the bounds being non-negative and no recorded timestamp older than
    the window). *)
Theorem burst_is_kept t l rp :
  NoDup l →
  (∀ n, n ∈ l → seenNonces rp !! n = None) →
  (∀ k x, seenNonces rp !! k = Some x → ¬ x < t - maxAgeMs rp) →
  0 ≤ maxAgeMs rp → 0 ≤ maxClockSkewMs rp →
  (run (presentAt t l) rp).1 = replicate (length l) true
  ∧ (∀ n, n ∈ l → seenNonces (run (presentAt t l) rp).2 !! n = Some t)
  ∧ size (seenNonces (run (presentAt t l) rp).2)
    = (size (seenNonces rp) + length l)%nat.
Proof.
  intros Hnd Hfresh Hold Hage Hskew.
  destruct (run_presentAt t l rp Hnd Hfresh Hold Hage Hskew)
    as (H1 & _ & H3 & _ & H5).
  done.
Qed.

(** X8.  [cleanup] only evicts what is too old: a nonce it removes was
    recorded with a timestamp below [now - maxAge], every other nonce
    keeps its timestamp, the store does not grow, and a later cleanup
    subsumes an earlier one (in particular [cleanup] is idempotent). *)
Theorem cleanup_evicts_only_old now rp :
  (∀ n ts, seenNonces rp !! n = Some ts →
     if decide (ts < now - maxAgeMs rp)
     then seenNonces (cleanup now rp) !! n = None
     else seenNonces (cleanup now rp) !! n = Some ts)
  ∧ (∀ n, seenNonces rp !! n = None →
          seenNonces (cleanup now rp) !! n = None)
  ∧ (size (seenNonces (cleanup now rp)) ≤ size (seenNonces rp))%nat
  ∧ (∀ later, now ≤ later →
        cleanup later (cleanup now rp) = cleanup later rp).
Proof.
  repeat split.
  - intros n ts Hn. case_decide as Hd.
    + destruct (seenNonces (cleanup now rp) !! n) as [x|] eqn:Hx; [|done].
      apply cleanup_lookup in Hx as [Hx Hnot]. congruence.
    + by apply cleanup_lookup.
  - intros n Hn.
    destruct (seenNonces (cleanup now rp) !! n) as [x|] eqn:Hx; [|done].
    apply cleanup_lookup in Hx as [Hx _]. congruence.
  - unfold cleanup. simpl. apply map_subseteq_size, map_filter_subseteq.
  - intros later Hle. unfold cleanup. simpl. f_equal.
    apply map_eq. intros k. apply option_eq. intros x.
    rewrite !map_lookup_filter_Some. simpl. split.
    + intros [[? ?] ?]. done.
    + intros [? ?]. repeat split; try done. lia.
Qed.

(** X7 at work: two nonces presented at 1000 to a new protector. *)
Lemma burst_is_kept_witness :
  let rp := create None None in
  (run (presentAt 1000 ["a"; "b"]) rp).1 = [true; true]
  ∧ (∀ n, n ∈ ["a"; "b"] →
          seenNonces (run (presentAt 1000 ["a"; "b"]) rp).2 !! n = Some 1000)
  ∧ size (seenNonces (run (presentAt 1000 ["a"; "b"]) rp).2) = 2%nat.
Proof.
  apply (burst_is_kept 1000 ["a"; "b"] (create None None)).
  - apply NoDup_cons. split; [|apply NoDup_singleton].
    intros Hin. by apply list_elem_of_singleton in Hin.
  - intros n _. apply lookup_empty.
  - intros k x Hk. simpl in Hk. by rewrite lookup_empty in Hk.
  - by vm_compute.
  - by vm_compute.
Defined.

End ReplayMore.

(* ===================================================================== *)
(** * Further properties of the trust store                               *)
(* ===================================================================== *)

Module TrustMoreFacts.
Import Trust TrustFacts ListFacts TrustOps.

Lemma elem_of_insert_old {A} (l : list A) (i : nat) (x y g : A) :
  l !! i = Some x → g ∈ l → g = x ∨ g ∈ <[i := y]> l.
Proof.
  intros Hi Hg. apply list_elem_of_lookup in Hg as [j Hj].
  destruct (decide (i = j)) as [->|Hne].
  - left. congruence.
  - right. apply list_elem_of_lookup. exists j.
    by rewrite list_lookup_insert_ne.
Qed.

Lemma elem_of_insert_new {A} (l : list A) (i : nat) (y g : A) :
  g ∈ <[i := y]> l → g = y ∨ g ∈ l.
Proof.
  intros Hg. apply list_elem_of_lookup in Hg as [j Hj].
  destruct (decide (i = j)) as [->|Hne].
  - destruct (decide (j < length l)%nat) as [Hlt|Hge].
    + rewrite list_lookup_insert_eq in Hj by done. left. congruence.
    + rewrite list_insert_ge in Hj by lia. right.
      by eapply list_elem_of_lookup_2.
  - rewrite list_lookup_insert_ne in Hj by done. right.
    by eapply list_elem_of_lookup_2.
Qed.

Lemma elem_of_insert_self {A} (l : list A) (i : nat) (x y : A) :
  l !! i = Some x → y ∈ <[i := y]> l.
Proof.
  intros Hi. apply list_elem_of_lookup. exists i.
  apply list_lookup_insert_eq. by eapply lookup_lt_Some.
Qed.

(** Replacing an element by one that satisfies [P] only if the old one
    did cannot add to the elements that satisfy [P]. *)
Lemma filter_insert_le {A} (P : A → Prop) `{∀ x, Decision (P x)}
    (l : list A) (i : nat) (x y : A) :
  l !! i = Some x → (P y → P x) →
  (length (filter P (<[i := y]> l)) ≤ length (filter P l))%nat.
Proof.
  revert i. induction l as [|a l IH]; intros i Hi Himp; [done|].
  destruct i as [|i]; simpl in Hi.
  - injection Hi as ->. change (<[0%nat := y]> (x :: l)) with (y :: l).
    destruct (decide (P y)) as [Hy|Hy].
    + rewrite !filter_cons_True by auto. done.
    + rewrite filter_cons_False by done.
      destruct (decide (P x)).
      * rewrite filter_cons_True by done. simpl. lia.
      * by rewrite filter_cons_False.
  - change (<[S i := y]> (a :: l)) with (a :: <[i := y]> l).
    specialize (IH i Hi Himp).
    destruct (decide (P a)).
    + rewrite !filter_cons_True by done. simpl. lia.
    + by rewrite !filter_cons_False.
Qed.

Lemma list_find_None_filter {A} (P : A → Prop) `{∀ x, Decision (P x)}
    (l : list A) :
  list_find P l = None → filter P l = [].
Proof.
  intros Hn. apply list_find_None in Hn.
  induction Hn as [|x l Hx Hl IH]; [done|].
  by rewrite filter_cons_False.
Qed.

Lemma elem_of_uniq x l : x ∈ uniq l ↔ x ∈ l.
Proof.
  induction l as [|a l IH]; simpl; [done|].
  rewrite !elem_of_cons, list_elem_of_filter, IH.
  destruct (decide (x = a)); tauto.
Qed.

Lemma NoDup_uniq l : NoDup (uniq l).
Proof.
  induction l as [|a l IH]; simpl; [constructor|].
  apply NoDup_cons. split.
  - rewrite list_elem_of_filter. by intros [Hne _].
  - by apply NoDup_filter.
Qed.

(** [isAuthorized] is true exactly when a grant authorises the key
    through its current key or through an unexpired history entry. *)
Lemma isAuthorized_true now k s gs :
  isAuthorized now k s gs = true
  ↔ ∃ g, g ∈ gs ∧ (currentGrant k s g ∨ graceGrant now k s g).
Proof.
  unfold isAuthorized.
  destruct (list_find _ gs) as [[i g]|] eqn:Hf.
  - split; [intros _|done].
    apply list_find_Some in Hf as (Hi & (Hr & Hk & Hs & Hc) & _).
    exists g. split; [by eapply list_elem_of_lookup_2|]. left.
    repeat split; try done.
    + by apply isRevoked_false.
    + by apply includes_true.
    + by apply sessionAllowed_true.
  - rewrite historyAuthorized_true. split.
    + intros (g & Hin & Hg). exists g. split; [done|by right].
    + intros (g & Hin & [Hg|Hg]); [|by exists g].
      exfalso. apply list_find_None in Hf. rewrite Forall_forall in Hf.
      apply (Hf g Hin). destruct Hg as (Hr & Hc & Hs & Hk).
      repeat split; try done.
      * by apply isRevoked_false.
      * by apply sessionAllowed_true.
      * by apply includes_true.
Qed.

End TrustMoreFacts.

Module TrustMore.
Import Trust TrustFacts ListFacts TrustOps TrustMoreFacts.

Lemma filter_none {A} (Q : A → Prop) `{∀ x, Decision (Q x)} (l : list A) :
  (∀ x, x ∈ l → ¬ Q x) → filter Q l = [].
Proof.
  induction l as [|a l IH]; intros Hall; [done|].
  rewrite filter_cons_False by (apply Hall; left).
  apply IH. intros x Hx. apply Hall. by right.
Qed.

Lemma bool_eq_iff (a b : bool) : (a = true ↔ b = true) → a = b.
Proof. destruct a, b; intros [H1 H2]; try done; [by rewrite H1|by rewrite H2]. Qed.

Section WithIdentity.

Variable shortKey : string → string.
Variable toLowerCase : string → string.

(** X9.  The invariant "at most one non-revoked grant per peer key" is
    kept by [grantAccess], by [revokePeer] and by [updateAccessGrant]. *)
Theorem active_grants_stay_unique now k ses cap enc who ses' cap' gs :
  activeUnique gs →
  activeUnique (grantAccess now k ses cap enc gs).2
  ∧ (∀ gs', revokePeer shortKey toLowerCase who gs = inr gs' →
            activeUnique gs')
  ∧ (∀ g' gs',
       updateAccessGrant shortKey toLowerCase who ses' cap' gs
       = inr (g', gs') → activeUnique gs').
Proof.
  intros Hu. split; [|split].
  - unfold grantAccess.
    destruct (list_find _ gs) as [[i x]|] eqn:Hf; simpl; intros k'.
    + apply list_find_Some in Hf as (Hi & _ & _).
      etrans; [|apply (Hu k')].
      apply (filter_insert_le (activeFor k') gs i x); [done|].
      by intros [? ?].
    + rewrite filter_app, length_app.
      destruct (decide (k' = k)) as [->|Hne].
      * rewrite (filter_none (activeFor k) gs).
        -- simpl. apply length_filter.
        -- apply list_find_None in Hf. rewrite Forall_forall in Hf.
           intros x Hx [? ?]. by apply (Hf x Hx).
      * rewrite (filter_cons_False (activeFor k')).
        -- rewrite filter_nil. simpl. specialize (Hu k'). lia.
        -- intros [Hk _]. simpl in Hk. congruence.
  - intros gs' Hr k'. unfold revokePeer in Hr.
    destruct (list_find _ gs) as [[i x]|] eqn:Hf; [|done].
    injection Hr as <-. apply list_find_Some in Hf as (Hi & _ & _).
    etrans; [|apply (Hu k')].
    apply (filter_insert_le (activeFor k') gs i x); [done|].
    by intros [_ ?].
  - intros g' gs' Hr k'. unfold updateAccessGrant in Hr.
    destruct (list_find _ gs) as [[i x]|] eqn:Hf; [|done].
    injection Hr as <- <-. apply list_find_Some in Hf as (Hi & _ & _).
    etrans; [|apply (Hu k')].
    apply (filter_insert_le (activeFor k') gs i x); [done|].
    by intros [? ?].
Qed.

(** X10.  [grantAccess] never takes an authorisation away: whatever key
    and session [isAuthorized] accepted before the call, for whatever
    peer the call is made, it accepts after it. *)
Theorem grantAccess_keeps_authorization now k ses cap enc gs t k' s :
  isAuthorized t k' s gs = true →
  isAuthorized t k' s (grantAccess now k ses cap enc gs).2 = true.
Proof using Type.
  rewrite !isAuthorized_true. intros (g & Hin & Hg). unfold grantAccess.
  destruct (list_find _ gs) as [[i x]|] eqn:Hf; simpl.
  - apply list_find_Some in Hf as (Hi & _ & _).
    destruct (elem_of_insert_old gs i x
                (mkGrant (g_id x) (peerKey x)
                   (if truthyS enc then enc else peerEncryptPub x)
                   (uniq (sessions x ++ ses)) (uniq (caps x ++ cap))
                   (created x) (revoked x) (peerName x) (keyHistory x))
                g Hi Hin) as [->|Hin'].
    + eexists. split; [by eapply elem_of_insert_self|].
      destruct Hg as [(Hr & Hc & Hs & Hk)|(Hr & Hc & Hs & Hh)].
      * left. repeat split; simpl; try done.
        -- apply elem_of_uniq, elem_of_app. by left.
        -- rewrite !elem_of_uniq, !elem_of_app. clear -Hs. tauto.
      * right. repeat split; simpl; try done.
        -- apply elem_of_uniq, elem_of_app. by left.
        -- rewrite !elem_of_uniq, !elem_of_app. clear -Hs. tauto.
    + by exists g.
  - exists g. split; [|done]. apply elem_of_app. by left.
Qed.

(** X11.  After [grantAccess(k, sessions, caps, ...)], whether it merged
    into an existing grant or appended a new one, the grant it returns is
    in the store, is not revoked, has [k] as its key and lists every
    session and capability passed; so [k] is authorised for each of these
    sessions when "inject" is among the capabilities. *)
Theorem grantAccess_authorizes now k ses cap enc gs :
  let r := grantAccess now k ses cap enc gs in
  r.1 ∈ r.2
  ∧ peerKey r.1 = k
  ∧ isRevoked r.1 = false
  ∧ (∀ x, x ∈ ses → x ∈ sessions r.1)
  ∧ (∀ x, x ∈ cap → x ∈ caps r.1)
  ∧ (∀ t s, "inject" ∈ cap → "*" ∈ ses ∨ s ∈ ses →
            isAuthorized t k s r.2 = true).
Proof.
  intros r.
  assert (r.1 ∈ r.2 ∧ peerKey r.1 = k ∧ isRevoked r.1 = false
          ∧ (∀ x, x ∈ ses → x ∈ sessions r.1)
          ∧ (∀ x, x ∈ cap → x ∈ caps r.1)) as (H1 & H2 & H3 & H4 & H5).
  { unfold r, grantAccess.
    destruct (list_find _ gs) as [[i x]|] eqn:Hf; simpl.
    - apply list_find_Some in Hf as (Hi & [Hk Hr] & _).
      repeat split; try done.
      + by eapply elem_of_insert_self.
      + intros y Hy. apply elem_of_uniq, elem_of_app. by right.
      + intros y Hy. apply elem_of_uniq, elem_of_app. by right.
    - repeat split; try done.
      apply elem_of_app. right. by apply list_elem_of_singleton. }
  repeat split; try done.
  intros t s Hc Hs. apply isAuthorized_true. exists r.1. split; [done|].
  left. repeat split; try done.
  - by apply isRevoked_false.
  - by apply H5.
  - destruct Hs as [Hs|Hs]; [left|right]; by apply H4.
Qed.

(** X12.  [revokePeer] throws exactly when no non-revoked grant matches
    the identifier.  When it succeeds the list keeps its length, and no
    key gains an authorisation by it. *)
Theorem revokePeer_only_removes who gs :
  ((∃ err, revokePeer shortKey toLowerCase who gs = inl err)
   ↔ ∀ g, g ∈ gs → activeMatch shortKey toLowerCase who g = false)
  ∧ (∀ gs', revokePeer shortKey toLowerCase who gs = inr gs' →
       length gs' = length gs
       ∧ ∀ t k s, isAuthorized t k s gs' = true →
                  isAuthorized t k s gs = true).
Proof.
  unfold revokePeer.
  destruct (list_find _ gs) as [[i x]|] eqn:Hf.
  - apply list_find_Some in Hf as (Hi & Hact & _). split.
    + split; [by intros [? ?]|]. intros Hall.
      rewrite (Hall x) in Hact; [done|by eapply list_elem_of_lookup_2].
    + intros gs' [= <-]. split; [by rewrite length_insert|].
      intros t k s. rewrite !isAuthorized_true.
      intros (g & Hin & Hg).
      apply elem_of_insert_new in Hin as [->|Hin]; [|by exists g].
      destruct Hg as [(Hr & _)|(Hr & _)]; by simpl in Hr.
  - split; [|done]. split; [|by eexists].
    intros _ g Hin. apply list_find_None in Hf.
    rewrite Forall_forall in Hf. specialize (Hf g Hin).
    by destruct (activeMatch shortKey toLowerCase who g).
Qed.

(** X13.  Revocation takes effect at once: when the store holds at most
    one non-revoked grant per key and no grant lists the key of the
    revoked grant in its key history, [isAuthorized] refuses that key for
    every session from then on. *)
Theorem revokePeer_takes_effect who gs gs' i g :
  list_find (λ g, activeMatch shortKey toLowerCase who g = true) gs
    = Some (i, g) →
  revokePeer shortKey toLowerCase who gs = inr gs' →
  activeUnique gs →
  noHistoryOf (peerKey g) gs →
  ∀ t s, isAuthorized t (peerKey g) s gs' = false.
Proof.
  intros Hf Hr Hu Hh t s. unfold revokePeer in Hr. rewrite Hf in Hr.
  injection Hr as <-.
  apply list_find_Some in Hf as (Hi & Hact & _).
  assert (isRevoked g = false) as Hg.
  { unfold activeMatch in Hact. apply andb_true_iff in Hact as [Hact _].
    by apply negb_true_iff. }
  apply not_true_is_false. rewrite isAuthorized_true.
  intros (g' & Hin & Hg').
  apply list_elem_of_lookup in Hin as [j Hj].
  destruct (decide (i = j)) as [<-|Hne].
  - rewrite list_lookup_insert_eq in Hj by (by eapply lookup_lt_Some).
    injection Hj as <-.
    destruct Hg' as [(Hr & _)|(Hr & _)]; by simpl in Hr.
  - rewrite list_lookup_insert_ne in Hj by done.
    destruct Hg' as [(Hr & _ & _ & Hk)|(_ & _ & _ & hs & h & Hhs & Hhin & Hk & _)].
    + assert (list_find (activeFor (peerKey g)) gs = Some (i, g)) as H1.
      { apply list_find_unique; [apply Hu|done|done]. }
      assert (list_find (activeFor (peerKey g)) gs = Some (j, g')) as H2.
      { apply list_find_unique; [apply Hu|done|].
        split; [done|by apply isRevoked_false]. }
      congruence.
    + eapply Hh; [|done..]. by eapply list_elem_of_lookup_2.
Qed.

End WithIdentity.

(** X9 at work on the store that holds the grant of "B". *)
Lemma active_grants_stay_unique_witness :
  let gs := [Examples.grantOfB] in
  activeUnique (grantAccess 10 "B" ["ops"] ["inject"] None gs).2
  ∧ (∀ gs', revokePeer (λ k, k) Examples.asciiLower "B" gs = inr gs' →
            activeUnique gs')
  ∧ (∀ g' gs',
       updateAccessGrant (λ k, k) Examples.asciiLower "B" [] None gs
       = inr (g', gs') → activeUnique gs').
Proof.
  apply (active_grants_stay_unique (λ k, k) Examples.asciiLower 10 "B"
           ["ops"] ["inject"] None "B" [] None [Examples.grantOfB]).
  intros k. etrans; [apply length_filter|]. simpl. lia.
Defined.

(** X10 at work: granting "C" access leaves "B" authorised. *)
Lemma grantAccess_keeps_authorization_witness :
  isAuthorized 50 "B" "dev" [Examples.grantOfB] = true
  ∧ isAuthorized 50 "B" "dev"
      (grantAccess 10 "C" ["ops"] ["inject"] None [Examples.grantOfB]).2
    = true.
Proof.
  split; [by vm_compute|].
  apply (grantAccess_keeps_authorization 10 "C" ["ops"] ["inject"] None
           [Examples.grantOfB] 50 "B" "dev").
  by vm_compute.
Defined.

(** X13 at work: "B" is revoked. *)
Lemma revokePeer_takes_effect_witness :
  revokePeer (λ k, k) Examples.asciiLower "B" [Examples.grantOfB]
  = inr [revokedGrant Examples.grantOfB]
  ∧ ∀ t s, isAuthorized t "B" s [revokedGrant Examples.grantOfB] = false.
Proof.
  split; [by vm_compute|].
  apply (revokePeer_takes_effect (λ k, k) Examples.asciiLower "B"
           [Examples.grantOfB] [revokedGrant Examples.grantOfB] 0%nat
           Examples.grantOfB).
  - by vm_compute.
  - by vm_compute.
  - intros k. etrans; [apply length_filter|]. simpl. lia.
  - intros g hs h Hg. apply list_elem_of_singleton in Hg as ->. done.
Defined.

End TrustMore.

Module HistoryMore.
Import Trust TrustFacts ListFacts TrustOps TrustMoreFacts TrustMore.

Lemma filter_length_all {A} (P : A → Prop) `{∀ x, Decision (P x)}
    (l : list A) :
  length (filter P l) = length l → Forall P l.
Proof.
  induction l as [|a l IH]; intros Hlen; [constructor|].
  destruct (decide (P a)) as [Ha|Ha].
  - rewrite filter_cons_True in Hlen by done. simpl in Hlen.
    constructor; [done|]. apply IH. lia.
  - rewrite filter_cons_False in Hlen by done.
    pose proof (length_filter P l). simpl in Hlen. lia.
Qed.

Lemma cleanGrant_current now k s g :
  currentGrant k s (cleanGrant now g) ↔ currentGrant k s g.
Proof. unfold cleanGrant. by destruct (keyHistory g). Qed.

Lemma cleanGrant_grace now t k s g :
  now ≤ t → graceGrant t k s (cleanGrant now g) ↔ graceGrant t k s g.
Proof.
  intros Hle. unfold cleanGrant, graceGrant.
  destruct (keyHistory g) as [hs|] eqn:Hh; simpl; [|by rewrite Hh].
  split.
  - intros (Hr & Hc & Hs & hs' & h & [= <-] & Hin & Hrest).
    apply list_elem_of_filter in Hin as [_ Hin].
    repeat split; try done. by exists hs, h.
  - intros (Hr & Hc & Hs & hs' & h & [= <-] & Hin & Hk & Hv & Hn).
    repeat split; try done. eexists _, h. split; [done|].
    split; [|done]. apply list_elem_of_filter. split; [|done].
    right. lia.
Qed.

(** X14.  [cleanupExpiredKeyHistory] changes no authorisation decision:
    for the time of the cleanup and any later time, [isAuthorized] gives
    the same answer on the cleaned grants as on the grants before, for
    every key and session. *)
Theorem cleanup_keeps_decisions now st t k s :
  now ≤ t →
  isAuthorized t k s (grants (cleanupExpiredKeyHistory now st))
  = isAuthorized t k s (grants st).
Proof.
  intros Hle. unfold cleanupExpiredKeyHistory.
  destruct (existsb _ (grants st) || existsb _ (peers st)); [|done].
  simpl. apply bool_eq_iff. rewrite !isAuthorized_true. split.
  - intros (g' & Hin & Hg). apply list_elem_of_fmap in Hin as (g & -> & Hin).
    exists g. split; [done|].
    destruct Hg as [Hg|Hg]; [left|right].
    + by apply cleanGrant_current in Hg.
    + by apply cleanGrant_grace in Hg.
  - intros (g & Hin & Hg). exists (cleanGrant now g).
    split; [by apply list_elem_of_fmap_2|].
    destruct Hg as [Hg|Hg]; [left|right].
    + by apply cleanGrant_current.
    + by apply cleanGrant_grace.
Qed.

Lemma shrinks_clean now hs :
  shrinks now (Some (filter (unexpired now) hs)) = false.
Proof.
  unfold shrinks. apply negb_false_iff, bool_decide_eq_true.
  by rewrite list_filter_filter, (list_filter_iff _ (unexpired now))
    by (intros; tauto).
Qed.

Lemma existsb_false {A} (f : A → bool) (l : list A) :
  (∀ x, x ∈ l → f x = false) → existsb f l = false.
Proof.
  induction l as [|a l IH]; intros Hall; [done|]. simpl.
  rewrite (Hall a) by left. simpl. apply IH. intros x Hx. apply Hall.
  by right.
Qed.

Lemma existsb_false_inv {A} (f : A → bool) (l : list A) x :
  existsb f l = false → x ∈ l → f x = false.
Proof.
  induction l as [|a l IH]; intros He Hx; [by apply elem_of_nil in Hx|].
  simpl in He. apply orb_false_iff in He as [Ha He].
  apply elem_of_cons in Hx as [->|Hx]; [done|by apply IH].
Qed.

(** X15.  [cleanupExpiredKeyHistory] is idempotent, and after it every
    history entry left in a grant or a peer has [validUntil] later than
    the time of the cleanup, or no [validUntil] at all (0). *)
Theorem cleanup_is_idempotent now st :
  let st1 := cleanupExpiredKeyHistory now st in
  cleanupExpiredKeyHistory now st1 = st1
  ∧ (∀ g hs h, g ∈ grants st1 → keyHistory g = Some hs → h ∈ hs →
               validUntil h = 0 ∨ now < validUntil h)
  ∧ (∀ p hs h, p ∈ peers st1 → p_keyHistory p = Some hs → h ∈ hs →
               validUntil h = 0 ∨ now < validUntil h).
Proof.
  intros st1.
  assert (existsb (λ g, shrinks now (keyHistory g)) (grants st1) = false
          ∧ existsb (λ p, shrinks now (p_keyHistory p)) (peers st1) = false)
    as [Hg Hp].
  { unfold st1, cleanupExpiredKeyHistory.
    destruct (existsb _ (grants st) || existsb _ (peers st)) eqn:Hm.
    - simpl. split; apply existsb_false; intros x Hx;
        apply list_elem_of_fmap in Hx as (y & -> & _).
      + unfold cleanGrant. destruct (keyHistory y) eqn:Hy; simpl.
        * apply shrinks_clean.
        * by rewrite Hy.
      + unfold cleanPeer. destruct (p_keyHistory y) eqn:Hy; simpl.
        * apply shrinks_clean.
        * by rewrite Hy.
    - by apply orb_false_iff in Hm. }
  split; [|split].
  - unfold cleanupExpiredKeyHistory at 1. by rewrite Hg, Hp.
  - intros g hs h Hin Hhs Hh.
    pose proof (existsb_false_inv _ _ g Hg Hin) as Hs. simpl in Hs.
    rewrite Hhs in Hs. unfold shrinks in Hs.
    apply negb_false_iff, bool_decide_eq_true in Hs.
    apply filter_length_all in Hs. rewrite Forall_forall in Hs.
    by apply Hs.
  - intros p hs h Hin Hhs Hh.
    pose proof (existsb_false_inv _ _ p Hp Hin) as Hs. simpl in Hs.
    rewrite Hhs in Hs. unfold shrinks in Hs.
    apply negb_false_iff, bool_decide_eq_true in Hs.
    apply filter_length_all in Hs. rewrite Forall_forall in Hs.
    by apply Hs.
Qed.

Section WithIdentity.

Variable shortKey : string → string.
Variable verifyKeyRotation : KeyRotation → bool.

Lemma rotation_store r st :
  (processPeerKeyRotation shortKey verifyKeyRotation r st).2
  = if verifyKeyRotation r then rotated shortKey r st else st.
Proof.
  unfold processPeerKeyRotation. by destruct (verifyKeyRotation r).
Qed.

Lemma rotation_answer r st :
  (processPeerKeyRotation shortKey verifyKeyRotation r st).1
  = verifyKeyRotation r
    && (bool_decide (is_Some (list_find (grantOf r) (grants st)))
        || bool_decide (is_Some (list_find (peerOf r) (peers st)))).
Proof.
  unfold processPeerKeyRotation. by destruct (verifyKeyRotation r).
Qed.

(** X16.  A rotation that [processPeerKeyRotation] answers false leaves
    the grants and the peers exactly as they were; this is the case
    whenever the record fails verification, and also when it verifies but
    no non-revoked grant and no peer carries the old key.  An accepted
    rotation changes no list length. *)
Theorem refused_rotation_changes_nothing r st :
  let res := processPeerKeyRotation shortKey verifyKeyRotation r st in
  (res.1 = false → res.2 = st)
  ∧ (verifyKeyRotation r = false → res.1 = false)
  ∧ (list_find (grantOf r) (grants st) = None →
     list_find (peerOf r) (peers st) = None → res.1 = false)
  ∧ length (grants res.2) = length (grants st)
  ∧ length (peers res.2) = length (peers st).
Proof.
  intros res. unfold res. rewrite rotation_answer, rotation_store.
  destruct (verifyKeyRotation r); simpl; [|done].
  split; [|split; [done|split]].
  - intros Hb. apply orb_false_iff in Hb as [H1 H2].
    apply bool_decide_eq_false in H1, H2. unfold rotated.
    destruct (list_find (grantOf r) (grants st)) as [[i g]|];
      [exfalso; apply H1; by eexists|].
    destruct (list_find (peerOf r) (peers st)) as [[j p]|];
      [exfalso; apply H2; by eexists|].
    by destruct st.
  - intros -> ->. rewrite !bool_decide_eq_false_2; [done|by intros [? ?]..].
  - unfold rotated. simpl.
    destruct (list_find (grantOf r) (grants st)) as [[i g]|];
      destruct (list_find (peerOf r) (peers st)) as [[j p]|];
      by rewrite ?length_insert.
Qed.

(** X17.  The grace period: once a verified rotation was applied to the
    grant of the old key, the new key is authorised for the sessions of
    that grant, and the old key stays authorised for them at every time
    [0 ≤ now < effectiveAt + gracePeriodMs], the two numbers of the
    record and their sum being safe integers, of magnitude at most 2^53,
    so that the code's sum is exact and survives the JSON store. *)
Theorem rotation_grace r st i g s :
  verifyKeyRotation r = true →
  list_find (grantOf r) (grants st) = Some (i, g) →
  "inject" ∈ caps g →
  "*" ∈ sessions g ∨ s ∈ sessions g →
  safeInt (effectiveAt r) →
  safeInt (gracePeriodMs r) →
  safeInt (effectiveAt r + gracePeriodMs r) →
  let gs' := grants (processPeerKeyRotation shortKey verifyKeyRotation r
                       st).2 in
  (∀ now, isAuthorized now (newSignPub r) s gs' = true)
  ∧ (∀ now, 0 ≤ now < effectiveAt r + gracePeriodMs r →
            isAuthorized now (oldSignPub r) s gs' = true).
Proof.
  intros Hv Hf Hc Hs _ _ _ gs'. unfold gs'. rewrite rotation_store, Hv.
  unfold rotated. rewrite Hf. simpl.
  apply list_find_Some in Hf as (Hi & [Hk Hr] & _).
  assert (rotateGrant r g ∈ <[i := rotateGrant r g]> (grants st)) as Hin
    by by eapply elem_of_insert_self.
  split; intros now.
  - apply isAuthorized_true. exists (rotateGrant r g). split; [done|].
    left. repeat split; try done. by apply isRevoked_false.
  - intros Hnow. apply isAuthorized_true. exists (rotateGrant r g).
    split; [done|]. right. repeat split; try done.
    + by apply isRevoked_false.
    + eexists _, _. split; [done|]. split.
      * apply elem_of_app. right. by apply list_elem_of_singleton.
      * simpl. repeat split; [done|lia..].
Qed.

(** X18.  The grace period ends: when the rotation changes the key, the
    old key was carried by one non-revoked grant only and is listed in no
    key history, then from [effectiveAt + gracePeriodMs] on the old key is
    authorised for no session. *)
Theorem rotation_grace_ends r st i g :
  verifyKeyRotation r = true →
  list_find (grantOf r) (grants st) = Some (i, g) →
  oldSignPub r ≠ newSignPub r →
  (length (filter (grantOf r) (grants st)) ≤ 1)%nat →
  noHistoryOf (oldSignPub r) (grants st) →
  ∀ now s, effectiveAt r + gracePeriodMs r ≤ now →
    isAuthorized now (oldSignPub r) s
      (grants (processPeerKeyRotation shortKey verifyKeyRotation r st).2)
    = false.
Proof.
  intros Hv Hf Hne Hu Hh now s Hnow. rewrite rotation_store, Hv.
  unfold rotated. rewrite Hf. simpl.
  apply list_find_Some in Hf as (Hi & [Hk Hr] & _).
  apply not_true_is_false. rewrite isAuthorized_true.
  intros (g' & Hin & Hg').
  apply list_elem_of_lookup in Hin as [j Hj].
  destruct (decide (i = j)) as [<-|Hij].
  - rewrite list_lookup_insert_eq in Hj by (by eapply lookup_lt_Some).
    injection Hj as <-.
    destruct Hg' as [(_ & _ & _ & Hk')|(_ & _ & _ & hs & h & Hhs & Hhin & Hk' & _ & Hn)].
    + simpl in Hk'. congruence.
    + simpl in Hhs. injection Hhs as <-.
      apply elem_of_app in Hhin as [Hhin|Hhin].
      * destruct (keyHistory g) as [hs0|] eqn:Hg0; simpl in Hhin.
        -- eapply (Hh g hs0 h); [by eapply list_elem_of_lookup_2|done..].
        -- by apply elem_of_nil in Hhin.
      * apply list_elem_of_singleton in Hhin as ->. simpl in Hn. lia.
  - rewrite list_lookup_insert_ne in Hj by done.
    destruct Hg' as [(Hr' & _ & _ & Hk')|(_ & _ & _ & hs & h & Hhs & Hhin & Hk' & _)].
    + assert (list_find (grantOf r) (grants st) = Some (i, g)) as H1.
      { by apply list_find_unique. }
      assert (list_find (grantOf r) (grants st) = Some (j, g')) as H2.
      { apply list_find_unique; [done|done|].
        split; [done|by apply isRevoked_false]. }
      congruence.
    + eapply Hh; [|done..]. by eapply list_elem_of_lookup_2.
Qed.

End WithIdentity.

(** X14 at work: the cleanup at 200 drops the entry that expired at 100,
    and the decision at 300 is the same. *)
Lemma cleanup_keeps_decisions_witness :
  let st := mkStore [MoreExamples.grantRotated] [] in
  keyHistory <$> grants (cleanupExpiredKeyHistory 200 st) = [Some []]
  ∧ isAuthorized 300 "OLD" "dev" (grants (cleanupExpiredKeyHistory 200 st))
    = isAuthorized 300 "OLD" "dev" (grants st).
Proof.
  split; [by vm_compute|].
  apply (cleanup_keeps_decisions 200
           (mkStore [MoreExamples.grantRotated] []) 300 "OLD" "dev").
  by vm_compute.
Defined.

(** X17 at work: "K" rotates to "K2" at 1000 with a grace period of
    500. *)
Lemma rotation_grace_witness :
  let gs' := grants (processPeerKeyRotation (λ k, k) (λ _, true)
                       MoreExamples.rotationK
                       (mkStore [MoreExamples.grantOfK] [])).2 in
  (∀ now, isAuthorized now "K2" "dev" gs' = true)
  ∧ (∀ now, 0 ≤ now < 1500 → isAuthorized now "K" "dev" gs' = true).
Proof.
  apply (rotation_grace (λ k, k) (λ _, true) MoreExamples.rotationK
           (mkStore [MoreExamples.grantOfK] []) 0%nat MoreExamples.grantOfK
           "dev").
  - done.
  - by vm_compute.
  - apply includes_true. by vm_compute.
  - right. apply includes_true. by vm_compute.
  - by vm_compute.
  - by vm_compute.
  - by vm_compute.
Defined.

(** X18 at work: at 1500 the old key "K" is refused. *)
Lemma rotation_grace_ends_witness :
  isAuthorized 1499 "K" "dev"
    (grants (processPeerKeyRotation (λ k, k) (λ _, true)
               MoreExamples.rotationK
               (mkStore [MoreExamples.grantOfK] [])).2) = true
  ∧ isAuthorized 1500 "K" "dev"
      (grants (processPeerKeyRotation (λ k, k) (λ _, true)
                 MoreExamples.rotationK
                 (mkStore [MoreExamples.grantOfK] [])).2) = false.
Proof.
  split; [by vm_compute|].
  apply (rotation_grace_ends (λ k, k) (λ _, true) MoreExamples.rotationK
           (mkStore [MoreExamples.grantOfK] []) 0%nat MoreExamples.grantOfK).
  - done.
  - by vm_compute.
  - done.
  - vm_compute. lia.
  - intros g hs h Hg. apply list_elem_of_singleton in Hg as ->. done.
  - by vm_compute.
Defined.

End HistoryMore.

Module KeysMore.
Import Trust TrustFacts ListFacts TrustOps TrustMoreFacts.

Lemma pushKeys_spec hs :
  ∀ keys, NoDup keys →
  (∃ rest, pushKeys keys hs = keys ++ rest)
  ∧ NoDup (pushKeys keys hs)
  ∧ ∀ x, x ∈ pushKeys keys hs
         ↔ x ∈ keys ∨ ∃ h, h ∈ hs ∧ publicKey h = x.
Proof.
  induction hs as [|h hs IH]; intros keys Hnd.
  - simpl. split; [exists []; by rewrite app_nil_r|]. split; [done|].
    intros x. split; [by left|]. intros [?|(h & Hh & _)]; [done|].
    by apply elem_of_nil in Hh.
  - unfold pushKeys. simpl. fold (pushKeys
      (if includes (publicKey h) keys then keys else keys ++ [publicKey h])
      hs).
    destruct (includes (publicKey h) keys) eqn:Hi.
    + apply includes_true in Hi.
      destruct (IH keys Hnd) as ([rest Hr] & Hn & He).
      split; [by exists rest|]. split; [done|].
      intros x. rewrite He. split.
      * intros [?|(h' & Hh' & Hx)]; [by left|].
        right. exists h'. split; [by right|done].
      * intros [?|(h' & Hh' & Hx)]; [by left|].
        apply elem_of_cons in Hh' as [-> |Hh']; [left; by subst|].
        right. by exists h'.
    + assert (publicKey h ∉ keys) as Hni.
      { intros Hin. apply includes_true in Hin. congruence. }
      destruct (IH (keys ++ [publicKey h])) as ([rest Hr] & Hn & He).
      { apply NoDup_app. split; [done|]. split.
        - intros x Hx Hx'. apply list_elem_of_singleton in Hx'. by subst.
        - apply NoDup_singleton. }
      split; [exists (publicKey h :: rest); by rewrite Hr, <- app_assoc|].
      split; [done|].
      intros x. rewrite He, elem_of_app, list_elem_of_singleton. split.
      * intros [[?| ->]|(h' & Hh' & Hx)].
        -- by left.
        -- right. exists h. split; [left|done].
        -- right. exists h'. split; [by right|done].
      * intros [?|(h' & Hh' & Hx)]; [by left; left|].
        apply elem_of_cons in Hh' as [-> |Hh']; [left; by right|].
        right. by exists h'.
Qed.

(** The loops of [getAllPeerKeys] over the grants and over the peers. *)
Lemma pushAll_spec {A} (cond : A → bool) (hist : A → list KeyHistory)
    (l : list A) :
  ∀ keys, NoDup keys →
  let res := foldl (λ keys a, if cond a then pushKeys keys (hist a) else keys)
                   keys l in
  (∃ rest, res = keys ++ rest)
  ∧ NoDup res
  ∧ ∀ x, x ∈ res
         ↔ x ∈ keys
           ∨ ∃ a h, a ∈ l ∧ cond a = true ∧ h ∈ hist a ∧ publicKey h = x.
Proof.
  induction l as [|a l IH]; intros keys Hnd; simpl.
  - split; [exists []; by rewrite app_nil_r|]. split; [done|].
    intros x. split; [by left|]. intros [?|(a & h & Ha & _)]; [done|].
    by apply elem_of_nil in Ha.
  - destruct (cond a) eqn:Hc.
    + destruct (pushKeys_spec (hist a) keys Hnd) as ([r1 Hr1] & Hn1 & He1).
      destruct (IH _ Hn1) as ([r2 Hr2] & Hn2 & He2).
      split; [exists (r1 ++ r2); by rewrite Hr2, Hr1, <- app_assoc|].
      split; [done|].
      intros x. rewrite He2, He1. split.
      * intros [[?|(h & Hh & Hx)]|(a' & h & Ha' & Hrest)].
        -- by left.
        -- right. exists a, h. split; [left|done].
        -- right. exists a', h. split; [by right|done].
      * intros [?|(a' & h & Ha' & Hc' & Hh & Hx)]; [by left; left|].
        apply elem_of_cons in Ha' as [-> |Ha'].
        -- left. right. by exists h.
        -- right. by exists a', h.
    + destruct (IH _ Hnd) as ([r2 Hr2] & Hn2 & He2).
      split; [by exists r2|]. split; [done|].
      intros x. rewrite He2. split.
      * intros [?|(a' & h & Ha' & Hrest)]; [by left|].
        right. exists a', h. split; [by right|done].
      * intros [?|(a' & h & Ha' & Hc' & Hrest)]; [by left|].
        apply elem_of_cons in Ha' as [-> |Ha']; [congruence|].
        right. by exists a', h.
Qed.

Lemma history_cond (key cur : string) (o : option (list KeyHistory)) h :
  bool_decide (cur = key) && negb (noHistory o) = true ∧ h ∈ default [] o
  ↔ cur = key ∧ ∃ hs, o = Some hs ∧ h ∈ hs.
Proof.
  rewrite andb_true_iff, bool_decide_eq_true.
  destruct o as [hs|]; simpl; split.
  - intros [[? _] ?]. split; [done|]. by exists hs.
  - intros [? (hs' & [= <-] & ?)]. done.
  - intros [[_ [=]] _].
  - intros [_ (hs' & [=] & _)].
Qed.

(** X19.  [getAllPeerKeys(k)] lists [k] first and every key once: the
    keys after [k] are exactly the keys in the histories of the grants
    (revoked or not) and of the peers whose current key is [k]. *)
Theorem getAllPeerKeys_lists_each_key_once k st :
  let keys := getAllPeerKeys k st in
  head keys = Some k
  ∧ NoDup keys
  ∧ ∀ x, x ∈ keys
         ↔ x = k
           ∨ (∃ g hs h, g ∈ grants st ∧ peerKey g = k
                        ∧ keyHistory g = Some hs ∧ h ∈ hs
                        ∧ publicKey h = x)
           ∨ (∃ p hs h, p ∈ peers st ∧ p_publicKey p = k
                        ∧ p_keyHistory p = Some hs ∧ h ∈ hs
                        ∧ publicKey h = x).
Proof.
  intros keys. unfold keys, getAllPeerKeys.
  destruct (pushAll_spec
              (λ g, bool_decide (peerKey g = k)
                    && negb (noHistory (keyHistory g)))
              (λ g, default [] (keyHistory g)) (grants st) [k])
    as ([r1 Hr1] & Hn1 & He1); [apply NoDup_singleton|].
  simpl in Hr1, Hn1, He1. rewrite Hr1 in *.
  destruct (pushAll_spec
              (λ p, bool_decide (p_publicKey p = k)
                    && negb (noHistory (p_keyHistory p)))
              (λ p, default [] (p_keyHistory p)) (peers st) ([k] ++ r1))
    as ([r2 Hr2] & Hn2 & He2); [done|].
  simpl in Hr2, Hn2, He2. split; [by rewrite Hr2|]. split; [done|].
  intros x. rewrite He2, He1, list_elem_of_singleton. split.
  - intros [[?|(g & h & Hg & Hc & Hh & Hx)]|(p & h & Hp & Hc & Hh & Hx)].
    + by left.
    + right. left.
      destruct (proj1 (history_cond k (peerKey g) (keyHistory g) h)
                  (conj Hc Hh)) as (Hk & hs & Hhs & Hin).
      by exists g, hs, h.
    + right. right.
      destruct (proj1 (history_cond k (p_publicKey p)
                         (p_keyHistory p) h)
                  (conj Hc Hh)) as (Hk & hs & Hhs & Hin).
      by exists p, hs, h.
  - intros [?|[(g & hs & h & Hg & Hk & Hhs & Hin & Hx)
              |(p & hs & h & Hp & Hk & Hhs & Hin & Hx)]].
    + by left; left.
    + left. right. exists g, h.
      destruct (proj2 (history_cond k (peerKey g) (keyHistory g) h))
        as [Hc Hh]; [split; [done|by exists hs]|]. done.
    + right. exists p, h.
      destruct (proj2 (history_cond k (p_publicKey p)
                         (p_keyHistory p) h))
        as [Hc Hh]; [split; [done|by exists hs]|]. done.
Qed.

End KeysMore.

(* ===================================================================== *)
(** * Further properties of the peers and of the invites                  *)
(* ===================================================================== *)

Module PeersFacts.
Import Trust TrustFacts ListFacts TrustOps TrustMoreFacts MoreListFacts.

Lemma list_find_insert_same {A} (P : A → Prop) `{∀ x, Decision (P x)}
    (l : list A) i x y :
  list_find P l = Some (i, x) → P y →
  list_find P (<[i := y]> l) = Some (i, y).
Proof.
  intros Hf Hy. apply list_find_Some in Hf as (Hi & Hx & Hbefore).
  apply list_find_Some. split.
  { apply list_lookup_insert_eq. by eapply lookup_lt_Some. }
  split; [done|]. intros j z Hj Hlt.
  rewrite list_lookup_insert_ne in Hj by lia. by eapply Hbefore.
Qed.

Lemma list_find_snoc {A} (P : A → Prop) `{∀ x, Decision (P x)}
    (l : list A) y :
  list_find P l = None → P y →
  list_find P (l ++ [y]) = Some (length l, y).
Proof.
  intros Hn Hy. apply list_find_None in Hn. rewrite Forall_forall in Hn.
  apply list_find_Some. split.
  { rewrite lookup_app_r by lia. by rewrite Nat.sub_diag. }
  split; [done|]. intros j z Hj Hlt.
  rewrite lookup_app_l in Hj by done. apply Hn.
  by eapply list_elem_of_lookup_2.
Qed.

Lemma list_find_is_Some {A} (P : A → Prop) `{∀ x, Decision (P x)}
    (l : list A) x :
  x ∈ l → P x → ∃ i y, list_find P l = Some (i, y).
Proof.
  intros Hin Hx. destruct (list_find P l) as [[i y]|] eqn:Hf; [by eauto|].
  apply list_find_None in Hf. rewrite Forall_forall in Hf.
  by destruct (Hf x Hin).
Qed.

Lemma historyPeer_None who ps :
  noPeerHistoryOf who ps → historyPeer who ps = None.
Proof.
  induction ps as [|a ps IH]; intros Hn; simpl; [done|].
  assert (noPeerHistoryOf who ps) as Hrest.
  { intros p hs h Hp. apply Hn. by right. }
  destruct (noHistory (p_keyHistory a)); [by apply IH|].
  rewrite bool_decide_eq_false_2; [by apply IH|].
  intros Hex. apply Exists_exists in Hex as (h & Hin & Hk).
  destruct (p_keyHistory a) as [hs|] eqn:Hh; simpl in Hin.
  - eapply (Hn a hs h); [left|done..].
  - by apply elem_of_nil in Hin.
Qed.

Lemma filter_length_Forall {A} (P : A → Prop) `{∀ x, Decision (P x)}
    (l : list A) :
  length (filter P l) = length l ↔ Forall P l.
Proof.
  split.
  - induction l as [|a l IH]; intros Hlen; [constructor|].
    destruct (decide (P a)) as [Ha|Ha].
    + rewrite filter_cons_True in Hlen by done. simpl in Hlen.
      constructor; [done|]. apply IH. lia.
    + rewrite filter_cons_False in Hlen by done.
      pose proof (length_filter P l). simpl in Hlen. lia.
  - intros Hall. by rewrite filter_all.
Qed.

Lemma peerMatch_spec lower who p :
  peerMatch lower who p = true
  ↔ p_id p = who ∨ sameName lower (p_name p) who = true ∨ p_publicKey p = who.
Proof.
  unfold peerMatch. rewrite !orb_true_iff, !bool_decide_eq_true. tauto.
Qed.

(** [findPeer] finds nothing when no peer matches directly or through
    its history. *)
Lemma findPeer_None lower who ps :
  (∀ p, p ∈ ps → peerMatch lower who p = false) →
  noPeerHistoryOf who ps →
  findPeer lower who ps = None.
Proof.
  intros Hno Hh. unfold findPeer.
  destruct (list_find _ ps) as [[i p]|] eqn:Hf.
  - apply list_find_Some in Hf as (Hi & Hp & _).
    apply list_elem_of_lookup_2 in Hi. apply Hno in Hi.
    apply peerMatch_spec in Hp. congruence.
  - by apply historyPeer_None.
Qed.

End PeersFacts.

Module PeersMore.
Import Trust TrustFacts ListFacts TrustOps TrustMoreFacts MoreListFacts.
Import P2P PeersFacts.

(** X20.  [addPeer(k, ...)] keeps the public keys of the peers distinct:
    it merges into the peer that has the key [k], or appends one when
    there is none.  The peer it returns is stored, has the key [k], lists
    every session and capability passed, has the encryption key passed
    when one is, and, no peer having [k] as its id or name, is what
    [findPeer(k)] then answers with; peers with another key stay. *)
Theorem addPeer_keeps_keys_unique shortKey lower now k ses cap enc ps :
  let r := addPeer shortKey now k ses cap enc ps in
  (NoDup (p_publicKey <$> ps) → NoDup (p_publicKey <$> r.2))
  ∧ r.1 ∈ r.2
  ∧ p_publicKey r.1 = k
  ∧ (∀ x, x ∈ ses → x ∈ p_sessions r.1)
  ∧ (∀ x, x ∈ cap → x ∈ p_caps r.1)
  ∧ (truthyS enc = true → p_encryptPub r.1 = enc)
  ∧ (∀ p, p ∈ ps → p_publicKey p ≠ k → p ∈ r.2)
  ∧ ((∀ p, p ∈ ps → p_id p ≠ k ∧ sameName lower (p_name p) k = false) →
     findPeer lower k r.2 = Some r.1).
Proof.
  intros r. unfold r, addPeer.
  destruct (list_find _ ps) as [[i old]|] eqn:Hf; simpl.
  - pose proof Hf as Hf'.
    apply list_find_Some in Hf' as (Hi & Hk & Hbefore).
    set (new := mkPeer _ _ _ _ _ _ _ _).
    assert (p_publicKey <$> <[i := new]> ps = p_publicKey <$> ps) as Hkeys.
    { rewrite list_fmap_insert. apply list_insert_id.
      by rewrite list_lookup_fmap, Hi. }
    split; [by rewrite Hkeys|].
    split; [by eapply elem_of_insert_self|].
    split; [done|].
    split; [intros x Hx; apply elem_of_uniq, elem_of_app; by right|].
    split; [intros x Hx; apply elem_of_uniq, elem_of_app; by right|].
    split; [by intros ->|].
    split.
    { intros p Hp Hne.
      destruct (elem_of_insert_old ps i old new p Hi Hp) as [->|?];
        [congruence|done]. }
    intros Hnames. unfold findPeer.
    assert (list_find
              (λ p, p_id p = k ∨ sameName lower (p_name p) k = true
                    ∨ p_publicKey p = k) (<[i := new]> ps)
            = Some (i, new)) as ->; [|done].
    apply list_find_Some. split.
    { apply list_lookup_insert_eq. by eapply lookup_lt_Some. }
    split; [by right; right|].
    intros j z Hj Hlt. rewrite list_lookup_insert_ne in Hj by lia.
    pose proof (list_elem_of_lookup_2 _ _ _ Hj) as Hz.
    destruct (Hnames z Hz) as [Hid Hname].
    intros [?|[?|?]]; [done|congruence|]. by eapply Hbefore.
  - pose proof Hf as Hf'. apply list_find_None in Hf'.
    rewrite Forall_forall in Hf'.
    split.
    { intros Hnd. rewrite fmap_app. apply NoDup_app. split; [done|].
      split; [|apply NoDup_singleton].
      intros x Hx Hx'. apply list_elem_of_singleton in Hx'. subst x.
      apply list_elem_of_fmap in Hx as (p & Hp & Hin). by apply (Hf' p). }
    split; [apply elem_of_app; right; by apply list_elem_of_singleton|].
    split; [done|]. split; [done|]. split; [done|]. split; [done|].
    split; [intros p Hp _; apply elem_of_app; by left|].
    intros Hnames. unfold findPeer.
    rewrite (list_find_snoc _ ps (mkPeer (shortKey k) None k enc ses cap now None));
      [done| |by right; right].
    apply list_find_None, Forall_forall. intros p Hp [?|[?|?]].
    + by destruct (Hnames p Hp).
    + destruct (Hnames p Hp). congruence.
    + by apply (Hf' p).
Qed.

(** X21.  [forgetPeer(who)] throws exactly when no peer has [who] as its
    id, its key or, case-insensitively, its name.  Otherwise it removes
    every such peer and no other; forgetting [who] again then throws,
    and, [who] being in no key history, [sendP2PInject] to [who] returns
    Invalid "Peer not found" without opening a swarm. *)
Theorem forgetPeer_forgets (E : Externals) who ps :
  ((∃ err, forgetPeer (toLowerCase E) who ps = inl err)
   ↔ ∀ p, p ∈ ps → peerMatch (toLowerCase E) who p = false)
  ∧ ∀ ps', forgetPeer (toLowerCase E) who ps = inr ps' →
      (∀ p, p ∈ ps' ↔ p ∈ ps ∧ peerMatch (toLowerCase E) who p = false)
      ∧ (∃ err, forgetPeer (toLowerCase E) who ps' = inl err)
      ∧ (noPeerHistoryOf who ps →
         ∀ me s text,
           sendP2PInject E (Some me) ps' who s text
           = Return (mkResult EXIT_INVALID
                       (Some ("Peer not found: " +:+ who)))).
Proof.
  unfold forgetPeer. split.
  - case_bool_decide as Hlen.
    + split; [intros _|by eauto].
      apply filter_length_Forall in Hlen. by rewrite Forall_forall in Hlen.
    + split; [by intros [? ?]|]. intros Hall. destruct Hlen.
      apply filter_length_Forall. by apply Forall_forall.
  - intros ps'. case_bool_decide as Hlen; [done|]. intros [= <-].
    assert (∀ p, p ∈ filter (λ p, peerMatch (toLowerCase E) who p = false) ps
                 ↔ p ∈ ps ∧ peerMatch (toLowerCase E) who p = false) as Hin.
    { intros p. rewrite list_elem_of_filter. tauto. }
    split; [done|]. split.
    + rewrite bool_decide_eq_true_2; [by eauto|].
      apply filter_length_Forall, Forall_forall. intros p Hp.
      by apply Hin in Hp as [_ ?].
    + intros Hh me s text. unfold sendP2PInject.
      rewrite findPeer_None; [done| |].
      * intros p Hp. by apply Hin in Hp as [_ ?].
      * intros p hs h Hp. apply Hin in Hp as [Hp _]. by apply Hh.
Qed.

(** X22.  [namePeer(who, name)] throws exactly when no peer has [who] as
    its id or its key.  Otherwise it changes no key and removes no peer,
    a peer with id or key [who] carries the name, and [findPeer] answers
    every query that equals the name up to case. *)
Theorem namePeer_then_found lower who name ps :
  ((∃ err, namePeer who name ps = inl err)
   ↔ ∀ p, p ∈ ps → p_id p ≠ who ∧ p_publicKey p ≠ who)
  ∧ ∀ ps', namePeer who name ps = inr ps' →
      length ps' = length ps
      ∧ p_publicKey <$> ps' = p_publicKey <$> ps
      ∧ (∃ p, p ∈ ps' ∧ p_name p = Some name
              ∧ (p_id p = who ∨ p_publicKey p = who))
      ∧ ∀ query, lower query = lower name →
          ∃ p, findPeer lower query ps' = Some p ∧ p ∈ ps'.
Proof.
  unfold namePeer.
  destruct (list_find _ ps) as [[i old]|] eqn:Hf.
  - apply list_find_Some in Hf as (Hi & Hold & _). split.
    + split; [by intros [? ?]|]. intros Hall.
      destruct (Hall old (list_elem_of_lookup_2 _ _ _ Hi)).
      by destruct Hold.
    + intros ps' [= <-].
      assert (withName (Some name) old ∈ <[i := withName (Some name) old]> ps)
        as Hin by by eapply elem_of_insert_self.
      split; [by rewrite length_insert|]. split.
      { rewrite list_fmap_insert. apply list_insert_id.
        by rewrite list_lookup_fmap, Hi. }
      split; [by exists (withName (Some name) old)|].
      intros query Hq. unfold findPeer.
      destruct (list_find_is_Some
                  (λ p, p_id p = query
                        ∨ sameName lower (p_name p) query = true
                        ∨ p_publicKey p = query)
                  _ _ Hin) as (j & p & Hj).
      { right. left. simpl. by apply bool_decide_eq_true. }
      rewrite Hj. exists p. split; [done|].
      apply list_find_Some in Hj as (Hj & _).
      by eapply list_elem_of_lookup_2.
  - apply list_find_None in Hf. rewrite Forall_forall in Hf.
    split; [|done]. split; [intros _|by eauto].
    intros p Hp. specialize (Hf p Hp). tauto.
Qed.

(** X23.  An invite alone does not let the holder send: [useInvite] of a
    token whose issuer matches no peer yet appends a peer without
    encryption key, so [sendP2PInject] to the issuer returns before a
    swarm is created, whatever the session.  After the [addPeer] that
    [claimToken] does on the acknowledgement, with the issuer's
    encryption key, [sendP2PInject] goes on to the swarm for every
    session of the token. *)
Theorem invited_peer_needs_claim (E : Externals) initId now tokenStr tok
    identity ps :
  parseInviteToken E now tokenStr = inr tok →
  (∀ p, p ∈ ps → peerMatch (toLowerCase E) (iss tok) p = false) →
  ∃ peer,
    useInvite (shortKey E) (parseInviteToken E) initId now tokenStr
              identity ps
    = inr (peer, ps ++ [peer], Some (default initId identity))
    ∧ p_publicKey peer = iss tok
    ∧ p_encryptPub peer = None
    ∧ (∀ me s text, ∃ r,
         sendP2PInject E me (ps ++ [peer]) (iss tok) s text = Return r)
    ∧ ∀ now' enc me s text,
        enc ≠ EmptyString →
        "*" ∈ ses tok ∨ s ∈ ses tok →
        ∃ peer',
          addPeer (shortKey E) now' (iss tok) (ses tok) (cap tok) (Some enc)
                  (ps ++ [peer])
          = (peer', ps ++ [peer'])
          ∧ sendP2PInject E (Some me) (ps ++ [peer']) (iss tok) s text
            = OpenSwarm me peer' (getTopic E (iss tok)).
Proof.
  intros Hparse Hno.
  assert (∀ q, p_publicKey q = iss tok →
            list_find (λ p, p_id p = iss tok
                            ∨ sameName (toLowerCase E) (p_name p) (iss tok)
                              = true
                            ∨ p_publicKey p = iss tok) (ps ++ [q])
            = Some (length ps, q)) as Hfind.
  { intros q Hq. apply list_find_snoc; [|by right; right].
    apply list_find_None, Forall_forall. intros p Hp Hm.
    apply peerMatch_spec in Hm. rewrite (Hno p Hp) in Hm. done. }
  assert (list_find (λ p, p_publicKey p = iss tok) ps = None) as Hkey.
  { apply list_find_None, Forall_forall. intros p Hp Hk.
    assert (peerMatch (toLowerCase E) (iss tok) p = true) as Hm
      by (apply peerMatch_spec; by right; right).
    rewrite (Hno p Hp) in Hm. done. }
  set (peer := mkPeer (shortKey E (iss tok)) None (iss tok) None (ses tok)
                 (cap tok) now None).
  exists peer. split.
  { unfold useInvite. rewrite Hparse, Hkey. by destruct identity. }
  split; [done|]. split; [done|]. split.
  - intros me s text. unfold sendP2PInject.
    destruct me as [me|]; [|by eauto].
    unfold findPeer. rewrite (Hfind peer) by done. simpl.
    destruct (negb _ && negb _); by eauto.
  - intros now' enc me s text Henc Hs.
    set (peer' := mkPeer (shortKey E (iss tok)) None (iss tok) (Some enc)
                    (uniq (ses tok ++ ses tok)) (uniq (cap tok ++ cap tok))
                    now None).
    exists peer'. split.
    + unfold addPeer.
      rewrite (list_find_snoc (λ p, p_publicKey p = iss tok) ps peer Hkey)
        by done.
      simpl. rewrite bool_decide_eq_true_2 by done.
      fold peer'. f_equal.
      rewrite insert_app_r_alt by lia. by rewrite Nat.sub_diag.
    + unfold sendP2PInject, findPeer. rewrite (Hfind peer') by done. simpl.
      assert (sessionAllowed s (uniq (ses tok ++ ses tok)) = true) as Hok.
      { apply sessionAllowed_true.
        destruct Hs; [left|right]; apply elem_of_uniq, elem_of_app; by left. }
      unfold sessionAllowed in Hok. apply orb_true_iff in Hok.
      assert (negb (includes "*" (uniq (ses tok ++ ses tok)))
              && negb (includes s (uniq (ses tok ++ ses tok))) = false) as ->.
      { destruct Hok as [-> | ->]; [done|by rewrite andb_false_r]. }
      by rewrite bool_decide_eq_true_2.
Qed.

(** X24.  A token that is not recorded yet and parses is recorded at the
    end of the invites with the subject and the expiry of the token and
    unclaimed; recording it again, whenever it still parses, returns
    that record and changes nothing; [removeInvite] then gives back the
    invites as they were, and throws on the invites without the
    record. *)
Theorem invite_record_round_trip
    (parse : Z → string → string + InviteToken) now tokenStr tok invites :
  parse now tokenStr = inr tok →
  (∀ i, i ∈ invites → inv_token i ≠ tokenStr) →
  ∃ rec,
    recordInvite parse now tokenStr invites = inr (rec, invites ++ [rec])
    ∧ inv_token rec = tokenStr
    ∧ inv_peerKey rec = sub tok
    ∧ inv_expires rec = exp tok
    ∧ claimedAt rec = None
    ∧ (∀ now' tok', parse now' tokenStr = inr tok' →
         recordInvite parse now' tokenStr (invites ++ [rec])
         = inr (rec, invites ++ [rec]))
    ∧ removeInvite tokenStr (invites ++ [rec]) = inr invites
    ∧ removeInvite tokenStr invites = inl "Invite not found".
Proof.
  intros Hparse Hnew.
  assert (list_find (sameToken tokenStr) invites = None) as Hnone.
  { apply list_find_None, Forall_forall. intros i Hi. by apply Hnew. }
  assert (filter (λ i, ¬ sameToken tokenStr i) invites = invites) as Hall.
  { apply filter_all, Forall_forall. intros i Hi. by apply Hnew. }
  set (rec := mkInvite tokenStr (sub tok) (ses tok) now (exp tok) None None).
  exists rec. split.
  { unfold recordInvite. by rewrite Hparse, Hnone. }
  do 4 (split; [done|]). split; [|split].
  - intros now' tok' Hparse'. unfold recordInvite. rewrite Hparse'.
    by rewrite (list_find_snoc (sameToken tokenStr) invites rec Hnone).
  - unfold removeInvite. rewrite filter_app, Hall.
    rewrite filter_cons_False by (intros Hn; by apply Hn).
    rewrite filter_nil, app_nil_r, length_app. simpl.
    rewrite bool_decide_eq_false_2 by lia. done.
  - unfold removeInvite. rewrite Hall. by rewrite bool_decide_eq_true_2.
Qed.

(** X25.  An invite is marked claimed at most once: after
    [markInviteClaimed] at a clock value other than 0, the first invite
    with the token is claimed, and marking the same token again, by
    anyone and at any time, changes nothing.  Marking changes no token
    and no invite with another token. *)
Theorem invite_claimed_at_most_once now1 now2 tokenStr by1 by2 invites :
  now1 ≠ 0 →
  let marked := markInviteClaimed now1 tokenStr by1 invites in
  markInviteClaimed now2 tokenStr by2 marked = marked
  ∧ inv_token <$> marked = inv_token <$> invites
  ∧ (∀ i, i ∈ invites → inv_token i ≠ tokenStr → i ∈ marked)
  ∧ (∀ i inv, list_find (sameToken tokenStr) invites = Some (i, inv) →
       ∃ inv', list_find (sameToken tokenStr) marked = Some (i, inv')
               ∧ truthyZ (claimedAt inv') = true
               ∧ (truthyZ (claimedAt inv) = true → inv' = inv)
               ∧ (truthyZ (claimedAt inv) = false →
                  claimedAt inv' = Some now1 ∧ claimedBy inv' = Some by1)).
Proof.
  intros Hnow marked. unfold marked, markInviteClaimed.
  destruct (list_find (sameToken tokenStr) invites) as [[i inv]|] eqn:Hf.
  - destruct (truthyZ (claimedAt inv)) eqn:Ht; simpl.
    + rewrite Hf, Ht. simpl. do 3 (split; [done|]).
      intros ? ? [= <- <-]. exists inv. by rewrite Ht.
    + set (new := mkInvite _ _ _ _ _ _ _).
      pose proof Hf as Hf'.
      apply list_find_Some in Hf' as (Hi & Htok & _).
      assert (list_find (sameToken tokenStr) (<[i := new]> invites)
              = Some (i, new)) as Hnew.
      { by apply (list_find_insert_same _ _ _ inv). }
      assert (truthyZ (claimedAt new) = true) as Htn.
      { simpl. by apply bool_decide_eq_true. }
      rewrite Hnew, Htn. simpl. split; [done|]. split.
      { rewrite list_fmap_insert. apply list_insert_id.
        by rewrite list_lookup_fmap, Hi. }
      split.
      { intros x Hx Hne.
        destruct (elem_of_insert_old invites i inv new x Hi Hx) as [->|?];
          [by destruct Hne|done]. }
      intros ? ? [= <- <-]. exists new. by rewrite Ht.
  - rewrite Hf. do 3 (split; [done|]). by intros ? ? [=].
Qed.

(** X23 at work: "A" uses the invite of "R"; sending is refused until
    the claim was acknowledged and the key of "R" stored. *)
Lemma invited_peer_needs_claim_witness :
  let E := Examples.demo in
  let tok := Examples.tokenOf "R" "A" in
  ∃ peer,
    useInvite (shortKey E) (parseInviteToken E) (mkIdentity "A" "enc-A") 1000
              "token-R-A" None []
    = inr (peer, [] ++ [peer], Some (mkIdentity "A" "enc-A"))
    ∧ p_publicKey peer = "R"
    ∧ p_encryptPub peer = None
    ∧ (∀ me s text, ∃ r,
         sendP2PInject E me ([] ++ [peer]) "R" s text = Return r)
    ∧ ∀ now' enc me s text,
        enc ≠ EmptyString →
        "*" ∈ ses tok ∨ s ∈ ses tok →
        ∃ peer',
          addPeer (shortKey E) now' "R" (ses tok) (cap tok) (Some enc)
                  ([] ++ [peer])
          = (peer', [] ++ [peer'])
          ∧ sendP2PInject E (Some me) ([] ++ [peer']) "R" s text
            = OpenSwarm me peer' (getTopic E "R").
Proof.
  apply (invited_peer_needs_claim Examples.demo (mkIdentity "A" "enc-A") 1000
           "token-R-A" (Examples.tokenOf "R" "A") None []).
  - by vm_compute.
  - intros p Hp. by apply elem_of_nil in Hp.
Defined.

(** X24 at work: the token "token-R-A" is recorded and removed. *)
Lemma invite_record_round_trip_witness :
  let parse := parseInviteToken Examples.demo in
  let tok := Examples.tokenOf "R" "A" in
  ∃ rec,
    recordInvite parse 1000 "token-R-A" [] = inr (rec, [] ++ [rec])
    ∧ inv_token rec = "token-R-A"
    ∧ inv_peerKey rec = sub tok
    ∧ inv_expires rec = exp tok
    ∧ claimedAt rec = None
    ∧ (∀ now' tok', parse now' "token-R-A" = inr tok' →
         recordInvite parse now' "token-R-A" ([] ++ [rec])
         = inr (rec, [] ++ [rec]))
    ∧ removeInvite "token-R-A" ([] ++ [rec]) = inr []
    ∧ removeInvite "token-R-A" [] = inl "Invite not found".
Proof.
  apply (invite_record_round_trip (parseInviteToken Examples.demo) 1000
           "token-R-A" (Examples.tokenOf "R" "A") []).
  - by vm_compute.
  - intros i Hi. by apply elem_of_nil in Hi.
Defined.

(** X25 at work: the invite "t" is claimed by "A" at 1000; the claim of
    "B" at 2000 changes nothing. *)
Lemma invite_claimed_at_most_once_witness :
  let marked := markInviteClaimed 1000 "t" "A" [MoreExamples.inviteT] in
  claimedBy <$> marked = [Some "A"]
  ∧ markInviteClaimed 2000 "t" "B" marked = marked.
Proof.
  split; [by vm_compute|].
  apply (invite_claimed_at_most_once 1000 2000 "t" "A" "B"
           [MoreExamples.inviteT]).
  done.
Defined.

End PeersMore.

Module AccessMore.
Import Trust TrustFacts ListFacts TrustOps TrustMoreFacts MoreListFacts.
Import P2P PeersFacts.

Lemma bool_same (a b : bool) : (a = true ↔ b = true) → a = b.
Proof.
  destruct a, b; intros [H1 H2]; try done; [by rewrite H1|by rewrite H2].
Qed.

(** X26.  [updateAccessGrant] replaces the sessions of the grant, it does
    not merge them as [grantAccess] does: when the store holds at most
    one non-revoked grant per key and no grant lists the key in its
    history, the key is from then on authorised for exactly the sessions
    passed, provided the grant carries the capability "inject". *)
Theorem updateAccessGrant_replaces shortKey lower who ses cap gs g gs' :
  updateAccessGrant shortKey lower who ses cap gs = inr (g, gs') →
  activeUnique gs →
  noHistoryOf (peerKey g) gs →
  sessions g = ses
  ∧ (∀ c, cap = Some c → caps g = c)
  ∧ ∀ t s, isAuthorized t (peerKey g) s gs'
           = sessionAllowed s ses && includes "inject" (caps g).
Proof.
  unfold updateAccessGrant.
  destruct (list_find _ gs) as [[i old]|] eqn:Hf; [|done].
  intros [= <- <-] Hu Hh. simpl in Hh.
  split; [done|]. split; [by intros c ->|].
  intros t s. simpl.
  apply list_find_Some in Hf as (Hi & Hact & _).
  assert (isRevoked old = false) as Hlive.
  { unfold activeMatch in Hact. apply andb_true_iff in Hact as [Hact _].
    by apply negb_true_iff. }
  set (new := mkGrant _ _ _ _ _ _ _ _ _).
  apply bool_same.
  rewrite isAuthorized_true, andb_true_iff, sessionAllowed_true,
    includes_true.
  split.
  - intros (g' & Hin & Hg').
    apply list_elem_of_lookup in Hin as [j Hj].
    destruct (decide (i = j)) as [<-|Hne].
    + rewrite list_lookup_insert_eq in Hj by (by eapply lookup_lt_Some).
      injection Hj as <-.
      destruct Hg' as [(_ & Hc & Hs & _)
                      |(_ & _ & _ & hs & h & Hhs & Hhin & Hk & _)];
        [done|].
      exfalso. eapply (Hh old hs h); [|done..].
      by eapply list_elem_of_lookup_2.
    + rewrite list_lookup_insert_ne in Hj by done. exfalso.
      destruct Hg' as [(Hr & _ & _ & Hk)
                      |(_ & _ & _ & hs & h & Hhs & Hhin & Hk & _)].
      * assert (list_find (activeFor (peerKey old)) gs = Some (i, old)) as H1.
        { apply list_find_unique; [apply Hu|done|done]. }
        assert (list_find (activeFor (peerKey old)) gs = Some (j, g')) as H2.
        { apply list_find_unique; [apply Hu|done|].
          split; [done|by apply isRevoked_false]. }
        congruence.
      * eapply (Hh g' hs h); [|done..]. by eapply list_elem_of_lookup_2.
  - intros [Hs Hc]. exists new. split; [by eapply elem_of_insert_self|].
    left. repeat split; try done. by apply isRevoked_false.
Qed.

(** X27.  [updatePeerAccess] replaces the sessions of the peer it finds,
    and [findPeer] answers the same query with that peer: a later
    [sendP2PInject] to the same name is rejected, before any swarm is
    created, exactly for the sessions that are not among the ones
    passed. *)
Theorem updatePeerAccess_governs_send (E : Externals) who ses cap ps p ps' :
  updatePeerAccess (toLowerCase E) who ses cap ps = inr (p, ps') →
  findPeer (toLowerCase E) who ps' = Some p
  ∧ p_sessions p = ses
  ∧ (∀ c, cap = Some c → p_caps p = c)
  ∧ ∀ me s text,
      sendP2PInject E (Some me) ps' who s text
      = if sessionAllowed s ses
        then if truthyS (p_encryptPub p)
             then OpenSwarm me p (getTopic E (p_publicKey p))
             else Return (mkResult EXIT_INVALID
                    (Some "Peer has no encryption key (claim token first)"))
        else Return (mkResult EXIT_REJECTED
                       (Some ("No access to session " +:+ quoted s))).
Proof.
  unfold updatePeerAccess.
  destruct (list_find _ ps) as [[i old]|] eqn:Hf; [|done].
  intros [= <- <-].
  set (new := mkPeer _ _ _ _ _ _ _ _).
  apply list_find_Some in Hf as (Hi & Hold & Hbefore).
  assert (findPeer (toLowerCase E) who (<[i := new]> ps) = Some new) as Hfind.
  { unfold findPeer.
    assert (list_find
              (λ p, p_id p = who
                    ∨ sameName (toLowerCase E) (p_name p) who = true
                    ∨ p_publicKey p = who) (<[i := new]> ps)
            = Some (i, new)) as ->; [|done].
    apply list_find_Some. split.
    { apply list_lookup_insert_eq. by eapply lookup_lt_Some. }
    split; [by apply peerMatch_spec in Hold|].
    intros j z Hj Hlt. rewrite list_lookup_insert_ne in Hj by lia.
    intros Hz. apply (Hbefore j z Hj Hlt). by apply peerMatch_spec. }
  split; [done|]. split; [done|]. split; [by intros c ->|].
  intros me s text. unfold sendP2PInject. rewrite Hfind. simpl.
  unfold sessionAllowed.
  destruct (includes "*" ses), (includes s ses); simpl; try done;
    by destruct (truthyS (p_encryptPub old)).
Qed.

(** X26 at work: the grant of "B" for "dev" is updated to "ops". *)
Lemma updateAccessGrant_replaces_witness :
  let g := mkGrant "grant-7" "B" (Some "enc-B") ["ops"] ["inject"] 7
             None None None in
  updateAccessGrant (λ k, k) Examples.asciiLower "B" ["ops"] None
    [Examples.grantOfB] = inr (g, [g])
  ∧ isAuthorized 50 "B" "dev" [Examples.grantOfB] = true
  ∧ isAuthorized 50 "B" "dev" [g] = false
  ∧ isAuthorized 50 "B" "ops" [g] = true.
Proof.
  split; [by vm_compute|]. split; [by vm_compute|].
  destruct (updateAccessGrant_replaces (λ k, k) Examples.asciiLower "B"
              ["ops"] None [Examples.grantOfB]
              (mkGrant "grant-7" "B" (Some "enc-B") ["ops"] ["inject"] 7
                 None None None)
              [mkGrant "grant-7" "B" (Some "enc-B") ["ops"] ["inject"] 7
                 None None None])
    as (_ & _ & Hauth).
  - by vm_compute.
  - intros k. etrans; [apply length_filter|]. simpl. lia.
  - intros g hs h Hg. apply list_elem_of_singleton in Hg as ->. done.
  - split; [by rewrite Hauth|by rewrite Hauth].
Defined.

(** X27 at work: the peer named "Bob" is restricted to "ops"; a send to
    "bob" for "dev" is rejected, one for "ops" goes on. *)
Lemma updatePeerAccess_governs_send_witness :
  let p := mkPeer "B" (Some "Bob") "B" (Some "enc-B") ["ops"] ["inject"] 1
             None in
  updatePeerAccess Examples.asciiLower "bob" ["ops"] None
    [MoreExamples.peerBob] = inr (p, [p])
  ∧ sendP2PInject Examples.demo (Some Examples.responder) [p] "bob" "dev"
      "hi"
    = Return (mkResult EXIT_REJECTED
                (Some ("No access to session " +:+ quoted "dev")))
  ∧ sendP2PInject Examples.demo (Some Examples.responder) [p] "bob" "ops"
      "hi"
    = OpenSwarm Examples.responder p "B".
Proof.
  split; [by vm_compute|].
  destruct (updatePeerAccess_governs_send Examples.demo "bob" ["ops"] None
              [MoreExamples.peerBob]
              (mkPeer "B" (Some "Bob") "B" (Some "enc-B") ["ops"] ["inject"]
                 1 None)
              [mkPeer "B" (Some "Bob") "B" (Some "enc-B") ["ops"] ["inject"]
                 1 None])
    as (_ & _ & _ & Hsend).
  - by vm_compute.
  - split; by rewrite Hsend.
Defined.

End AccessMore.

(* ===================================================================== *)
(** * Further properties of the responder                                 *)
(* ===================================================================== *)

Module P2PFacts.
Import Trust TrustFacts ListFacts P2P.




Lemma append_assoc (a b c : string) : (a +:+ b) +:+ c = a +:+ (b +:+ c).
Proof.
  induction a as [|x a IH]; [done|].
  change (String x ((a +:+ b) +:+ c) = String x (a +:+ (b +:+ c))).
  by rewrite IH.
Qed.

(** [splitLine] cuts at the first newline. *)
Lemma splitLine_cut s :
  ∀ ln rest, splitLine s = Some (ln, rest) →
             s = ln +:+ String newline rest ∧ splitLine ln = None.
Proof.
  induction s as [|x s IH]; intros ln rest Hs; [done|].
  simpl in Hs. destruct (Ascii.eqb x newline) eqn:Hx.
  - injection Hs as <- <-. apply Ascii.eqb_eq in Hx as ->. done.
  - destruct (splitLine s) as [[l r]|] eqn:Hsp; [|done].
    injection Hs as <- <-. destruct (IH l r eq_refl) as [-> Hn].
    split; [done|]. simpl. by rewrite Hx, Hn.
Qed.

Lemma splitLine_first ln rest :
  splitLine ln = None →
  splitLine (ln +:+ String newline rest) = Some (ln, rest).
Proof.
  induction ln as [|x ln IH]; intros Hn.
  - change (splitLine (String newline rest) = Some (EmptyString, rest)).
    reflexivity.
  - simpl in Hn. destruct (Ascii.eqb x newline) eqn:Hx; [done|].
    destruct (splitLine ln) as [[l r]|] eqn:Hsp; [done|].
    change (splitLine (String x (ln +:+ String newline rest))
            = Some (String x ln, rest)).
    simpl. by rewrite Hx, IH.
Qed.

Section Responder.

Variable E : Externals.
Variable me : Identity.

Lemma rateCheck_pair now who cls w :
  rateCheck now who cls w
  = ((RateLimit.check RateLimit.DEFAULT_LIMITS now who cls (limiter w)).1,
     mkWorld
       (RateLimit.check RateLimit.DEFAULT_LIMITS now who cls (limiter w)).2
       (replay w) (store w)).
Proof.
  unfold rateCheck.
  by destruct (RateLimit.check RateLimit.DEFAULT_LIMITS now who cls
                 (limiter w)).
Qed.

(** The claim handler writes one frame; an ack only for a token that
    parses, is issued by the responder and made out to the sender, the
    claims class of the sender not being exhausted. *)
Lemma handleClaim_frames now msg w :
  let r := handleClaim E me now msg w in
  replay r.1 = replay w
  ∧ peers (store r.1) = peers (store w)
  ∧ ∃ f, r.2 = [f]
    ∧ (f_type f = "ack" →
       (RateLimit.check RateLimit.DEFAULT_LIMITS now (from msg)
          RateLimit.claims (limiter w)).1 = true
       ∧ ∃ tok, parseInviteToken E now (default EmptyString (token msg))
                = inr tok
                ∧ iss tok = id_publicKey me ∧ sub tok = from msg).
Proof.
  intros r. unfold r, handleClaim. rewrite rateCheck_pair. simpl.
  destruct (RateLimit.check _ _ _ _ _).1; simpl.
  - destruct (parseInviteToken E now _) as [err|t] eqn:Hp; simpl.
    + split; [done|]. split; [done|]. by eexists.
    + case_bool_decide as Hi; simpl.
      { split; [done|]. split; [done|]. by eexists. }
      case_bool_decide as Hs; simpl.
      { split; [done|]. split; [done|]. by eexists. }
      split; [done|]. split; [done|]. eexists. split; [done|].
      intros _. split; [done|]. exists t. split; [done|].
      split.
      * by destruct (decide (iss t = id_publicKey me)).
      * by destruct (decide (sub t = from msg)).
  - split; [done|]. split; [done|]. by eexists.
Qed.

(** What the try block of the inject branch computes is a plaintext in
    the sense of [decryptsTo]. *)
Lemma decrypted_spec c msg gs plain :
  (if bool_decide (2 ≤ v msg) && truthyS (ephemeralPub msg)
   then decryptWithEphemeral E (default EmptyString (payload msg))
          (ephemeralPrivate c) (default EmptyString (ephemeralPub msg))
   else match getGrantForPeer (from msg) gs with
        | Some grant =>
            if truthyS (peerEncryptPub grant)
            then decryptMessage E (default EmptyString (payload msg))
                   (default EmptyString (peerEncryptPub grant))
            else None
        | None => None
        end) = Some plain →
  decryptsTo E c msg gs plain.
Proof.
  unfold decryptsTo.
  destruct (bool_decide (2 ≤ v msg)) eqn:Hv;
    destruct (truthyS (ephemeralPub msg)) eqn:He; simpl; intros Hd.
  - left. apply bool_decide_eq_true in Hv. done.
  - right. split; [by intros [_ ?]|].
    destruct (getGrantForPeer _ _) as [grant|]; [|done].
    destruct (truthyS (peerEncryptPub grant)) eqn:Hg; [|done].
    by exists grant.
  - right. apply bool_decide_eq_false in Hv. split; [by intros [? _]|].
    destruct (getGrantForPeer _ _) as [grant|]; [|done].
    destruct (truthyS (peerEncryptPub grant)) eqn:Hg; [|done].
    by exists grant.
  - right. split; [by intros [_ ?]|].
    destruct (getGrantForPeer _ _) as [grant|]; [|done].
    destruct (truthyS (peerEncryptPub grant)) eqn:Hg; [|done].
    by exists grant.
Qed.

(** The inject handler writes one frame and leaves the trust store and
    the replay protector alone; an ack only for a sender that
    [isAuthorized] accepts for the session, whose injects class is not
    exhausted, and whose payload was decrypted and delivered. *)
Lemma handleInject_frames now c msg w :
  let r := handleInject E me now c msg w in
  replay r.1 = replay w
  ∧ store r.1 = store w
  ∧ ∃ f, r.2 = [f]
    ∧ (f_type f = "ack" →
       (RateLimit.check RateLimit.DEFAULT_LIMITS now (from msg)
          RateLimit.injects (limiter w)).1 = true
       ∧ isAuthorized now (from msg) (default EmptyString (session msg))
           (grants (store w)) = true
       ∧ ∃ plain, decryptsTo E c msg (grants (store w)) plain
                  ∧ onInject E (default EmptyString (session msg)) plain
                      (from msg) = true).
Proof.
  intros r. unfold r, handleInject. rewrite rateCheck_pair. simpl.
  destruct (RateLimit.check _ _ _ _ _).1; simpl.
  - destruct (isAuthorized now _ _ _) eqn:Ha; simpl.
    + match goal with
      | |- context [match ?d with Some _ => _ | None => _ end] =>
          destruct d as [plain|] eqn:Hd
      end.
      * destruct (onInject E _ plain _) eqn:Ho.
        -- split; [done|]. split; [done|]. eexists. split; [done|].
           intros _. split; [done|]. split; [done|]. exists plain.
           split; [|done]. by apply decrypted_spec.
        -- split; [done|]. split; [done|]. by eexists.
      * split; [done|]. split; [done|]. by eexists.
    + split; [done|]. split; [done|]. by eexists.
  - split; [done|]. split; [done|]. by eexists.
Qed.

End Responder.

End P2PFacts.

Module P2PMore.
Import Trust TrustFacts ListFacts P2P P2PFacts.

Section Responder.

Variable E : Externals.
Variable me : Identity.

(** What [dispatch] does with a frame that passed the gates. *)
Lemma dispatch_frames now c msg w :
  let r := dispatch E me now c msg w in
  replay r.1 = replay w
  ∧ peers (store r.1) = peers (store w)
  ∧ (length r.2 ≤ 1)%nat
  ∧ (store r.1 = store w ∨ ∃ f, r.2 = [f] ∧ f_type f = "ack")
  ∧ ∀ f, f ∈ r.2 → f_type f = "ack" →
      (type msg = "claim"
       ∧ (RateLimit.check RateLimit.DEFAULT_LIMITS now (from msg)
            RateLimit.claims (limiter w)).1 = true
       ∧ ∃ tok, parseInviteToken E now (default EmptyString (token msg))
                = inr tok
                ∧ iss tok = id_publicKey me ∧ sub tok = from msg)
      ∨ (type msg = "inject"
         ∧ (RateLimit.check RateLimit.DEFAULT_LIMITS now (from msg)
              RateLimit.injects (limiter w)).1 = true
         ∧ isAuthorized now (from msg) (default EmptyString (session msg))
             (grants (store w)) = true
         ∧ ∃ plain, decryptsTo E c msg (grants (store w)) plain
                    ∧ onInject E (default EmptyString (session msg)) plain
                        (from msg) = true).
Proof.
  intros r. unfold r, dispatch.
  destruct (bool_decide (type msg = "claim") && truthyS (token msg)) eqn:Hc.
  - apply andb_true_iff in Hc as [Hc _]. apply bool_decide_eq_true in Hc.
    destruct (handleClaim_frames E me now msg w) as (Hr & Hp & f & Hf & Hack).
    split; [done|]. split; [done|]. rewrite Hf. split; [simpl; lia|].
    split.
    + destruct (decide (f_type f = "ack")) as [Ht|Ht]; [right; by exists f|].
      left. revert Hf Ht. unfold handleClaim. rewrite rateCheck_pair. simpl.
      destruct (RateLimit.check _ _ _ _ _).1; simpl; [|done].
      destruct (parseInviteToken E now _) as [err|t]; simpl; [done|].
      repeat case_bool_decide; simpl; try done.
      by intros [= <-].
    + intros f' Hin Ht. apply list_elem_of_singleton in Hin as ->.
      left. split; [done|]. by apply Hack.
  - destruct (bool_decide (type msg = "inject") && truthyS (payload msg)
              && truthyS (session msg)) eqn:Hi.
    + apply andb_true_iff in Hi as [Hi _].
      apply andb_true_iff in Hi as [Hi _]. apply bool_decide_eq_true in Hi.
      destruct (handleInject_frames E me now c msg w)
        as (Hr & Hs & f & Hf & Hack).
      split; [done|]. split; [by rewrite Hs|]. rewrite Hf.
      split; [simpl; lia|]. split; [by left|].
      intros f' Hin Ht. apply list_elem_of_singleton in Hin as ->.
      right. split; [done|]. by apply Hack.
    + simpl. split; [done|]. split; [done|]. split; [lia|].
      split; [by left|]. intros f Hin. by apply elem_of_nil in Hin.
Qed.

(** The same for the gates in front of [dispatch]. *)
Lemma gated_frames now c1 msg w :
  let r := gated E me now c1 msg w in
  r.1.1 = c1
  ∧ peers (store r.1.2) = peers (store w)
  ∧ (length r.2 ≤ 1)%nat
  ∧ (store r.1.2 = store w ∨ ∃ f, r.2 = [f] ∧ f_type f = "ack")
  ∧ ∀ f, f ∈ r.2 → f_type f = "ack" →
      verifySignature E msg (from msg) = true
      ∧ (Replay.check now now (nonce msg) (ts msg) (replay w)).1 = true
      ∧ ((type msg = "claim"
          ∧ ∃ tok, parseInviteToken E now (default EmptyString (token msg))
                   = inr tok
                   ∧ iss tok = id_publicKey me ∧ sub tok = from msg)
         ∨ (type msg = "inject"
            ∧ isAuthorized now (from msg)
                (default EmptyString (session msg)) (grants (store w))
              = true
            ∧ ∃ plain, decryptsTo E c1 msg (grants (store w)) plain
                       ∧ onInject E (default EmptyString (session msg))
                           plain (from msg) = true)).
Proof.
  intros r. unfold r, gated.
  destruct (verifySignature E msg (from msg)) eqn:Hv; simpl.
  - destruct (Replay.check now now (nonce msg) (ts msg) (replay w))
      as [fresh rp] eqn:Hrp.
    destruct fresh; simpl.
    + pose proof (dispatch_frames now c1 msg
                    (mkWorld (limiter w) rp (store w)))
        as (_ & Hp & Hlen & Hst & Hack).
      destruct (dispatch E me now c1 msg _) as [w2 out]. simpl in *.
      do 4 (split; [done|]).
      intros f Hin Ht. split; [done|]. split; [done|].
      destruct (Hack f Hin Ht) as [(? & _ & ?)|(? & _ & ?)];
        [by left|by right].
    + rewrite rateCheck_pair. simpl. split; [done|]. split; [done|].
      split; [lia|]. split; [by left|].
      intros f Hin. by apply elem_of_nil in Hin.
  - rewrite rateCheck_pair. simpl. split; [done|]. split; [done|].
    split; [lia|]. split; [by left|].
    intros f Hin. by apply elem_of_nil in Hin.
Qed.

(** A verified rotation that finds neither a grant nor a peer rotates
    nothing. *)
Lemma rotation_unanswered r st :
  (processPeerKeyRotation (shortKey E) (verifyKeyRotation E) r st).1 = false →
  (processPeerKeyRotation (shortKey E) (verifyKeyRotation E) r st).2 = st.
Proof.
  unfold processPeerKeyRotation.
  destruct (verifyKeyRotation E r); simpl; [|done].
  intros Hb. apply orb_false_iff in Hb as [H1 H2].
  apply bool_decide_eq_false in H1, H2.
  destruct (list_find _ (grants st)) as [[i g]|];
    [exfalso; apply H1; by eexists|].
  destruct (list_find _ (peers st)) as [[j p]|];
    [exfalso; apply H2; by eexists|].
  by destruct st.
Qed.


(** X29.  An ack is earned, and nothing changes the trust store without
    an ack.  Whatever arrives, either the grants and the peers are as
    before or the one frame written is an ack; the peers change only by
    a key rotation.  And an ack is only ever written for a frame that is
    a key rotation whose record verifies and whose old key a non-revoked
    grant or a peer carries, or that passed the signature and the replay
    check and is a claim with a token that parses, issued by the
    responder and made out to the sender, or an inject from a sender
    that [isAuthorized] accepts for the session: then the payload of
    the frame was decrypted, with the ephemeral key of the connection or
    with the encryption key of the sender's grant ([decryptsTo]), and
    the handler of the caller accepted that plaintext for the session
    and the sender of the frame. *)
Theorem ack_is_earned now data c w :
  let r := handleConnection E me now data c w in
  (store r.1.2 = store w ∨ ∃ f, r.2 = [f] ∧ f_type f = "ack")
  ∧ ∀ f, f ∈ r.2 → f_type f = "ack" →
      ∃ ln rest msg,
        splitLine (buffer c +:+ data) = Some (ln, rest)
        ∧ parseJSON E ln = Some msg
        ∧ ((type msg = "key-rotation"
            ∧ ∃ rot, keyRotation msg = Some rot
                     ∧ verifyKeyRotation E rot = true
                     ∧ (is_Some (list_find (grantOf rot) (grants (store w)))
                        ∨ is_Some (list_find (peerOf rot)
                                     (peers (store w)))))
           ∨ (peers (store r.1.2) = peers (store w)
              ∧ verifySignature E msg (from msg) = true
              ∧ (Replay.check now now (nonce msg) (ts msg) (replay w)).1 = true
              ∧ ((type msg = "claim"
                  ∧ ∃ tok, parseInviteToken E now
                             (default EmptyString (token msg)) = inr tok
                           ∧ iss tok = id_publicKey me
                           ∧ sub tok = from msg)
                 ∨ (type msg = "inject"
                    ∧ isAuthorized now (from msg)
                        (default EmptyString (session msg))
                        (grants (store w)) = true
                    ∧ ∃ plain,
                        decryptsTo E c msg (grants (store w)) plain
                        ∧ onInject E (default EmptyString (session msg))
                            plain (from msg) = true)))).
Proof.
  intros r. unfold r, handleConnection.
  destruct (splitLine (buffer c +:+ data)) as [[ln rest]|] eqn:Hs; simpl;
    [|split; [by left|intros f Hin; by apply elem_of_nil in Hin]].
  destruct (parseJSON E ln) as [msg|] eqn:Hp; simpl;
    [|split; [by left|intros f Hin; by apply elem_of_nil in Hin]].
  destruct (bool_decide (type msg = "hello") && negb (handshakeComplete c))
    eqn:Hhello.
  { clear Hhello. case_bool_decide; simpl.
    - split; [by left|]. intros f Hin Ht.
      apply list_elem_of_singleton in Hin as ->. done.
    - split; [by left|]. intros f Hin Ht.
      apply list_elem_of_singleton in Hin as ->. done. }
  destruct (bool_decide (type msg ≠ "hello")
            && bool_decide (type msg ≠ "hello-ack")) eqn:Hty.
  - assert (∀ c1,
      ephemeralPrivate c1 = ephemeralPrivate c →
      let g := gated E me now c1 msg w in
      (store g.1.2 = store w ∨ ∃ f, g.2 = [f] ∧ f_type f = "ack")
      ∧ ∀ f, f ∈ g.2 → f_type f = "ack" →
          ∃ ln0 rest0 msg0,
            Some (ln, rest) = Some (ln0, rest0)
            ∧ parseJSON E ln0 = Some msg0
            ∧ ((type msg0 = "key-rotation"
                ∧ ∃ rot, keyRotation msg0 = Some rot
                     ∧ verifyKeyRotation E rot = true
                     ∧ (is_Some (list_find (grantOf rot) (grants (store w)))
                        ∨ is_Some (list_find (peerOf rot)
                                     (peers (store w)))))
               ∨ (peers (store g.1.2) = peers (store w)
                  ∧ verifySignature E msg0 (from msg0) = true
                  ∧ (Replay.check now now (nonce msg0) (ts msg0) (replay w)).1
                    = true
                  ∧ ((type msg0 = "claim"
                      ∧ ∃ tok, parseInviteToken E now
                                 (default EmptyString (token msg0)) = inr tok
                               ∧ iss tok = id_publicKey me
                               ∧ sub tok = from msg0)
                     ∨ (type msg0 = "inject"
                        ∧ isAuthorized now (from msg0)
                            (default EmptyString (session msg0))
                            (grants (store w)) = true
                        ∧ ∃ plain,
                            decryptsTo E c msg0 (grants (store w)) plain
                            ∧ onInject E (default EmptyString (session msg0))
                                plain (from msg0) = true))))) as Hgated.
    { intros c1 Heph g.
      destruct (gated_frames now c1 msg w) as (_ & Hpe & _ & Hst & Hack).
      split; [done|]. intros f Hin Ht. exists ln, rest, msg.
      split; [done|]. split; [done|]. right. split; [done|].
      destruct (Hack f Hin Ht) as (Hv & Hfresh & Hwhat).
      split; [done|]. split; [done|].
      destruct Hwhat as [?|(? & ? & plain & Hd & ?)]; [by left|right].
      split; [done|]. split; [done|]. exists plain. split; [|done].
      unfold decryptsTo in *. by rewrite <- Heph. }
    destruct (keyRotation msg) as [rot|] eqn:Hrot; [|by apply Hgated].
    destruct (bool_decide (type msg = "key-rotation")) eqn:Hk;
      [apply bool_decide_eq_true in Hk|by apply Hgated].
    pose proof (rotation_unanswered rot (store w)) as Hun.
    pose proof (HistoryMore.rotation_answer (shortKey E) (verifyKeyRotation E)
                  rot (store w)) as Hans.
    destruct (processPeerKeyRotation _ _ rot (store w)) as [ok st].
    simpl in *. destruct ok.
    + split; [right; by eexists|]. intros f Hin Ht.
      exists ln, rest, msg. split; [done|]. split; [done|]. left.
      split; [done|]. exists rot. split; [done|].
      symmetry in Hans. apply andb_true_iff in Hans as [Hv Hfound].
      split; [done|]. apply orb_true_iff in Hfound as [Hf|Hf];
        apply bool_decide_eq_true in Hf; [by left|by right].
    + split; [left; by apply Hun|]. intros f Hin Ht.
      apply list_elem_of_singleton in Hin as ->. done.
  - pose proof (dispatch_frames now
                  (mkConn rest (handshakeComplete c) (ephemeralPublic c)
                     (ephemeralPrivate c) (peerEphemeralPub c)
                     (negotiatedVersion c)) msg w)
      as (_ & _ & _ & Hst & Hack).
    destruct (dispatch E me now _ msg w) as [w1 out]. simpl in *.
    split; [done|]. intros f Hin Ht. exfalso.
    apply andb_false_iff in Hty.
    destruct (Hack f Hin Ht) as [(Hc & _)|(Hi & _)];
      destruct Hty as [Hty|Hty]; apply bool_decide_eq_false in Hty;
      apply Hty; by rewrite ?Hc, ?Hi.
Qed.

(** X30.  One line per data event.  A data event writes at most one
    frame.  Without a newline in the buffer the decoded text of the chunk
    is only appended; a further chunk then gives the same as the two
    chunks received as one, provided that decoding the two chunks one by
    one gives the text of decoding them together (each chunk is decoded
    on its own, which differs when the cut falls inside a multi-byte
    character).  With a newline, the text before the first newline is
    the one line handled, and everything after it, further complete
    lines included, stays in the buffer for a later event. *)
Theorem one_line_per_data_event toString now chunk c w :
  let r := onData E toString me now chunk c w in
  let text := buffer c +:+ toString chunk in
  (length r.2 ≤ 1)%nat
  ∧ (splitLine text = None →
     r = (consumed c text, w, [])
     ∧ ∀ now' more,
         toString (chunk ++ more) = toString chunk +:+ toString more →
         onData E toString me now' more r.1.1 r.1.2
         = onData E toString me now' (chunk ++ more) c w)
  ∧ (∀ ln rest, splitLine text = Some (ln, rest) →
       text = ln +:+ String newline rest
       ∧ splitLine ln = None
       ∧ buffer r.1.1 = rest).
Proof.
  intros r text. unfold r, text, onData.
  generalize (toString chunk) as data. intros data.
  split; [|split].
  - unfold handleConnection.
    destruct (splitLine _) as [[ln rest]|]; simpl; [|lia].
    destruct (parseJSON E ln) as [msg|]; simpl; [|lia].
    destruct (_ && negb _); [case_bool_decide; simpl; lia|].
    destruct (_ && _).
    + assert (∀ c1, (length (gated E me now c1 msg w).2 ≤ 1)%nat) as Hg.
      { intros c1. apply gated_frames. }
      destruct (keyRotation msg) as [rot|]; [|apply Hg].
      case_bool_decide; [|apply Hg].
      destruct (processPeerKeyRotation _ _ _ _). simpl. lia.
    + match goal with
      | |- context [dispatch E me now ?c1 msg w] =>
          pose proof (dispatch_frames now c1 msg w) as (_ & _ & Hlen & _);
          destruct (dispatch E me now c1 msg w)
      end.
      done.
  - intros Hn.
    assert (handleConnection E me now data c w
            = (consumed c (buffer c +:+ data), w, [])) as ->.
    { unfold handleConnection. by rewrite Hn. }
    split; [done|]. intros now' more Hdec. cbn [fst snd]. rewrite Hdec.
    unfold handleConnection, consumed.
    cbn [buffer handshakeComplete ephemeralPublic ephemeralPrivate
         peerEphemeralPub negotiatedVersion].
    by rewrite append_assoc.
  - intros ln rest Hs. destruct (splitLine_cut _ _ _ Hs) as [Hcut Hln].
    split; [done|]. split; [done|]. unfold handleConnection. rewrite Hs.
    destruct (parseJSON E ln) as [msg|]; simpl; [|done].
    destruct (_ && negb _); [by case_bool_decide|].
    destruct (_ && _).
    + assert (∀ c1, (gated E me now c1 msg w).1.1 = c1) as Hg.
      { intros c1. apply gated_frames. }
      destruct (keyRotation msg) as [rot|]; [|by rewrite Hg].
      case_bool_decide; [|by rewrite Hg].
      by destruct (processPeerKeyRotation _ _ _ _).
    + by destruct (dispatch E me now _ msg w).
Qed.

End Responder.


(** X30 at work, with a decoder that takes every byte for a character:
    the claim of "B" arrives in two chunks, cut inside the line; the
    first is only buffered, and the second gets the answer the whole
    line would have got. *)
Lemma one_line_per_data_event_witness :
  let toString := String.string_of_list_byte in
  let part1 := String.list_byte_of_string "B claims " in
  let part2 := String.list_byte_of_string (Examples.line "token-R-B") in
  let r1 := onData Examples.demo toString Examples.responder 1000 part1
              Examples.conn0 Examples.world0 in
  r1 = (consumed Examples.conn0 "B claims ", Examples.world0, [])
  ∧ onData Examples.demo toString Examples.responder 1001 part2 r1.1.1 r1.1.2
    = onData Examples.demo toString Examples.responder 1001 (part1 ++ part2)
        Examples.conn0 Examples.world0
  ∧ (onData Examples.demo toString Examples.responder 1001 (part1 ++ part2)
       Examples.conn0 Examples.world0).2
    = [ackFrame "R" 1001 None (Some "enc-R")].
Proof.
  destruct (one_line_per_data_event Examples.demo Examples.responder
              String.string_of_list_byte 1000
              (String.list_byte_of_string "B claims ")
              Examples.conn0 Examples.world0) as (_ & Hnone & _).
  destruct Hnone as [H1 H2]; [by vm_compute|].
  split; [exact H1|]. split; [|by vm_compute].
  apply H2. by vm_compute.
Defined.

End P2PMore.
